(** * CursorCombat: the level simulation core

    A shallow embedding of the simulation core of the game (the classes
    [Shape] and its subclasses, [HealthBar], [Level] and the parts of
    [GameScene] that own the score, the power-up state and the schedule),
    followed by the properties of the specification that are stated about it.

    Conventions of the embedding.
    - In the level model a JavaScript number is idealised as an exact
      rational ([Q]); the score is an integer.  Where the rounding of the
      arithmetic is the point, in [Shape.update], the computation is also
      given on IEEE 754 binary64 values ([Shape_update_binary64]).
    - Objects that the code mutates in place and aliases from closures (the
      shapes) carry an address [sh_ref]; tweens, timer callbacks and pointer
      handlers name their target by that address.
    - Phaser is modelled at its interface.  [scene.tweens] is the list of
      active tweens, [scene.time] the timer events of the clock; the
      callbacks the code passes to them are first-order data ([TweenKind],
      [Callback]) and the functions [tweenUpdate], [tweenComplete] and
      [timerFire] are what Phaser runs when it advances a tween or fires an
      event.  Drawing, text and sprites are left out, except where the code
      reads them back.
    - A JavaScript [throw] is the outcome [Thrown]; the state it carries is
      the state at the moment of the throw. *)

From Stdlib Require Import Floats.
From Stdlib Require Import List ZArith QArith String Ascii Bool Lia Lqa.
Import ListNotations.
Set Warnings "-register-all".
Open Scope Q_scope.

(** ** Values of the level scripts *)

(** A script line is a JavaScript array; its entries are numbers, strings,
    [{x, y}] point objects and nested arrays. *)
Inductive JSValue : Type :=
| JNum (q : Q)
| JStr (s : string)
| JPoint (px py : Q)
| JArr (l : list JSValue).

Definition ScriptLine : Type := list JSValue.
Definition Script : Type := list ScriptLine.

(** Outcome of a command that may throw.  [Unmodelled] marks a line on which
    the code would coerce a value of an unexpected dynamic type (a string
    used as a number, a number iterated as an array) or divide by a zero
    difficulty: nothing is stated about such lines. *)
Inductive Completion (A : Type) : Type :=
| Normal (a : A)
| Thrown (msg : string) (a : A)
| Unmodelled.
Arguments Normal {A} a.
Arguments Thrown {A} msg a.
Arguments Unmodelled {A}.

(** Sequencing: a throw or an unmodelled line ends the command. *)
Definition bindC {A : Type} (c : Completion A) (k : A -> Completion A) : Completion A :=
  match c with
  | Normal a => k a
  | Thrown msg a => Thrown msg a
  | Unmodelled => Unmodelled
  end.

(** ** Comparisons on numbers *)

Definition Qlt_bool (a b : Q) : bool := negb (Qle_bool b a).
Definition Qgt_bool (a b : Q) : bool := Qlt_bool b a.
Definition Qge_bool (a b : Q) : bool := Qle_bool b a.

(** ** Phaser.Geom *)

Inductive Geom : Type :=
| GTriangle (x1 y1 x2 y2 x3 y3 : Q)
| GRectangle (rx ry width height : Q)
| GPolygon (points : list (Q * Q)).

(** [Phaser.Geom.Triangle.Contains]: barycentric test.  Applied to a geometry
    that has no [x1 .. y3] fields every intermediate value is [NaN] and the
    final comparison is false. *)
Definition Triangle_Contains (geom : Geom) (x y : Q) : bool :=
  match geom with
  | GTriangle x1 y1 x2 y2 x3 y3 =>
      let v0x := x3 - x1 in let v0y := y3 - y1 in
      let v1x := x2 - x1 in let v1y := y2 - y1 in
      let v2x := x - x1 in let v2y := y - y1 in
      let dot00 := v0x * v0x + v0y * v0y in
      let dot01 := v0x * v1x + v0y * v1y in
      let dot02 := v0x * v2x + v0y * v2y in
      let dot11 := v1x * v1x + v1y * v1y in
      let dot12 := v1x * v2x + v1y * v2y in
      let b := dot00 * dot11 - dot01 * dot01 in
      let inv := if Qeq_bool b 0 then 0 else 1 / b in
      let u := (dot11 * dot02 - dot01 * dot12) * inv in
      let v := (dot00 * dot12 - dot01 * dot02) * inv in
      Qge_bool u 0 && Qge_bool v 0 && Qlt_bool (u + v) 1
  | _ => false
  end.

(** [Phaser.Geom.Rectangle.Contains]. *)
Definition Rectangle_Contains (geom : Geom) (x y : Q) : bool :=
  match geom with
  | GRectangle rx ry width height =>
      if Qle_bool width 0 || Qle_bool height 0 then false
      else Qle_bool rx x && Qge_bool (rx + width) x
           && Qle_bool ry y && Qge_bool (ry + height) y
  | _ => false
  end.

(** [Phaser.Geom.Polygon.Contains]: ray casting, the edge from the previous
    point [j] to the point [i], starting with the last point as [j]. *)
Fixpoint Polygon_Contains_loop (j : Q * Q) (pts : list (Q * Q)) (x y : Q)
    (inside : bool) : bool :=
  match pts with
  | [] => inside
  | i :: rest =>
      let '(ix, iy) := i in
      let '(jx, jy) := j in
      let crosses :=
        ((Qle_bool iy y && Qlt_bool y jy) || (Qle_bool jy y && Qlt_bool y iy))
        && Qlt_bool x ((jx - ix) * (y - iy) / (jy - iy) + ix) in
      Polygon_Contains_loop i rest x y (if crosses then negb inside else inside)
  end.

Definition Polygon_Contains (geom : Geom) (x y : Q) : bool :=
  match geom with
  | GPolygon pts => Polygon_Contains_loop (last pts (0, 0)) pts x y false
  | _ => false
  end.

(** ** The shapes *)

(** The class of a shape object. *)
Inductive ShapeClass : Type :=
| Triangle | StealthTriangle | ArmoredTriangle
| Square | Area
| Architecture
| ClearFriendlies | Intangible | SlowTime.

(** [shape instanceof C], along the [extends] chains
    [StealthTriangle, ArmoredTriangle < Triangle], [Area < Square],
    [ClearFriendlies, Intangible, SlowTime < Upgrade]. *)
Definition instanceof_Triangle (c : ShapeClass) : bool :=
  match c with Triangle | StealthTriangle | ArmoredTriangle => true | _ => false end.
Definition instanceof_StealthTriangle (c : ShapeClass) : bool :=
  match c with StealthTriangle => true | _ => false end.
Definition instanceof_ArmoredTriangle (c : ShapeClass) : bool :=
  match c with ArmoredTriangle => true | _ => false end.
Definition instanceof_Square (c : ShapeClass) : bool :=
  match c with Square | Area => true | _ => false end.
Definition instanceof_Area (c : ShapeClass) : bool :=
  match c with Area => true | _ => false end.
Definition instanceof_Architecture (c : ShapeClass) : bool :=
  match c with Architecture => true | _ => false end.
Definition instanceof_ClearFriendlies (c : ShapeClass) : bool :=
  match c with ClearFriendlies => true | _ => false end.
Definition instanceof_Intangible (c : ShapeClass) : bool :=
  match c with Intangible => true | _ => false end.
Definition instanceof_SlowTime (c : ShapeClass) : bool :=
  match c with SlowTime => true | _ => false end.

(** The armour sprite of an armoured triangle: never created, alive and
    showing a tier ([None] for the texture name built from [NaN]), or
    destroyed. *)
Inductive Sprite : Type :=
| SpriteNone
| SpriteLive (tier : option Z)
| SpriteDestroyed.

(** A [Shape] object.  [sh_ref] is its address; [sh_label] is the
    [shapeType] string its pointer handlers close over; [sh_geom] is
    [graphics.geom]; [sh_healthPoints] is [None] while the
    field is undefined or [NaN]. *)
Record Shape : Type := mkShape {
  sh_ref : nat;
  sh_cls : ShapeClass;
  sh_id : nat;
  sh_label : string;
  sh_x : Q;
  sh_y : Q;
  sh_velocityX : Q;
  sh_velocityY : Q;
  sh_angularVelocity : Q;
  sh_secondVelocityX : Q;
  sh_secondVelocityY : Q;
  sh_circularVelocityX : Q;
  sh_circularVelocityY : Q;
  sh_scaleFactor : Q;
  sh_rotation : Q;
  sh_geom : Geom;
  sh_movementTween : option nat;
  sh_growingTween : option nat;
  sh_velocityTween : option nat;
  sh_toBeRemoved : bool;
  sh_dying : bool;
  sh_healthPoints : option Z;
  sh_armored_sprite : Sprite
}.

Definition set_sh_x (v : Q) (s : Shape) : Shape :=
  mkShape (sh_ref s) (sh_cls s) (sh_id s) (sh_label s) v (sh_y s) (sh_velocityX s)
    (sh_velocityY s) (sh_angularVelocity s) (sh_secondVelocityX s) (sh_secondVelocityY
    s) (sh_circularVelocityX s) (sh_circularVelocityY s) (sh_scaleFactor s) (sh_rotation
    s) (sh_geom s) (sh_movementTween s) (sh_growingTween s) (sh_velocityTween s)
    (sh_toBeRemoved s) (sh_dying s) (sh_healthPoints s) (sh_armored_sprite s).
Definition set_sh_y (v : Q) (s : Shape) : Shape :=
  mkShape (sh_ref s) (sh_cls s) (sh_id s) (sh_label s) (sh_x s) v (sh_velocityX s)
    (sh_velocityY s) (sh_angularVelocity s) (sh_secondVelocityX s) (sh_secondVelocityY
    s) (sh_circularVelocityX s) (sh_circularVelocityY s) (sh_scaleFactor s) (sh_rotation
    s) (sh_geom s) (sh_movementTween s) (sh_growingTween s) (sh_velocityTween s)
    (sh_toBeRemoved s) (sh_dying s) (sh_healthPoints s) (sh_armored_sprite s).
Definition set_sh_velocityX (v : Q) (s : Shape) : Shape :=
  mkShape (sh_ref s) (sh_cls s) (sh_id s) (sh_label s) (sh_x s) (sh_y s) v (sh_velocityY
    s) (sh_angularVelocity s) (sh_secondVelocityX s) (sh_secondVelocityY s)
    (sh_circularVelocityX s) (sh_circularVelocityY s) (sh_scaleFactor s) (sh_rotation s)
    (sh_geom s) (sh_movementTween s) (sh_growingTween s) (sh_velocityTween s)
    (sh_toBeRemoved s) (sh_dying s) (sh_healthPoints s) (sh_armored_sprite s).
Definition set_sh_velocityY (v : Q) (s : Shape) : Shape :=
  mkShape (sh_ref s) (sh_cls s) (sh_id s) (sh_label s) (sh_x s) (sh_y s) (sh_velocityX
    s) v (sh_angularVelocity s) (sh_secondVelocityX s) (sh_secondVelocityY s)
    (sh_circularVelocityX s) (sh_circularVelocityY s) (sh_scaleFactor s) (sh_rotation s)
    (sh_geom s) (sh_movementTween s) (sh_growingTween s) (sh_velocityTween s)
    (sh_toBeRemoved s) (sh_dying s) (sh_healthPoints s) (sh_armored_sprite s).
Definition set_sh_secondVelocityX (v : Q) (s : Shape) : Shape :=
  mkShape (sh_ref s) (sh_cls s) (sh_id s) (sh_label s) (sh_x s) (sh_y s) (sh_velocityX
    s) (sh_velocityY s) (sh_angularVelocity s) v (sh_secondVelocityY s)
    (sh_circularVelocityX s) (sh_circularVelocityY s) (sh_scaleFactor s) (sh_rotation s)
    (sh_geom s) (sh_movementTween s) (sh_growingTween s) (sh_velocityTween s)
    (sh_toBeRemoved s) (sh_dying s) (sh_healthPoints s) (sh_armored_sprite s).
Definition set_sh_secondVelocityY (v : Q) (s : Shape) : Shape :=
  mkShape (sh_ref s) (sh_cls s) (sh_id s) (sh_label s) (sh_x s) (sh_y s) (sh_velocityX
    s) (sh_velocityY s) (sh_angularVelocity s) (sh_secondVelocityX s) v
    (sh_circularVelocityX s) (sh_circularVelocityY s) (sh_scaleFactor s) (sh_rotation s)
    (sh_geom s) (sh_movementTween s) (sh_growingTween s) (sh_velocityTween s)
    (sh_toBeRemoved s) (sh_dying s) (sh_healthPoints s) (sh_armored_sprite s).
Definition set_sh_circularVelocityX (v : Q) (s : Shape) : Shape :=
  mkShape (sh_ref s) (sh_cls s) (sh_id s) (sh_label s) (sh_x s) (sh_y s) (sh_velocityX
    s) (sh_velocityY s) (sh_angularVelocity s) (sh_secondVelocityX s)
    (sh_secondVelocityY s) v (sh_circularVelocityY s) (sh_scaleFactor s) (sh_rotation s)
    (sh_geom s) (sh_movementTween s) (sh_growingTween s) (sh_velocityTween s)
    (sh_toBeRemoved s) (sh_dying s) (sh_healthPoints s) (sh_armored_sprite s).
Definition set_sh_circularVelocityY (v : Q) (s : Shape) : Shape :=
  mkShape (sh_ref s) (sh_cls s) (sh_id s) (sh_label s) (sh_x s) (sh_y s) (sh_velocityX
    s) (sh_velocityY s) (sh_angularVelocity s) (sh_secondVelocityX s)
    (sh_secondVelocityY s) (sh_circularVelocityX s) v (sh_scaleFactor s) (sh_rotation s)
    (sh_geom s) (sh_movementTween s) (sh_growingTween s) (sh_velocityTween s)
    (sh_toBeRemoved s) (sh_dying s) (sh_healthPoints s) (sh_armored_sprite s).
Definition set_sh_scaleFactor (v : Q) (s : Shape) : Shape :=
  mkShape (sh_ref s) (sh_cls s) (sh_id s) (sh_label s) (sh_x s) (sh_y s) (sh_velocityX
    s) (sh_velocityY s) (sh_angularVelocity s) (sh_secondVelocityX s)
    (sh_secondVelocityY s) (sh_circularVelocityX s) (sh_circularVelocityY s) v
    (sh_rotation s) (sh_geom s) (sh_movementTween s) (sh_growingTween s)
    (sh_velocityTween s) (sh_toBeRemoved s) (sh_dying s) (sh_healthPoints s)
    (sh_armored_sprite s).
Definition set_sh_rotation (v : Q) (s : Shape) : Shape :=
  mkShape (sh_ref s) (sh_cls s) (sh_id s) (sh_label s) (sh_x s) (sh_y s) (sh_velocityX
    s) (sh_velocityY s) (sh_angularVelocity s) (sh_secondVelocityX s)
    (sh_secondVelocityY s) (sh_circularVelocityX s) (sh_circularVelocityY s)
    (sh_scaleFactor s) v (sh_geom s) (sh_movementTween s) (sh_growingTween s)
    (sh_velocityTween s) (sh_toBeRemoved s) (sh_dying s) (sh_healthPoints s)
    (sh_armored_sprite s).
Definition set_sh_movementTween (v : option nat) (s : Shape) : Shape :=
  mkShape (sh_ref s) (sh_cls s) (sh_id s) (sh_label s) (sh_x s) (sh_y s) (sh_velocityX
    s) (sh_velocityY s) (sh_angularVelocity s) (sh_secondVelocityX s)
    (sh_secondVelocityY s) (sh_circularVelocityX s) (sh_circularVelocityY s)
    (sh_scaleFactor s) (sh_rotation s) (sh_geom s) v (sh_growingTween s)
    (sh_velocityTween s) (sh_toBeRemoved s) (sh_dying s) (sh_healthPoints s)
    (sh_armored_sprite s).
Definition set_sh_growingTween (v : option nat) (s : Shape) : Shape :=
  mkShape (sh_ref s) (sh_cls s) (sh_id s) (sh_label s) (sh_x s) (sh_y s) (sh_velocityX
    s) (sh_velocityY s) (sh_angularVelocity s) (sh_secondVelocityX s)
    (sh_secondVelocityY s) (sh_circularVelocityX s) (sh_circularVelocityY s)
    (sh_scaleFactor s) (sh_rotation s) (sh_geom s) (sh_movementTween s) v
    (sh_velocityTween s) (sh_toBeRemoved s) (sh_dying s) (sh_healthPoints s)
    (sh_armored_sprite s).
Definition set_sh_velocityTween (v : option nat) (s : Shape) : Shape :=
  mkShape (sh_ref s) (sh_cls s) (sh_id s) (sh_label s) (sh_x s) (sh_y s) (sh_velocityX
    s) (sh_velocityY s) (sh_angularVelocity s) (sh_secondVelocityX s)
    (sh_secondVelocityY s) (sh_circularVelocityX s) (sh_circularVelocityY s)
    (sh_scaleFactor s) (sh_rotation s) (sh_geom s) (sh_movementTween s) (sh_growingTween
    s) v (sh_toBeRemoved s) (sh_dying s) (sh_healthPoints s) (sh_armored_sprite s).
Definition set_sh_toBeRemoved (v : bool) (s : Shape) : Shape :=
  mkShape (sh_ref s) (sh_cls s) (sh_id s) (sh_label s) (sh_x s) (sh_y s) (sh_velocityX
    s) (sh_velocityY s) (sh_angularVelocity s) (sh_secondVelocityX s)
    (sh_secondVelocityY s) (sh_circularVelocityX s) (sh_circularVelocityY s)
    (sh_scaleFactor s) (sh_rotation s) (sh_geom s) (sh_movementTween s) (sh_growingTween
    s) (sh_velocityTween s) v (sh_dying s) (sh_healthPoints s) (sh_armored_sprite s).
Definition set_sh_dying (v : bool) (s : Shape) : Shape :=
  mkShape (sh_ref s) (sh_cls s) (sh_id s) (sh_label s) (sh_x s) (sh_y s) (sh_velocityX
    s) (sh_velocityY s) (sh_angularVelocity s) (sh_secondVelocityX s)
    (sh_secondVelocityY s) (sh_circularVelocityX s) (sh_circularVelocityY s)
    (sh_scaleFactor s) (sh_rotation s) (sh_geom s) (sh_movementTween s) (sh_growingTween
    s) (sh_velocityTween s) (sh_toBeRemoved s) v (sh_healthPoints s) (sh_armored_sprite
    s).
Definition set_sh_healthPoints (v : option Z) (s : Shape) : Shape :=
  mkShape (sh_ref s) (sh_cls s) (sh_id s) (sh_label s) (sh_x s) (sh_y s) (sh_velocityX
    s) (sh_velocityY s) (sh_angularVelocity s) (sh_secondVelocityX s)
    (sh_secondVelocityY s) (sh_circularVelocityX s) (sh_circularVelocityY s)
    (sh_scaleFactor s) (sh_rotation s) (sh_geom s) (sh_movementTween s) (sh_growingTween
    s) (sh_velocityTween s) (sh_toBeRemoved s) (sh_dying s) v (sh_armored_sprite s).
Definition set_sh_armored_sprite (v : Sprite) (s : Shape) : Shape :=
  mkShape (sh_ref s) (sh_cls s) (sh_id s) (sh_label s) (sh_x s) (sh_y s) (sh_velocityX
    s) (sh_velocityY s) (sh_angularVelocity s) (sh_secondVelocityX s)
    (sh_secondVelocityY s) (sh_circularVelocityX s) (sh_circularVelocityY s)
    (sh_scaleFactor s) (sh_rotation s) (sh_geom s) (sh_movementTween s) (sh_growingTween
    s) (sh_velocityTween s) (sh_toBeRemoved s) (sh_dying s) (sh_healthPoints s) v.

(** [new Shape(scene, x, y, velocityX, velocityY, angularVelocity)] for an
    object allocated at [ref] with [Shape.staticId = id]. *)
Definition Shape_new (ref : nat) (cls : ShapeClass) (id : nat) (label : string)
    (x y velocityX velocityY angularVelocity : Q) (geom : Geom) : Shape :=
  mkShape ref cls id label x y velocityX velocityY angularVelocity
    0 0 0 0 1 0 geom None None None false false None SpriteNone.

(** [createGraphics] of the subclasses: the geometry attached to the
    graphics object. *)
Definition Triangle_geom : Geom := GTriangle (-25) (25 - 8) 25 (25 - 8) 0 (-25 - 8).
Definition Square_geom : Geom := GRectangle (-(50 / 2)) (-(50 / 2)) 50 50.

(** The pentagon of [Upgrade.createGraphics], [30 * (cos, sin)] of
    [72 i - 90] degrees, to four decimals. *)
Definition Upgrade_geom : Geom :=
  GPolygon [ (0, -30); (28.5317, -9.2705); (17.6336, 24.2705);
             (-17.6336, 24.2705); (-28.5317, -9.2705) ].

(** [Shape.update(time, delta)] with [D = scene.difficultyAdjustment] and
    [T = scene.slowtimeFactor]; [delta] is in milliseconds. *)
Definition Shape_update (D T delta : Q) (s : Shape) : Shape :=
  let deltaX :=
    ((sh_velocityX s * D + sh_secondVelocityX s + sh_circularVelocityX s) * delta * T) / 1000 in
  let deltaY :=
    ((sh_velocityY s * D + sh_secondVelocityY s + sh_circularVelocityY s) * delta * T) / 1000 in
  let deltaAngle := (sh_angularVelocity s * delta * T * D) / 1000 in
  set_sh_rotation (sh_rotation s + deltaAngle)
    (set_sh_y (sh_y s + deltaY) (set_sh_x (sh_x s + deltaX) s)).

(** ** Shape.update on binary64 numbers

    A JavaScript number is an IEEE 754 binary64 value and [+], [*] and [/]
    round to nearest, ties to even, as the primitive floats do.  The record
    holds the numeric fields of a shape that [Shape.update] reads and
    writes. *)
Record Kinematics : Type := mkKinematics {
  k_x : float;
  k_y : float;
  k_velocityX : float;
  k_velocityY : float;
  k_angularVelocity : float;
  k_secondVelocityX : float;
  k_secondVelocityY : float;
  k_circularVelocityX : float;
  k_circularVelocityY : float;
  k_rotation : float
}.

(** [Shape.update(time, delta)], operation by operation in the order of the
    source: [D = scene.difficultyAdjustment], [T = scene.slowtimeFactor]. *)
Definition Shape_update_binary64 (D T delta : float) (k : Kinematics) : Kinematics :=
  let deltaX :=
    ((k_velocityX k * D + k_secondVelocityX k + k_circularVelocityX k) * delta * T / 1000)%float in
  let deltaY :=
    ((k_velocityY k * D + k_secondVelocityY k + k_circularVelocityY k) * delta * T / 1000)%float in
  let deltaAngle := (k_angularVelocity k * delta * T * D / 1000)%float in
  mkKinematics (k_x k + deltaX)%float (k_y k + deltaY)%float
    (k_velocityX k) (k_velocityY k) (k_angularVelocity k)
    (k_secondVelocityX k) (k_secondVelocityY k)
    (k_circularVelocityX k) (k_circularVelocityY k)
    (k_rotation k + deltaAngle)%float.

(** The real number a finite binary64 value stands for. *)
Definition double_value (f : float) : option Q :=
  match Prim2SF f with
  | S754_zero _ => Some 0
  | S754_finite s m e => Some (inject_Z (if s then Z.neg m else Z.pos m) * Qpower 2 e)
  | _ => None
  end.

(** ** The schedule: tweens and timer events *)

(** What a tween animates and which callbacks it carries. *)
Inductive AlphaObject : Type := HealthBarBackground | HealthBarFill.

Inductive TweenKind : Type :=
| TwDeath (target : nat)
    (* performDeathAnimation: fade out, onComplete marks the shape *)
| TwGrowing (target : nat) (from endSize : Q)
    (* animateScale: graphics.scaleX, copied to scaleFactor *)
| TwVelocity (target : nat) (fromX toX fromY toY : Q)
    (* animateVelocities: velocityX, velocityY *)
| TwMovement (target : nat) (fromX toX fromY toY : Q)
    (* animateMovement: secondVelocityX, secondVelocityY *)
| TwHealthDying (from : Q)
    (* decreaseHealthBar: healthBarFill.scaleX towards 0 *)
| TwAlpha (obj : AlphaObject) (from to : Q) (refillOnComplete : bool)
    (* showHealthBar, hideHealthBar *)
| TwBlackout
    (* animateBlackout: alpha of the black rectangle *)
| TwIntangibleEffect.
    (* the two fades of the intangible circle *)

Record Tween : Type := mkTween {
  tw_handle : nat;
  tw_kind : TweenKind;
  tw_duration : Q;
  tw_delay : Q;
  tw_timeScale : Q;
  tw_repeat : Q;
  tw_yoyo : bool
}.

Definition set_tw_timeScale (v : Q) (t : Tween) : Tween :=
  mkTween (tw_handle t) (tw_kind t) (tw_duration t) (tw_delay t) v (tw_repeat t) (tw_yoyo t).

(** The closures handed to [scene.time.delayedCall] and [scene.time.addEvent].
    [CbCircularTick] carries the closure variable [elapsed]; the angular
    velocity it uses is a function of [speed] and of the difficulty at the
    time of the call of [animateCircularMovement], both kept here. *)
Inductive Callback : Type :=
| CbGrow (target : nat) (growSpeed endSize : Q)
| CbVelocity (target : nat) (newVelocityX newVelocityY durationOfChange : Q)
| CbMovement (target : nat)
    (durationOfMovement repeatInterval movementSpeedX movementSpeedY : Q)
| CbCircularStart (target : nat) (speed D0 duration radius startAngel : Q)
| CbCircularTick (target : nat) (speed D0 duration radius startAngel elapsed : Q)
| CbFade (durationOfFade repeat : Q)
| CbFinishIntangible
| CbFinishSlowtime
| CbNextAction (cleared : bool).

Record TimerEvent : Type := mkTimerEvent {
  ev_handle : nat;
  ev_delay : Q;
  ev_loop : bool;
  ev_callback : Callback
}.

(** ** HealthBar, Level and GameScene state *)

Record HealthBar : Type := mkHealthBar {
  hb_dying : bool;
  hb_dyingTween : option nat;
  hb_fillScaleX : Q;
  hb_fillX : Q;
  hb_fillAlpha : Q;
  hb_backgroundAlpha : Q
}.

Definition set_hb_dying (v : bool) (h : HealthBar) : HealthBar :=
  mkHealthBar v (hb_dyingTween h) (hb_fillScaleX h) (hb_fillX h) (hb_fillAlpha h)
    (hb_backgroundAlpha h).
Definition set_hb_dyingTween (v : option nat) (h : HealthBar) : HealthBar :=
  mkHealthBar (hb_dying h) v (hb_fillScaleX h) (hb_fillX h) (hb_fillAlpha h)
    (hb_backgroundAlpha h).
Definition set_hb_fillScaleX (v : Q) (h : HealthBar) : HealthBar :=
  mkHealthBar (hb_dying h) (hb_dyingTween h) v (hb_fillX h) (hb_fillAlpha h)
    (hb_backgroundAlpha h).
Definition set_hb_fillX (v : Q) (h : HealthBar) : HealthBar :=
  mkHealthBar (hb_dying h) (hb_dyingTween h) (hb_fillScaleX h) v (hb_fillAlpha h)
    (hb_backgroundAlpha h).
Definition set_hb_fillAlpha (v : Q) (h : HealthBar) : HealthBar :=
  mkHealthBar (hb_dying h) (hb_dyingTween h) (hb_fillScaleX h) (hb_fillX h) v
    (hb_backgroundAlpha h).
Definition set_hb_backgroundAlpha (v : Q) (h : HealthBar) : HealthBar :=
  mkHealthBar (hb_dying h) (hb_dyingTween h) (hb_fillScaleX h) (hb_fillX h)
    (hb_fillAlpha h) v.

Record Level : Type := mkLevel {
  shapes : list Shape;
  levelPassableScore : Q;
  squaresSpared : bool;
  architectureSpared : bool;
  trianglesSpared : bool;
  showAreaHP : bool;
  intangibleActive : bool;
  intangible : bool;
  slowtimeActive : bool;
  slowtime : bool;
  messageText : option string
}.

Definition set_shapes (v : list Shape) (l : Level) : Level :=
  mkLevel v (levelPassableScore l) (squaresSpared l) (architectureSpared l)
    (trianglesSpared l) (showAreaHP l) (intangibleActive l) (intangible l)
    (slowtimeActive l) (slowtime l) (messageText l).
Definition set_levelPassableScore (v : Q) (l : Level) : Level :=
  mkLevel (shapes l) v (squaresSpared l) (architectureSpared l) (trianglesSpared l)
    (showAreaHP l) (intangibleActive l) (intangible l) (slowtimeActive l) (slowtime l)
    (messageText l).
Definition set_squaresSpared (v : bool) (l : Level) : Level :=
  mkLevel (shapes l) (levelPassableScore l) v (architectureSpared l) (trianglesSpared l)
    (showAreaHP l) (intangibleActive l) (intangible l) (slowtimeActive l) (slowtime l)
    (messageText l).
Definition set_architectureSpared (v : bool) (l : Level) : Level :=
  mkLevel (shapes l) (levelPassableScore l) (squaresSpared l) v (trianglesSpared l)
    (showAreaHP l) (intangibleActive l) (intangible l) (slowtimeActive l) (slowtime l)
    (messageText l).
Definition set_trianglesSpared (v : bool) (l : Level) : Level :=
  mkLevel (shapes l) (levelPassableScore l) (squaresSpared l) (architectureSpared l) v
    (showAreaHP l) (intangibleActive l) (intangible l) (slowtimeActive l) (slowtime l)
    (messageText l).
Definition set_showAreaHP (v : bool) (l : Level) : Level :=
  mkLevel (shapes l) (levelPassableScore l) (squaresSpared l) (architectureSpared l)
    (trianglesSpared l) v (intangibleActive l) (intangible l) (slowtimeActive l)
    (slowtime l) (messageText l).
Definition set_intangibleActive (v : bool) (l : Level) : Level :=
  mkLevel (shapes l) (levelPassableScore l) (squaresSpared l) (architectureSpared l)
    (trianglesSpared l) (showAreaHP l) v (intangible l) (slowtimeActive l) (slowtime l)
    (messageText l).
Definition set_intangible (v : bool) (l : Level) : Level :=
  mkLevel (shapes l) (levelPassableScore l) (squaresSpared l) (architectureSpared l)
    (trianglesSpared l) (showAreaHP l) (intangibleActive l) v (slowtimeActive l)
    (slowtime l) (messageText l).
Definition set_slowtimeActive (v : bool) (l : Level) : Level :=
  mkLevel (shapes l) (levelPassableScore l) (squaresSpared l) (architectureSpared l)
    (trianglesSpared l) (showAreaHP l) (intangibleActive l) (intangible l) v (slowtime
    l) (messageText l).
Definition set_slowtime (v : bool) (l : Level) : Level :=
  mkLevel (shapes l) (levelPassableScore l) (squaresSpared l) (architectureSpared l)
    (trianglesSpared l) (showAreaHP l) (intangibleActive l) (intangible l)
    (slowtimeActive l) v (messageText l).
Definition set_messageText (v : option string) (l : Level) : Level :=
  mkLevel (shapes l) (levelPassableScore l) (squaresSpared l) (architectureSpared l)
    (trianglesSpared l) (showAreaHP l) (intangibleActive l) (intangible l)
    (slowtimeActive l) (slowtime l) v.

(** The scene.  [levels] stands for the table imported from [levels.js];
    [achievements] lists the unlocked ones; [sounds] is the log of
    [sound.play] calls; [pointer] is [input.activePointer];
    [events], [pendingInsertion] and [pendingRemoval] are the clock
    [scene.time] (see [time_addEvent]);
    [nextHandle] and [nextRef] allocate tween or event handles and shape
    addresses; [staticId] is [Shape.staticId]. *)
Record Game : Type := mkGame {
  score : Z;
  level : Level;
  healthBar : HealthBar;
  levels : list (list (list JSValue));
  currentLevelIndex : nat;
  difficultyAdjustment : Q;
  slowtimeFactor : Q;
  clockTimeScale : Q;
  intangibleEffectTweenIn : option nat;
  intangibleEffectTweenOut : option nat;
  fadeTween : option nat;
  slowtimeTimerEvent : option nat;
  intangibleTimerEvent : option nat;
  achievements : list string;
  tweens : list Tween;
  events : list TimerEvent;
  pendingInsertion : list nat;
  pendingRemoval : list nat;
  sounds : list string;
  pointer : Q * Q;
  nextHandle : nat;
  nextRef : nat;
  staticId : nat
}.

Definition set_score (v : Z) (g : Game) : Game :=
  mkGame v (level g) (healthBar g) (levels g) (currentLevelIndex g)
    (difficultyAdjustment g) (slowtimeFactor g) (clockTimeScale g)
    (intangibleEffectTweenIn g) (intangibleEffectTweenOut g) (fadeTween g)
    (slowtimeTimerEvent g) (intangibleTimerEvent g) (achievements g) (tweens g) (events
    g) (pendingInsertion g) (pendingRemoval g) (sounds g) (pointer g) (nextHandle g)
    (nextRef g) (staticId g).
Definition set_level (v : Level) (g : Game) : Game :=
  mkGame (score g) v (healthBar g) (levels g) (currentLevelIndex g)
    (difficultyAdjustment g) (slowtimeFactor g) (clockTimeScale g)
    (intangibleEffectTweenIn g) (intangibleEffectTweenOut g) (fadeTween g)
    (slowtimeTimerEvent g) (intangibleTimerEvent g) (achievements g) (tweens g) (events
    g) (pendingInsertion g) (pendingRemoval g) (sounds g) (pointer g) (nextHandle g)
    (nextRef g) (staticId g).
Definition set_healthBar (v : HealthBar) (g : Game) : Game :=
  mkGame (score g) (level g) v (levels g) (currentLevelIndex g) (difficultyAdjustment g)
    (slowtimeFactor g) (clockTimeScale g) (intangibleEffectTweenIn g)
    (intangibleEffectTweenOut g) (fadeTween g) (slowtimeTimerEvent g)
    (intangibleTimerEvent g) (achievements g) (tweens g) (events g) (pendingInsertion g)
    (pendingRemoval g) (sounds g) (pointer g) (nextHandle g) (nextRef g) (staticId g).
Definition set_currentLevelIndex (v : nat) (g : Game) : Game :=
  mkGame (score g) (level g) (healthBar g) (levels g) v (difficultyAdjustment g)
    (slowtimeFactor g) (clockTimeScale g) (intangibleEffectTweenIn g)
    (intangibleEffectTweenOut g) (fadeTween g) (slowtimeTimerEvent g)
    (intangibleTimerEvent g) (achievements g) (tweens g) (events g) (pendingInsertion g)
    (pendingRemoval g) (sounds g) (pointer g) (nextHandle g) (nextRef g) (staticId g).
Definition set_difficultyAdjustment (v : Q) (g : Game) : Game :=
  mkGame (score g) (level g) (healthBar g) (levels g) (currentLevelIndex g) v
    (slowtimeFactor g) (clockTimeScale g) (intangibleEffectTweenIn g)
    (intangibleEffectTweenOut g) (fadeTween g) (slowtimeTimerEvent g)
    (intangibleTimerEvent g) (achievements g) (tweens g) (events g) (pendingInsertion g)
    (pendingRemoval g) (sounds g) (pointer g) (nextHandle g) (nextRef g) (staticId g).
Definition set_slowtimeFactor (v : Q) (g : Game) : Game :=
  mkGame (score g) (level g) (healthBar g) (levels g) (currentLevelIndex g)
    (difficultyAdjustment g) v (clockTimeScale g) (intangibleEffectTweenIn g)
    (intangibleEffectTweenOut g) (fadeTween g) (slowtimeTimerEvent g)
    (intangibleTimerEvent g) (achievements g) (tweens g) (events g) (pendingInsertion g)
    (pendingRemoval g) (sounds g) (pointer g) (nextHandle g) (nextRef g) (staticId g).
Definition set_clockTimeScale (v : Q) (g : Game) : Game :=
  mkGame (score g) (level g) (healthBar g) (levels g) (currentLevelIndex g)
    (difficultyAdjustment g) (slowtimeFactor g) v (intangibleEffectTweenIn g)
    (intangibleEffectTweenOut g) (fadeTween g) (slowtimeTimerEvent g)
    (intangibleTimerEvent g) (achievements g) (tweens g) (events g) (pendingInsertion g)
    (pendingRemoval g) (sounds g) (pointer g) (nextHandle g) (nextRef g) (staticId g).
Definition set_intangibleEffectTweenIn (v : option nat) (g : Game) : Game :=
  mkGame (score g) (level g) (healthBar g) (levels g) (currentLevelIndex g)
    (difficultyAdjustment g) (slowtimeFactor g) (clockTimeScale g) v
    (intangibleEffectTweenOut g) (fadeTween g) (slowtimeTimerEvent g)
    (intangibleTimerEvent g) (achievements g) (tweens g) (events g) (pendingInsertion g)
    (pendingRemoval g) (sounds g) (pointer g) (nextHandle g) (nextRef g) (staticId g).
Definition set_intangibleEffectTweenOut (v : option nat) (g : Game) : Game :=
  mkGame (score g) (level g) (healthBar g) (levels g) (currentLevelIndex g)
    (difficultyAdjustment g) (slowtimeFactor g) (clockTimeScale g)
    (intangibleEffectTweenIn g) v (fadeTween g) (slowtimeTimerEvent g)
    (intangibleTimerEvent g) (achievements g) (tweens g) (events g) (pendingInsertion g)
    (pendingRemoval g) (sounds g) (pointer g) (nextHandle g) (nextRef g) (staticId g).
Definition set_fadeTween (v : option nat) (g : Game) : Game :=
  mkGame (score g) (level g) (healthBar g) (levels g) (currentLevelIndex g)
    (difficultyAdjustment g) (slowtimeFactor g) (clockTimeScale g)
    (intangibleEffectTweenIn g) (intangibleEffectTweenOut g) v (slowtimeTimerEvent g)
    (intangibleTimerEvent g) (achievements g) (tweens g) (events g) (pendingInsertion g)
    (pendingRemoval g) (sounds g) (pointer g) (nextHandle g) (nextRef g) (staticId g).
Definition set_slowtimeTimerEvent (v : option nat) (g : Game) : Game :=
  mkGame (score g) (level g) (healthBar g) (levels g) (currentLevelIndex g)
    (difficultyAdjustment g) (slowtimeFactor g) (clockTimeScale g)
    (intangibleEffectTweenIn g) (intangibleEffectTweenOut g) (fadeTween g) v
    (intangibleTimerEvent g) (achievements g) (tweens g) (events g) (pendingInsertion g)
    (pendingRemoval g) (sounds g) (pointer g) (nextHandle g) (nextRef g) (staticId g).
Definition set_intangibleTimerEvent (v : option nat) (g : Game) : Game :=
  mkGame (score g) (level g) (healthBar g) (levels g) (currentLevelIndex g)
    (difficultyAdjustment g) (slowtimeFactor g) (clockTimeScale g)
    (intangibleEffectTweenIn g) (intangibleEffectTweenOut g) (fadeTween g)
    (slowtimeTimerEvent g) v (achievements g) (tweens g) (events g) (pendingInsertion g)
    (pendingRemoval g) (sounds g) (pointer g) (nextHandle g) (nextRef g) (staticId g).
Definition set_achievements (v : list string) (g : Game) : Game :=
  mkGame (score g) (level g) (healthBar g) (levels g) (currentLevelIndex g)
    (difficultyAdjustment g) (slowtimeFactor g) (clockTimeScale g)
    (intangibleEffectTweenIn g) (intangibleEffectTweenOut g) (fadeTween g)
    (slowtimeTimerEvent g) (intangibleTimerEvent g) v (tweens g) (events g)
    (pendingInsertion g) (pendingRemoval g) (sounds g) (pointer g) (nextHandle g)
    (nextRef g) (staticId g).
Definition set_tweens (v : list Tween) (g : Game) : Game :=
  mkGame (score g) (level g) (healthBar g) (levels g) (currentLevelIndex g)
    (difficultyAdjustment g) (slowtimeFactor g) (clockTimeScale g)
    (intangibleEffectTweenIn g) (intangibleEffectTweenOut g) (fadeTween g)
    (slowtimeTimerEvent g) (intangibleTimerEvent g) (achievements g) v (events g)
    (pendingInsertion g) (pendingRemoval g) (sounds g) (pointer g) (nextHandle g)
    (nextRef g) (staticId g).
Definition set_events (v : list TimerEvent) (g : Game) : Game :=
  mkGame (score g) (level g) (healthBar g) (levels g) (currentLevelIndex g)
    (difficultyAdjustment g) (slowtimeFactor g) (clockTimeScale g)
    (intangibleEffectTweenIn g) (intangibleEffectTweenOut g) (fadeTween g)
    (slowtimeTimerEvent g) (intangibleTimerEvent g) (achievements g) (tweens g) v
    (pendingInsertion g) (pendingRemoval g) (sounds g) (pointer g) (nextHandle g)
    (nextRef g) (staticId g).
Definition set_pendingInsertion (v : list nat) (g : Game) : Game :=
  mkGame (score g) (level g) (healthBar g) (levels g) (currentLevelIndex g)
    (difficultyAdjustment g) (slowtimeFactor g) (clockTimeScale g)
    (intangibleEffectTweenIn g) (intangibleEffectTweenOut g) (fadeTween g)
    (slowtimeTimerEvent g) (intangibleTimerEvent g) (achievements g) (tweens g) (events
    g) v (pendingRemoval g) (sounds g) (pointer g) (nextHandle g) (nextRef g) (staticId
    g).
Definition set_pendingRemoval (v : list nat) (g : Game) : Game :=
  mkGame (score g) (level g) (healthBar g) (levels g) (currentLevelIndex g)
    (difficultyAdjustment g) (slowtimeFactor g) (clockTimeScale g)
    (intangibleEffectTweenIn g) (intangibleEffectTweenOut g) (fadeTween g)
    (slowtimeTimerEvent g) (intangibleTimerEvent g) (achievements g) (tweens g) (events
    g) (pendingInsertion g) v (sounds g) (pointer g) (nextHandle g) (nextRef g)
    (staticId g).
Definition set_sounds (v : list string) (g : Game) : Game :=
  mkGame (score g) (level g) (healthBar g) (levels g) (currentLevelIndex g)
    (difficultyAdjustment g) (slowtimeFactor g) (clockTimeScale g)
    (intangibleEffectTweenIn g) (intangibleEffectTweenOut g) (fadeTween g)
    (slowtimeTimerEvent g) (intangibleTimerEvent g) (achievements g) (tweens g) (events
    g) (pendingInsertion g) (pendingRemoval g) v (pointer g) (nextHandle g) (nextRef g)
    (staticId g).
Definition set_pointer (v : Q * Q) (g : Game) : Game :=
  mkGame (score g) (level g) (healthBar g) (levels g) (currentLevelIndex g)
    (difficultyAdjustment g) (slowtimeFactor g) (clockTimeScale g)
    (intangibleEffectTweenIn g) (intangibleEffectTweenOut g) (fadeTween g)
    (slowtimeTimerEvent g) (intangibleTimerEvent g) (achievements g) (tweens g) (events
    g) (pendingInsertion g) (pendingRemoval g) (sounds g) v (nextHandle g) (nextRef g)
    (staticId g).
Definition set_nextHandle (v : nat) (g : Game) : Game :=
  mkGame (score g) (level g) (healthBar g) (levels g) (currentLevelIndex g)
    (difficultyAdjustment g) (slowtimeFactor g) (clockTimeScale g)
    (intangibleEffectTweenIn g) (intangibleEffectTweenOut g) (fadeTween g)
    (slowtimeTimerEvent g) (intangibleTimerEvent g) (achievements g) (tweens g) (events
    g) (pendingInsertion g) (pendingRemoval g) (sounds g) (pointer g) v (nextRef g)
    (staticId g).
Definition set_nextRef (v : nat) (g : Game) : Game :=
  mkGame (score g) (level g) (healthBar g) (levels g) (currentLevelIndex g)
    (difficultyAdjustment g) (slowtimeFactor g) (clockTimeScale g)
    (intangibleEffectTweenIn g) (intangibleEffectTweenOut g) (fadeTween g)
    (slowtimeTimerEvent g) (intangibleTimerEvent g) (achievements g) (tweens g) (events
    g) (pendingInsertion g) (pendingRemoval g) (sounds g) (pointer g) (nextHandle g) v
    (staticId g).
Definition set_staticId (v : nat) (g : Game) : Game :=
  mkGame (score g) (level g) (healthBar g) (levels g) (currentLevelIndex g)
    (difficultyAdjustment g) (slowtimeFactor g) (clockTimeScale g)
    (intangibleEffectTweenIn g) (intangibleEffectTweenOut g) (fadeTween g)
    (slowtimeTimerEvent g) (intangibleTimerEvent g) (achievements g) (tweens g) (events
    g) (pendingInsertion g) (pendingRemoval g) (sounds g) (pointer g) (nextHandle g)
    (nextRef g) v.

Definition config_height : Q := 600.

Definition updLevel (f : Level -> Level) (g : Game) : Game := set_level (f (level g)) g.
Definition updHealthBar (f : HealthBar -> HealthBar) (g : Game) : Game :=
  set_healthBar (f (healthBar g)) g.

(** Access to a shape object through its address. *)
Definition hasRef (r : nat) (s : Shape) : bool := Nat.eqb (sh_ref s) r.
Definition findShape (r : nat) (g : Game) : option Shape :=
  find (hasRef r) (shapes (level g)).
Definition modShapes (r : nat) (f : Shape -> Shape) (l : list Shape) : list Shape :=
  map (fun s => if hasRef r s then f s else s) l.
Definition updShape (r : nat) (f : Shape -> Shape) (g : Game) : Game :=
  updLevel (fun l => set_shapes (modShapes r f (shapes l)) l) g.

(** [this.shapes.forEach(shape => body)]: the array keeps its length during
    the loops of the code, the body sees the current state of each object. *)
Definition forEachShape (body : nat -> Game -> Game) (g : Game) : Game :=
  fold_left (fun acc r => body r acc) (map sh_ref (shapes (level g))) g.

(** [scene.tweens.add], [tween.stop()]. *)
Definition tweens_add (kind : TweenKind) (duration delay repeat : Q) (yoyo : bool)
    (g : Game) : nat * Game :=
  let h := nextHandle g in
  (h, set_nextHandle (S h)
        (set_tweens (tweens g ++ [mkTween h kind duration delay 1 repeat yoyo]) g)).

Definition tween_stop (h : nat) (g : Game) : Game :=
  set_tweens (filter (fun t => negb (Nat.eqb (tw_handle t) h)) (tweens g)) g.

Definition findTween (h : nat) (g : Game) : option Tween :=
  find (fun t => Nat.eqb (tw_handle t) h) (tweens g).

(** The clock [scene.time] keeps three arrays: the active events, the
    events added since its last step ([_pendingInsertion]) and the events
    to drop at its next step ([_pendingRemoval]).  [events] holds the
    active events followed by the added ones; [pendingInsertion] and
    [pendingRemoval] hold the handles of the events in the other two
    arrays.

    [scene.time.addEvent] and [scene.time.delayedCall] push the new event
    on [_pendingInsertion]. *)
Definition time_addEvent (delay : Q) (loop : bool) (cb : Callback) (g : Game) : nat * Game :=
  let h := nextHandle g in
  (h, set_nextHandle (S h)
        (set_pendingInsertion (pendingInsertion g ++ [h])
           (set_events (events g ++ [mkTimerEvent h delay loop cb]) g))).

Definition time_delayedCall (delay : Q) (cb : Callback) (g : Game) : nat * Game :=
  time_addEvent delay false cb g.

(** [event.remove()]: the event is marked as dispatched and expired; it
    runs no callback any more and leaves the clock. *)
Definition event_remove (h : nat) (g : Game) : Game :=
  set_events (filter (fun e => negb (Nat.eqb (ev_handle e) h)) (events g)) g.

(** The events of [_active]: those not added since the last step. *)
Definition isPendingInsertion (g : Game) (e : TimerEvent) : bool :=
  existsb (Nat.eqb (ev_handle e)) (pendingInsertion g).

Definition activeEvents (g : Game) : list TimerEvent :=
  filter (fun e => negb (isPendingInsertion g e)) (events g).

(** [scene.time.removeAllEvents()]:
    [_pendingRemoval = _pendingRemoval.concat(_active)].  The events added
    since the last step of the clock are not in [_active]. *)
Definition time_removeAllEvents (g : Game) : Game :=
  set_pendingRemoval (pendingRemoval g ++ map ev_handle (activeEvents g)) g.

(** [Clock.preUpdate()], the first part of a step of the clock: the events
    of [_pendingRemoval] leave, the events of [_pendingInsertion] become
    active. *)
Definition Clock_preUpdate (g : Game) : Game :=
  set_pendingRemoval []
    (set_pendingInsertion []
       (set_events
          (filter (fun e => negb (existsb (Nat.eqb (ev_handle e)) (pendingRemoval g)))
             (events g)) g)).

Definition findEvent (h : nat) (g : Game) : option TimerEvent :=
  find (fun e => Nat.eqb (ev_handle e) h) (events g).

(** [scene.sound.play(name)]. *)
Definition sound_play (name : string) (g : Game) : Game :=
  set_sounds (sounds g ++ [name]) g.

(** ** Shape: death animation *)

(** [Shape.performDeathAnimation()] on the object at [r]. *)
Definition Shape_performDeathAnimation (r : nat) (g : Game) : Game :=
  match findShape r g with
  | None => g
  | Some s =>
      if sh_dying s then g
      else
        let g1 := if Qle_bool (sh_y s) (config_height + 50) then sound_play "pop" g else g in
        let g2 := updShape r (set_sh_dying true) g1 in
        snd (tweens_add (TwDeath r) 250 0 0 false g2)
  end.

(** ** HealthBar *)

(** [HealthBar.refillAndPauseHealthBar()]. *)
Definition HealthBar_refillAndPauseHealthBar (g : Game) : Game :=
  let g1 := updHealthBar (set_hb_dying false) g in
  let g2 := match hb_dyingTween (healthBar g1) with
            | Some h => updHealthBar (set_hb_dyingTween None) (tween_stop h g1)
            | None => g1
            end in
  updHealthBar (fun hb => set_hb_fillX 0 (set_hb_fillScaleX 1 hb)) g2.

(** [HealthBar.decreaseHealthBar()]: the depletion tween runs for 4000 ms;
    its [onComplete] is in [tweenComplete]. *)
Definition HealthBar_decreaseHealthBar (g : Game) : Game :=
  let g1 := updHealthBar (set_hb_dying true) g in
  let g2 := match hb_dyingTween (healthBar g1) with
            | Some h => updHealthBar (set_hb_dyingTween None) (tween_stop h g1)
            | None => g1
            end in
  let '(h, g3) := tweens_add (TwHealthDying (hb_fillScaleX (healthBar g2))) 4000 0 0 false g2 in
  updHealthBar (set_hb_dyingTween (Some h)) g3.

(** [HealthBar.hideHealthBar()].  Its guard compares the boolean
    [!alpha] with the number 0 by [===], which is false for every alpha, so
    the body always runs. *)
Definition HealthBar_hideHealthBar (g : Game) : Game :=
  let g1 := snd (tweens_add
                   (TwAlpha HealthBarBackground (hb_backgroundAlpha (healthBar g)) 0 false)
                   500 0 0 false g) in
  let g2 := snd (tweens_add
                   (TwAlpha HealthBarFill (hb_fillAlpha (healthBar g1)) 0 true)
                   500 0 0 false g1) in
  HealthBar_refillAndPauseHealthBar g2.

(** [HealthBar.hideHealthBarInstant()]. *)
Definition HealthBar_hideHealthBarInstant (g : Game) : Game :=
  updHealthBar (fun hb => set_hb_backgroundAlpha 0 (set_hb_fillAlpha 0 hb))
    (HealthBar_refillAndPauseHealthBar g).

(** [HealthBar.showHealthBar()]. *)
Definition HealthBar_showHealthBar (g : Game) : Game :=
  if Qeq_bool (hb_backgroundAlpha (healthBar g)) 1 then g
  else
    let g1 := HealthBar_decreaseHealthBar g in
    let g2 := snd (tweens_add
                     (TwAlpha HealthBarBackground (hb_backgroundAlpha (healthBar g1)) 1 false)
                     500 0 0 false g1) in
    snd (tweens_add (TwAlpha HealthBarFill (hb_fillAlpha (healthBar g2)) 1 false)
           500 0 0 false g2).

(** ** ArmoredTriangle *)

(** [ArmoredTriangle.generateSprite(healthPoints)]. *)
Definition ArmoredTriangle_generateSprite (healthPoints : option Z) (s : Shape) : Shape :=
  set_sh_armored_sprite (SpriteLive healthPoints) (set_sh_healthPoints healthPoints s).

(** [level.removeShape(shape)]. *)
Definition Level_removeShape (r : nat) (g : Game) : Game :=
  Shape_performDeathAnimation r g.

(** [ArmoredTriangle.takeDamage()], the [pointerdown] handler of the shapes
    whose label starts with [armored_]. *)
Definition ArmoredTriangle_takeDamage (r : nat) (g : Game) : Game :=
  match findShape r g with
  | None => g
  | Some s =>
      let hp := option_map (fun h => (h - 1)%Z) (sh_healthPoints s) in
      let g1 := updShape r (fun s => set_sh_armored_sprite SpriteDestroyed
                                       (set_sh_healthPoints hp s)) g in
      match hp with
      | Some h =>
          if (h =? 0)%Z then
            forEachShape (fun r' acc => if Nat.eqb r r' then Level_removeShape r' acc else acc)
              (set_score (score g1 + 1)%Z g1)
          else if (0 <? h)%Z then updShape r (ArmoredTriangle_generateSprite (Some h)) g1
          else g1
      | None => g1
      end
  end.

(** ** Level: interactions *)

(** [Level.clearShapesNoSound()]. *)
Definition Level_clearShapesNoSound (g : Game) : Game :=
  forEachShape
    (fun r acc =>
       let acc1 := updShape r (set_sh_y (config_height + 100)) acc in
       match findShape r acc1 with
       | Some s => if sh_toBeRemoved s then acc1 else Level_removeShape r acc1
       | None => acc1
       end) g.

(** The loop of the [clear-friendlies] branch; [r] is the upgrade. *)
Definition clearFriendlies_body (r : nat) (r' : nat) (acc : Game) : Game :=
  match findShape r acc, findShape r' acc with
  | Some shape, Some shapeNew =>
      if (instanceof_Architecture (sh_cls shapeNew) || instanceof_Square (sh_cls shapeNew))
         && negb (instanceof_Area (sh_cls shapeNew))
      then
        if Qgt_bool (sh_y shapeNew) (-300 * sh_scaleFactor shape * sh_scaleFactor shape)
        then Level_removeShape r' (updShape r' (set_sh_y (config_height + 100)) acc)
        else acc
      else acc
  | _, _ => acc
  end.

(** [Level.handleShapeInteraction(shape, shapeType)]. *)
Definition Level_handleShapeInteraction (r : nat) (shapeType : string) (g : Game) : Game :=
  match findShape r g with
  | None => g
  | Some _ =>
      if String.eqb shapeType "area" then HealthBar_refillAndPauseHealthBar g
      else if intangible (level g) then g
      else
        let collected : option Game :=
          if String.eqb shapeType "clear-friendlies" then
            Some (forEachShape (clearFriendlies_body r) g)
          else if String.eqb shapeType "intangible" then
            Some (updLevel (set_intangibleActive true) g)
          else if String.eqb shapeType "slowtime" then
            Some (updLevel (set_slowtimeActive true) g)
          else if String.prefix "armored_" shapeType then None
          else Some g in
        match collected with
        | None => g
        | Some g1 =>
            match findShape r g1 with
            | None => g1
            | Some shape =>
                if sh_dying shape then g1
                else
                  let g2 := Level_removeShape r g1 in
                  let g3 := if String.eqb shapeType "triangle" || String.eqb shapeType "stealth"
                            then set_score (score g2 + 1)%Z g2 else g2 in
                  if String.eqb shapeType "architecture" || String.eqb shapeType "square"
                  then set_score (score g3 - 1)%Z g3 else g3
            end
        end
  end.

(** The [instanceof] chain of [checkAllShapes]: the containment test it
    applies to a shape and the [shapeType] it passes on. *)
Definition checkAllShapes_classify (s : Shape) (x y : Q) : bool * string :=
  let c := sh_cls s in
  if instanceof_Triangle c then (Triangle_Contains (sh_geom s) x y, "triangle"%string)
  else if instanceof_Area c then (Rectangle_Contains (sh_geom s) x y, "area"%string)
  else if instanceof_Square c then (Triangle_Contains (sh_geom s) x y, "square"%string)
  else if instanceof_Architecture c then
    (Polygon_Contains (sh_geom s) x y, "architecture"%string)
  else if instanceof_ClearFriendlies c then
    (Polygon_Contains (sh_geom s) x y, "clear-friendlies"%string)
  else if instanceof_Intangible c then (Polygon_Contains (sh_geom s) x y, "intangible"%string)
  else if instanceof_SlowTime c then (Polygon_Contains (sh_geom s) x y, "slowtime"%string)
  else (false, ""%string).

Definition checkAllShapes_body (r : nat) (acc : Game) : Game :=
  match findShape r acc with
  | None => acc
  | Some s =>
      let x := fst (pointer acc) - sh_x s in
      let y := snd (pointer acc) - sh_y s in
      let '(containsPointer, shapeType) := checkAllShapes_classify s x y in
      if containsPointer then Level_handleShapeInteraction r shapeType acc else acc
  end.

(** [Level.checkAllShapes()]. *)
Definition Level_checkAllShapes (g : Game) : Game := forEachShape checkAllShapes_body g.

(** ** GameScene: power-ups *)

Definition setTweenTimeScale (h : option nat) (v : Q) (g : Game) : Game :=
  match h with
  | Some h =>
      set_tweens (map (fun t => if Nat.eqb (tw_handle t) h then set_tw_timeScale v t else t)
                    (tweens g)) g
  | None => g
  end.

(** [GameScene.adjustActiveTweens()]. *)
Definition GameScene_adjustActiveTweens (g : Game) : Game :=
  let f := slowtimeFactor g in
  let g1 :=
    forEachShape
      (fun r acc =>
         match findShape r acc with
         | Some s =>
             setTweenTimeScale (sh_velocityTween s) f
               (setTweenTimeScale (sh_growingTween s) f
                  (setTweenTimeScale (sh_movementTween s) f acc))
         | None => acc
         end) g in
  setTweenTimeScale (fadeTween g1) f
    (setTweenTimeScale (intangibleEffectTweenOut g1) f
       (setTweenTimeScale (intangibleEffectTweenIn g1) f g1)).

(** [GameScene.setSlowtimeFactor(factor)]. *)
Definition GameScene_setSlowtimeFactor (factor : Q) (g : Game) : Game :=
  GameScene_adjustActiveTweens (set_clockTimeScale factor (set_slowtimeFactor factor g)).

(** [GameScene.finishIntangible()]. *)
Definition GameScene_finishIntangible (g : Game) : Game :=
  Level_checkAllShapes (updLevel (set_intangible false) g).

(** [GameScene.finishSlowtime()]. *)
Definition GameScene_finishSlowtime (g : Game) : Game :=
  GameScene_setSlowtimeFactor 1 (updLevel (set_slowtime false) g).

(** [if (this.scene.X) { this.scene.X.stop(); this.scene.X = null; }] for
    the three tweens the scene keeps a reference to. *)
Inductive SceneTween : Type := IntangibleIn | IntangibleOut | Fade.

Definition stopSceneTween (slot : SceneTween) (g : Game) : Game :=
  match slot with
  | IntangibleIn =>
      match intangibleEffectTweenIn g with
      | Some h => set_intangibleEffectTweenIn None (tween_stop h g)
      | None => g
      end
  | IntangibleOut =>
      match intangibleEffectTweenOut g with
      | Some h => set_intangibleEffectTweenOut None (tween_stop h g)
      | None => g
      end
  | Fade =>
      match fadeTween g with
      | Some h => set_fadeTween None (tween_stop h g)
      | None => g
      end
  end.

(** [Level.resetPowerUpsAndEffects()]. *)
Definition Level_resetPowerUpsAndEffects (g : Game) : Game :=
  let g1 := stopSceneTween IntangibleIn g in
  let g2 := stopSceneTween IntangibleOut g1 in
  let g3 := GameScene_finishIntangible (updLevel (set_intangibleActive false) g2) in
  let g4 := match slowtimeTimerEvent g3 with
            | Some h => set_slowtimeTimerEvent None (event_remove h g3)
            | None => g3
            end in
  let g5 := GameScene_finishSlowtime (updLevel (set_slowtimeActive false) g4) in
  stopSceneTween Fade g5.

(** [Level.resetLevelState()]. *)
Definition Level_resetLevelState (g : Game) : Game :=
  let g1 := set_staticId 0%nat g in
  let g2 := updLevel (fun l => set_trianglesSpared true
                                 (set_architectureSpared true (set_squaresSpared true l))) g1 in
  let g3 := Level_resetPowerUpsAndEffects g2 in
  let g4 := HealthBar_hideHealthBarInstant g3 in
  updLevel (fun l => set_messageText None (set_showAreaHP false l)) g4.

(** ** Shape: scripted animations *)

Definition asNum (v : JSValue) : option Q :=
  match v with JNum q => Some q | _ => None end.

Fixpoint asNums (l : list JSValue) : option (list Q) :=
  match l with
  | [] => Some []
  | v :: rest =>
      match asNum v, asNums rest with
      | Some q, Some qs => Some (q :: qs)
      | _, _ => None
      end
  end.

(** One entry [[delayBeforeStart, params]] of [animateScale],
    [animateVelocities] or [animateMovement]: [initiate(params, delay / D)].
    [params.length] of a missing entry is a [TypeError]; a wrong length is
    the explicit [throw]; otherwise the start is scheduled. *)
Definition initiate (arity : nat) (mkCb : list Q -> option Callback)
    (entry : JSValue) (g : Game) : Completion Game :=
  match entry with
  | JArr (delayBeforeStart :: rest) =>
      match rest with
      | [] => Thrown "TypeError" g
      | JArr params :: _ =>
          if negb (Nat.eqb (List.length params) arity) then Thrown "Not Implemented" g
          else
            match asNum delayBeforeStart, asNums params with
            | Some delay, Some ps =>
                if Qeq_bool (difficultyAdjustment g) 0 then Unmodelled
                else
                  match mkCb ps with
                  | Some cb =>
                      Normal (snd (time_delayedCall (delay / difficultyAdjustment g) cb g))
                  | None => Unmodelled
                  end
            | _, _ => Unmodelled
            end
      | JStr _ :: _ => Unmodelled
      | _ :: _ => Thrown "Not Implemented" g
      end
  | JArr [] => Thrown "TypeError" g
  | _ => Unmodelled
  end.

Fixpoint forEachC {A : Type} (body : A -> Game -> Completion Game) (l : list A)
    (g : Game) : Completion Game :=
  match l with
  | [] => Normal g
  | a :: rest => bindC (body a g) (forEachC body rest)
  end.

Definition animateList (arity : nat) (mkCb : list Q -> option Callback)
    (arr : JSValue) (g : Game) : Completion Game :=
  match arr with
  | JArr entries => forEachC (initiate arity mkCb) entries g
  | _ => Unmodelled
  end.

(** [Shape.animateScale(growingParamsArray)] for the shape at [r]. *)
Definition Shape_animateScale (r : nat) : JSValue -> Game -> Completion Game :=
  animateList 2 (fun ps => match ps with
                           | [growSpeed; endSize] => Some (CbGrow r growSpeed endSize)
                           | _ => None
                           end).

(** [Shape.animateVelocities(velocityArray)]. *)
Definition Shape_animateVelocities (r : nat) : JSValue -> Game -> Completion Game :=
  animateList 3 (fun ps => match ps with
                           | [vx; vy; durationOfChange] => Some (CbVelocity r vx vy durationOfChange)
                           | _ => None
                           end).

(** [Shape.animateMovement(movementParamsArray)]. *)
Definition Shape_animateMovement (r : nat) : JSValue -> Game -> Completion Game :=
  animateList 4 (fun ps => match ps with
                           | [durationOfMovement; repeatInterval; sx; sy] =>
                               Some (CbMovement r durationOfMovement repeatInterval sx sy)
                           | _ => None
                           end).

(** [Shape.animateCircularMovement(movementParams)]. *)
Definition Shape_animateCircularMovement (r : nat) (movementParams : JSValue) (g : Game)
    : Completion Game :=
  match movementParams with
  | JArr [] => Normal g
  | JArr params =>
      if negb (Nat.eqb (List.length params) 5) then Thrown "Not Implemented" g
      else
        match asNums params with
        | Some [delayBeforeStart; duration; radius; speed; startAngel] =>
            let D := difficultyAdjustment g in
            if Qeq_bool D 0 then Unmodelled
            else Normal (snd (time_delayedCall (delayBeforeStart / D)
                                (CbCircularStart r speed D duration radius startAngel) g))
        | _ => Unmodelled
        end
  | _ => Unmodelled
  end.

(** ** GameScene: blackout *)

(** [GameScene.animateBlackout(fadeArray)]: every entry stops the current
    fade tween and schedules the start of a new one. *)
Definition initiateFade (entry : JSValue) (g : Game) : Completion Game :=
  match entry with
  | JArr (JNum delayBeforeFade :: JNum durationOfFade :: JNum repeat :: _) =>
      let g1 := stopSceneTween Fade g in
      Normal (snd (time_delayedCall delayBeforeFade (CbFade durationOfFade repeat) g1))
  | _ => Unmodelled
  end.

Definition GameScene_animateBlackout (fadeArray : JSValue) (g : Game) : Completion Game :=
  match fadeArray with
  | JArr entries => forEachC initiateFade entries g
  | _ => Unmodelled
  end.

(** ** Level: the script interpreter *)

(** The class [spawnShape] instantiates for a label. *)
Definition spawnShape_class (shapeType : string) : option ShapeClass :=
  if String.eqb shapeType "triangle" then Some Triangle
  else if String.eqb shapeType "square" then Some Square
  else if String.eqb shapeType "area" then Some Area
  else if String.eqb shapeType "clear-friendlies" then Some ClearFriendlies
  else if String.eqb shapeType "intangible" then Some Intangible
  else if String.eqb shapeType "slowtime" then Some SlowTime
  else if String.prefix "armored_" shapeType then Some ArmoredTriangle
  else if String.prefix "stealth" shapeType then Some StealthTriangle
  else None.

Definition createGraphics_geom (c : ShapeClass) : Geom :=
  match c with
  | Triangle | StealthTriangle | ArmoredTriangle => Triangle_geom
  | Square | Area => Square_geom
  | Architecture => GPolygon []
  | ClearFriendlies | Intangible | SlowTime => Upgrade_geom
  end.

(** [parseInt(shapeType.charAt(shapeType.length - 1), 10)]. *)
Fixpoint lastChar (s : string) : option ascii :=
  match s with
  | EmptyString => None
  | String c EmptyString => Some c
  | String _ rest => lastChar rest
  end.

Definition parseInt_digit (c : option ascii) : option Z :=
  match c with
  | Some c =>
      let n := nat_of_ascii c in
      if (48 <=? n)%nat && (n <=? 57)%nat then Some (Z.of_nat (n - 48)) else None
  | None => None
  end.

(** [Level.spawnShape(shapeType, x, y, velocityX, velocityY, angularVelocity,
    velocityData, scaleData, movementData, movementCircularData)]. *)
Definition Level_spawnShape
    (shapeType x y velocityX velocityY angularVelocity : JSValue)
    (velocityData scaleData movementData movementCircularData : JSValue)
    (g : Game) : Completion Game :=
  match shapeType with
  | JStr label =>
      match spawnShape_class label with
      | None => Thrown "Not Implemented" g
      | Some c =>
          let g1 :=
            if instanceof_Triangle c then updLevel (set_trianglesSpared false) g
            else match c with
                 | Square => updLevel (set_squaresSpared false) g
                 | _ => g
                 end in
          match asNums [x; y; velocityX; velocityY; angularVelocity] with
          | Some [qx; qy; qvx; qvy; qav] =>
              let r := nextRef g1 in
              let shape :=
                Shape_new r c (staticId g1) label qx qy qvx qvy qav (createGraphics_geom c) in
              let g2 := set_staticId (S (staticId g1)) (set_nextRef (S r) g1) in
              bindC (Shape_animateVelocities r velocityData g2) (fun g3 =>
              bindC (Shape_animateScale r scaleData g3) (fun g4 =>
              bindC (Shape_animateMovement r movementData g4) (fun g5 =>
              bindC (Shape_animateCircularMovement r movementCircularData g5) (fun g6 =>
                let shape' :=
                  if String.prefix "armored_" label
                  then ArmoredTriangle_generateSprite (parseInt_digit (lastChar label)) shape
                  else shape in
                Normal (updLevel (fun l => set_shapes (shapes l ++ [shape']) l) g6)))))
          | _ => Unmodelled
          end
      end
  | _ => Thrown "TypeError" g
  end.

(** [new Architecture(scene, points, velocityY)] and
    [Level.spawnArchitecture(points, velocityY)]. *)
Fixpoint asPoints (l : list JSValue) : option (list (Q * Q)) :=
  match l with
  | [] => Some []
  | JPoint px py :: rest =>
      match asPoints rest with
      | Some ps => Some ((px, py) :: ps)
      | None => None
      end
  | _ :: _ => None
  end.

Definition Math_min (q : Q) (l : list Q) : Q :=
  fold_left (fun m v => if Qlt_bool v m then v else m) l q.

Definition Level_spawnArchitecture (points velocityY : JSValue) (g : Game) : Completion Game :=
  match points, velocityY with
  | JArr pts, JNum vy =>
      match asPoints pts with
      | Some (p :: ps) =>
          let g1 := updLevel (set_architectureSpared false) g in
          let minY := Math_min (snd p) (map snd ps) in
          let r := nextRef g1 in
          let geom := GPolygon (map (fun q => (fst q, snd q - minY)) (p :: ps)) in
          let shape := Shape_new r Architecture (staticId g1) "architecture" 0 minY 0 vy 0 geom in
          Normal (updLevel (fun l => set_shapes (shapes l ++ [shape]) l)
                    (set_staticId (S (staticId g1)) (set_nextRef (S r) g1)))
      | _ => Unmodelled
      end
  | _, _ => Unmodelled
  end.

(** [Level.processLevelData(data)]. *)
Definition Level_processLevelData (data : ScriptLine) (g : Game) : Completion Game :=
  match data with
  | [passable] =>
      match passable with
      | JNum q => Normal (updLevel (set_levelPassableScore q) g)
      | _ => Unmodelled
      end
  | [tag; fadeArray] =>
      match tag with
      | JStr s => if String.eqb s "black" then GameScene_animateBlackout fadeArray g else Normal g
      | _ => Normal g
      end
  | [_; points; velocityY] => Level_spawnArchitecture points velocityY g
  | [shape; x; y; velocityX; velocityY; angularVelocity;
     velocityData; scaleData; movementData; movementCircularData] =>
      Level_spawnShape shape x y velocityX velocityY angularVelocity
        velocityData scaleData movementData movementCircularData g
  | _ => Thrown "Not Implemented" g
  end.

(** [Level.loadLevel(levelData)]. *)
Definition Level_loadLevel (levelData : Script) (g : Game) : Completion Game :=
  forEachC Level_processLevelData levelData (Level_resetLevelState g).

(** [GameScene.loadCurrentLevel()]; an index outside [levels] makes
    [loadLevel] fail on [undefined.forEach] after the reset. *)
Definition GameScene_loadCurrentLevel (g : Game) : Completion Game :=
  let g1 := time_removeAllEvents g in
  let g2 := set_score 0%Z g1 in
  let g3 := Level_clearShapesNoSound g2 in
  let g4 := updLevel (fun l => set_shapes (filter (fun s => negb (sh_toBeRemoved s)) (shapes l)) l)
              g3 in
  match nth_error (levels g4) (currentLevelIndex g4) with
  | Some levelData => Level_loadLevel levelData g4
  | None => Thrown "TypeError" (Level_resetLevelState g4)
  end.

(** ** Level: clearance and the per-tick update *)

(** [GameScene.unlockAchievement(achievementName)] for a name that is a key
    of the achievements table. *)
Definition GameScene_unlockAchievement (name : string) (g : Game) : Game :=
  if existsb (String.eqb name) (achievements g) then g
  else set_achievements (achievements g ++ [name]) g.

(** [Level.checkLevelCleared()]. *)
Definition Level_checkLevelCleared (g : Game) : Game :=
  match shapes (level g) with
  | _ :: _ => g
  | [] =>
      let g1 := stopSceneTween IntangibleIn g in
      let g2 := stopSceneTween IntangibleOut g1 in
      let g3 := stopSceneTween Fade g2 in
      let g4 := HealthBar_hideHealthBarInstant (updLevel (set_showAreaHP false) g3) in
      let cleared := Qge_bool (inject_Z (score g4)) (levelPassableScore (level g4)) in
      let message := if cleared then "Level Cleared!"%string else "Level Failed"%string in
      let g5 :=
        if negb (squaresSpared (level g4)) && negb (architectureSpared (level g4)) then
          let g' := GameScene_unlockAchievement "Friendly-Fire" g4 in
          if negb (trianglesSpared (level g')) then GameScene_unlockAchievement "Destructive" g'
          else g'
        else g4 in
      let g6 := if negb cleared then sound_play "lose" g5 else sound_play "win" g5 in
      let g7 := updLevel (set_messageText (Some message)) g6 in
      snd (time_delayedCall 2000 (CbNextAction cleared) g7)
  end.

(** The body of the loop of [Level.update]; the accumulator carries the
    local flag [onlyArchitecture]. *)
Definition Level_update_body (delta : Q) (r : nat) (acc : bool * Game) : bool * Game :=
  let '(onlyArchitecture, g) := acc in
  let g1 := updShape r (Shape_update (difficultyAdjustment g) (slowtimeFactor g) delta) g in
  match findShape r g1 with
  | None => (onlyArchitecture, g1)
  | Some shape =>
      let c := sh_cls shape in
      let only :=
        if negb (instanceof_Architecture c || instanceof_Area c) then false
        else if instanceof_Architecture c && Qgt_bool (sh_velocityY shape) 0 then false
        else onlyArchitecture in
      if sh_dying shape then (only, g1)
      else
        let g2 :=
          if Qgt_bool (sh_y shape) (config_height + 50) then
            let a := Level_removeShape r g1 in
            let b := if instanceof_Square c then updLevel (set_squaresSpared true) a else a in
            let d := if instanceof_Architecture c
                     then updLevel (set_architectureSpared true) b else b in
            let e := if instanceof_Triangle c || instanceof_StealthTriangle c
                        || instanceof_ArmoredTriangle c
                     then updLevel (set_trianglesSpared true) d else d in
            if instanceof_Area c then HealthBar_hideHealthBar e else e
          else g1 in
        let g3 :=
          if instanceof_Area c then
            if Qgt_bool (sh_y shape) 0 && negb (showAreaHP (level g2))
            then updLevel (set_showAreaHP true) (HealthBar_showHealthBar g2)
            else g2
          else g2 in
        (only, g3)
  end.

(** [Level.update(time, delta)]. *)
Definition Level_update (delta : Q) (g : Game) : Game :=
  let '(onlyArchitecture, g1) :=
    fold_left (fun acc r => Level_update_body delta r acc)
      (map sh_ref (shapes (level g))) (true, g) in
  let g2 := if onlyArchitecture
            then Level_clearShapesNoSound (updLevel (set_architectureSpared true) g1)
            else g1 in
  let originalLength := List.length (shapes (level g2)) in
  let g3 := updLevel (fun l => set_shapes (filter (fun s => negb (sh_toBeRemoved s)) (shapes l)) l)
              g2 in
  if (List.length (shapes (level g3)) <? originalLength)%nat then Level_checkLevelCleared g3
  else g3.

(** ** What Phaser runs: tweens *)

Definition interpolate (from to p : Q) : Q := from + (to - from) * p.

(** The tween [h] writes its value at progress [p] and calls [onUpdate]. *)
Definition tweenUpdate (h : nat) (p : Q) (g : Game) : Game :=
  match findTween h g with
  | None => g
  | Some t =>
      match tw_kind t with
      | TwDeath _ => g
      | TwGrowing r from endSize =>
          updShape r (set_sh_scaleFactor (interpolate from endSize p)) g
      | TwVelocity r fromX toX fromY toY =>
          updShape r (fun s => set_sh_velocityY (interpolate fromY toY p)
                                 (set_sh_velocityX (interpolate fromX toX p) s)) g
      | TwMovement r fromX toX fromY toY =>
          updShape r (fun s => set_sh_secondVelocityY (interpolate fromY toY p)
                                 (set_sh_secondVelocityX (interpolate fromX toX p) s)) g
      | TwHealthDying from =>
          let scale := interpolate from 0 p in
          updHealthBar (fun hb => set_hb_fillX (50 * (1 - scale)) (set_hb_fillScaleX scale hb)) g
      | TwAlpha HealthBarBackground from to _ =>
          updHealthBar (set_hb_backgroundAlpha (interpolate from to p)) g
      | TwAlpha HealthBarFill from to _ =>
          updHealthBar (set_hb_fillAlpha (interpolate from to p)) g
      | TwBlackout => g
      | TwIntangibleEffect => g
      end
  end.

(** The tween [h] reaches its end: last value (the start value again for a
    yoyo tween), [onComplete], removal from the active tweens. *)
Definition tweenComplete (h : nat) (g : Game) : Game :=
  match findTween h g with
  | None => g
  | Some t =>
      let g1 := tweenUpdate h (if tw_yoyo t then 0 else 1) g in
      let g2 := tween_stop h g1 in
      match tw_kind t with
      | TwDeath r => updShape r (set_sh_toBeRemoved true) g2
      | TwGrowing r _ endSize => updShape r (set_sh_scaleFactor endSize) g2
      | TwHealthDying _ => set_score 0%Z (Level_clearShapesNoSound g2)
      | TwAlpha _ _ _ true => HealthBar_refillAndPauseHealthBar g2
      | _ => g2
      end
  end.

(** ** What Phaser runs: timer events *)

Definition stopShapeTween (h : option nat) (g : Game) : Game :=
  match h with
  | Some h => tween_stop h g
  | None => g
  end.

Section Clock.

(** [Math.PI], [Math.cos] and [Math.sin], used by the circular movement. *)
Variable Math_PI : Q.
Variables Math_cos Math_sin : Q -> Q.

(** The body of the closure [cb], run for the event [h]. *)
Definition runCallback (h : nat) (cb : Callback) (g : Game) : Completion Game :=
  let D := difficultyAdjustment g in
  match cb with
  | CbGrow r growSpeed endSize =>
      match findShape r g with
      | None => Normal g
      | Some s =>
          if Qeq_bool D 0 then Unmodelled
          else
            let g1 := stopShapeTween (sh_growingTween s) g in
            let '(h', g2) :=
              tweens_add (TwGrowing r (sh_scaleFactor s) endSize) (growSpeed / D) 0 0 false g1 in
            Normal (updShape r (set_sh_growingTween (Some h')) g2)
      end
  | CbVelocity r newVelocityX newVelocityY durationOfChange =>
      match findShape r g with
      | None => Normal g
      | Some s =>
          if Qeq_bool D 0 then Unmodelled
          else
            let g1 := stopShapeTween (sh_velocityTween s) g in
            let '(h', g2) :=
              tweens_add (TwVelocity r (sh_velocityX s) newVelocityX (sh_velocityY s) newVelocityY)
                (durationOfChange / D) 0 0 false g1 in
            Normal (updShape r (set_sh_velocityTween (Some h')) g2)
      end
  | CbMovement r durationOfMovement repeatInterval movementSpeedX movementSpeedY =>
      match findShape r g with
      | None => Normal g
      | Some s =>
          if Qeq_bool D 0 then Unmodelled
          else
            let g1 := stopShapeTween (sh_movementTween s) g in
            let g2 := updShape r (fun s => set_sh_secondVelocityY 0 (set_sh_secondVelocityX 0 s))
                        g1 in
            let '(h', g3) :=
              tweens_add (TwMovement r (0 - movementSpeedX * D) (0 + movementSpeedX * D)
                            (0 - movementSpeedY * D) (0 + movementSpeedY * D))
                (durationOfMovement / D) 0
                (if Qeq_bool repeatInterval (-1) then -1 else repeatInterval - 1) true g2 in
            Normal (updShape r (set_sh_movementTween (Some h')) g3)
      end
  | CbCircularStart r speed D0 duration radius startAngel =>
      Normal (snd (time_addEvent 20 true
                     (CbCircularTick r speed D0 duration radius startAngel 0) g))
  | CbCircularTick r speed D0 duration radius startAngel elapsed =>
      if Qeq_bool D 0 || Qeq_bool D0 0 || Qeq_bool speed 0 then Unmodelled
      else
        let elapsed' := elapsed + 20 in
        let g1 :=
          set_events
            (map (fun e => if Nat.eqb (ev_handle e) h
                           then mkTimerEvent h (ev_delay e) (ev_loop e)
                                  (CbCircularTick r speed D0 duration radius startAngel elapsed')
                           else e) (events g)) g in
        let angVel := 2 * Math_PI / (speed / 1000 / D0) in
        let currentAngle := angVel * (elapsed' / 1000) + startAngel in
        let stop := Qge_bool elapsed' (duration / D) && negb (Qeq_bool duration (-1)) in
        Normal (updShape r
                  (fun s =>
                     if stop then set_sh_circularVelocityY 0 (set_sh_circularVelocityX 0 s)
                     else set_sh_circularVelocityY (radius * angVel * Math_sin currentAngle)
                            (set_sh_circularVelocityX (radius * angVel * Math_cos currentAngle) s))
                  g1)
  | CbFade durationOfFade repeat =>
      let '(h', g1) := tweens_add TwBlackout durationOfFade 0 repeat true g in
      Normal (set_fadeTween (Some h') g1)
  | CbFinishIntangible => Normal (GameScene_finishIntangible g)
  | CbFinishSlowtime => Normal (GameScene_finishSlowtime g)
  | CbNextAction false => GameScene_loadCurrentLevel g
  | CbNextAction true => Unmodelled
  end.

(** The timer event [h] is due in [Clock.update], which visits the active
    events: a one-shot event leaves the clock, then its callback runs.  An
    event added since the last step is not visited; an event marked for
    removal is still visited until the next [Clock.preUpdate].  The
    transition to the next level ([CbNextAction true]) belongs to the
    session bookkeeping and is not embedded. *)
Definition timerFire (h : nat) (g : Game) : Completion Game :=
  match findEvent h g with
  | None => Normal g
  | Some e =>
      if isPendingInsertion g e then Normal g
      else runCallback h (ev_callback e) (if ev_loop e then g else event_remove h g)
  end.

End Clock.

(** ** What Phaser runs: the hover hit test *)

Section HitTest.

(** [Math.cos] and [Math.sin]. *)
Variables Math_cos Math_sin : Q -> Q.

(** [Phaser.Math.TransformXY]: the point [(x, y)] of the world in the local
    space of an object at [(positionX, positionY)] with the given rotation
    and scale.  With a zero scale the inverse determinant is infinite and
    no coordinate is a number any more: no result. *)
Definition Math_TransformXY (x y positionX positionY rotation scaleX scaleY : Q)
    : option (Q * Q) :=
  let radianSin := Math_sin rotation in
  let radianCos := Math_cos rotation in
  let a := radianCos * scaleX in
  let b := radianSin * scaleX in
  let c := - radianSin * scaleY in
  let d := radianCos * scaleY in
  let det := a * d + c * - b in
  if Qeq_bool det 0 then None
  else
    let id := 1 / det in
    Some (d * id * x + - c * id * y + (positionY * c - positionX * d) * id,
          a * id * y + - b * id * x + (- positionY * a + positionX * b) * id).

(** The hit-area callback that [createGraphics] of each class hands to
    [setInteractive]. *)
Definition hitAreaCallback (c : ShapeClass) : Geom -> Q -> Q -> bool :=
  match c with
  | Triangle | StealthTriangle | ArmoredTriangle => Triangle_Contains
  | Square | Area => Rectangle_Contains
  | Architecture | ClearFriendlies | Intangible | SlowTime => Polygon_Contains
  end.

(** The hit test of the input manager for the graphics of a shape: the
    pointer is taken to the local space of the graphics, which
    [updateGraphics] keeps at the position, rotation and scale of the shape,
    and handed to the hit-area callback.  This is the region in which the
    pointer is over the shape, the one [pointerover] and [pointerout]
    report the border of. *)
Definition Input_hitTest (s : Shape) (px py : Q) : bool :=
  match Math_TransformXY px py (sh_x s) (sh_y s) (sh_rotation s)
          (sh_scaleFactor s) (sh_scaleFactor s) with
  | Some (x, y) => hitAreaCallback (sh_cls s) (sh_geom s) x y
  | None => false
  end.

End HitTest.

(** ** Pointer and keyboard handlers *)

(** [pointerover] on the graphics of the shape at [r]. *)
Definition on_pointerover (r : nat) (g : Game) : Game :=
  match findShape r g with
  | Some s => Level_handleShapeInteraction r (sh_label s) g
  | None => g
  end.

(** [pointerout]: registered for the label [area] only. *)
Definition on_pointerout (r : nat) (g : Game) : Game :=
  match findShape r g with
  | Some s => if String.eqb (sh_label s) "area" then HealthBar_decreaseHealthBar g else g
  | None => g
  end.

(** [pointerdown]: registered for the labels that start with [armored_]. *)
Definition on_pointerdown (r : nat) (g : Game) : Game :=
  match findShape r g with
  | Some s => if String.prefix "armored_" (sh_label s) then ArmoredTriangle_takeDamage r g else g
  | None => g
  end.

(** [keydown-R]. *)
Definition on_keydown_R (g : Game) : Completion Game :=
  GameScene_loadCurrentLevel (time_removeAllEvents g).

(** [keydown-S]. *)
Definition on_keydown_S (g : Game) : Game :=
  if negb (slowtimeActive (level g)) && negb (slowtime (level g)) then g
  else if slowtime (level g) then
    let g1 := match slowtimeTimerEvent g with
              | Some h => set_slowtimeTimerEvent None (event_remove h g)
              | None => g
              end in
    GameScene_finishSlowtime g1
  else
    let g1 := GameScene_setSlowtimeFactor 0.1 g in
    let g2 := updLevel (fun l => set_slowtimeActive false (set_slowtime true l)) g1 in
    let '(h, g3) := time_delayedCall (3000 * slowtimeFactor g2) CbFinishSlowtime g2 in
    set_slowtimeTimerEvent (Some h) g3.

(** [keydown-E]. *)
Definition on_keydown_E (g : Game) : Game :=
  if negb (intangibleActive (level g)) && negb (intangible (level g)) then g
  else if intangible (level g) then
    let g1 := stopShapeTween (intangibleEffectTweenIn g) g in
    let g2 := stopShapeTween (intangibleEffectTweenOut g1) g1 in
    let g3 := match intangibleTimerEvent g2 with
              | Some h => set_intangibleTimerEvent None (event_remove h g2)
              | None => g2
              end in
    GameScene_finishIntangible g3
  else
    let g1 := updLevel (fun l => set_intangible true (set_intangibleActive false l)) g in
    let '(hin, g2) := tweens_add TwIntangibleEffect 250 0 0 false g1 in
    let g3 := set_intangibleEffectTweenIn (Some hin) g2 in
    let '(hout, g4) := tweens_add TwIntangibleEffect 250 750 0 false g3 in
    let g5 := GameScene_adjustActiveTweens (set_intangibleEffectTweenOut (Some hout) g4) in
    let '(h, g6) := time_delayedCall 1000 CbFinishIntangible g5 in
    set_intangibleTimerEvent (Some h) g6.

(** ** Initial state *)

(** The state after the constructors of [GameScene], [HealthBar] and
    [Level] and a choice of difficulty, for a table of levels. *)
Definition HealthBar_new : HealthBar := mkHealthBar true None 1 0 0 0.

Definition Level_new : Level :=
  mkLevel [] 0 true true true false false false false false None.

Definition Game_new (levels : list Script) (D : Q) : Game :=
  mkGame 0%Z Level_new HealthBar_new levels 0%nat D 1 1 None None None None None
    [] [] [] [] [] [] (0, 0) 0%nat 0%nat 0%nat.

(** * Properties *)

(** ** Kinematics *)

(** Adding the two zero components leaves the base term as it is, unless
    the base term is the negative zero, which becomes the positive one. *)
Lemma add_positive_zero (a : float) : a <> (-0)%float -> (a + 0)%float = a.
Proof.
  intros Ha. apply Prim2SF_inj. rewrite add_spec.
  change (Prim2SF 0%float) with (S754_zero false).
  destruct (Prim2SF a) as [s| s| |s m e] eqn:E; try reflexivity.
  destruct s; [|reflexivity]. exfalso. apply Ha.
  rewrite <- (SF2Prim_Prim2SF a), E. reflexivity.
Qed.

Lemma add_zero_twice (a : float) : a <> (-0)%float -> (a + 0 + 0)%float = a.
Proof. intros Ha. rewrite (add_positive_zero a Ha). exact (add_positive_zero a Ha). Qed.

(** An entity at height 0 that moves along the x axis, with no scripted
    animation. *)
Definition plain_mover (x vx : float) : Kinematics :=
  mkKinematics x 0 vx 0 0 0 0 0 0 0.




(** ** Frame lemmas

    What the building blocks leave unchanged. *)

Ltac break_match :=
  match goal with
  | |- context [match ?x with _ => _ end] => destruct x eqn:?
  end.

Ltac break_match_hyp H :=
  match type of H with
  | context [match ?x with _ => _ end] => destruct x eqn:?
  end.

Ltac frame_by op := intros; unfold op; repeat break_match; reflexivity.

Lemma stopSceneTween_score slot g : score (stopSceneTween slot g) = score g.
Proof. frame_by stopSceneTween. Qed.
Lemma stopSceneTween_level slot g : level (stopSceneTween slot g) = level g.
Proof. frame_by stopSceneTween. Qed.
Lemma stopSceneTween_healthBar slot g : healthBar (stopSceneTween slot g) = healthBar g.
Proof. frame_by stopSceneTween. Qed.
Lemma stopSceneTween_events slot g : events (stopSceneTween slot g) = events g.
Proof. frame_by stopSceneTween. Qed.
Lemma stopSceneTween_sounds slot g : sounds (stopSceneTween slot g) = sounds g.
Proof. frame_by stopSceneTween. Qed.

Lemma refill_score g : score (HealthBar_refillAndPauseHealthBar g) = score g.
Proof. frame_by HealthBar_refillAndPauseHealthBar. Qed.
Lemma refill_level g : level (HealthBar_refillAndPauseHealthBar g) = level g.
Proof. frame_by HealthBar_refillAndPauseHealthBar. Qed.
Lemma refill_events g : events (HealthBar_refillAndPauseHealthBar g) = events g.
Proof. frame_by HealthBar_refillAndPauseHealthBar. Qed.
Lemma refill_sounds g : sounds (HealthBar_refillAndPauseHealthBar g) = sounds g.
Proof. frame_by HealthBar_refillAndPauseHealthBar. Qed.

Lemma hideInstant_score g : score (HealthBar_hideHealthBarInstant g) = score g.
Proof. unfold HealthBar_hideHealthBarInstant. cbn. apply refill_score. Qed.
Lemma hideInstant_level g : level (HealthBar_hideHealthBarInstant g) = level g.
Proof. unfold HealthBar_hideHealthBarInstant. cbn. apply refill_level. Qed.
Lemma hideInstant_events g : events (HealthBar_hideHealthBarInstant g) = events g.
Proof. unfold HealthBar_hideHealthBarInstant. cbn. apply refill_events. Qed.
Lemma hideInstant_sounds g : sounds (HealthBar_hideHealthBarInstant g) = sounds g.
Proof. unfold HealthBar_hideHealthBarInstant. cbn. apply refill_sounds. Qed.

Lemma unlock_level name g : level (GameScene_unlockAchievement name g) = level g.
Proof. frame_by GameScene_unlockAchievement. Qed.
Lemma unlock_score name g : score (GameScene_unlockAchievement name g) = score g.
Proof. frame_by GameScene_unlockAchievement. Qed.
Lemma unlock_events name g : events (GameScene_unlockAchievement name g) = events g.
Proof. frame_by GameScene_unlockAchievement. Qed.

(** ** Clearance *)

Inductive Outcome : Type := Cleared | Failed.

(** How [checkLevelCleared] reports: the message it displays and the
    transition it schedules two seconds later. *)
Definition reports (g : Game) (o : Outcome) : Prop :=
  messageText (level g)
  = Some (match o with Cleared => "Level Cleared!" | Failed => "Level Failed" end)%string
  /\ exists h, In (mkTimerEvent h 2000 false
                     (CbNextAction (match o with Cleared => true | Failed => false end)))
                  (events g).

Lemma checkLevelCleared_reports (g : Game) :
  shapes (level g) = [] ->
  reports (Level_checkLevelCleared g)
    (if Qle_bool (levelPassableScore (level g)) (inject_Z (score g)) then Cleared else Failed).
Proof.
  intros Hempty. unfold Level_checkLevelCleared. rewrite Hempty.
  cbv zeta.
  rewrite !hideInstant_score, !hideInstant_level. cbn [score level updLevel set_level].
  rewrite !stopSceneTween_score, !stopSceneTween_level.
  cbn [levelPassableScore set_showAreaHP]. unfold Qge_bool.
  set (c := Qle_bool (levelPassableScore (level g)) (inject_Z (score g))).
  unfold reports, time_delayedCall, time_addEvent. cbn.
  split.
  - destruct c; reflexivity.
  - eexists. apply in_or_app. right. destruct c; left; reflexivity.
Qed.

Lemma reports_functional g o o' : reports g o -> reports g o' -> o = o'.
Proof.
  intros [H _] [H' _]. rewrite H in H'. destruct o, o'; try reflexivity; discriminate.
Qed.

(** C6.  When the clearance check runs on an empty entity list, it reports
    [Cleared] exactly when the score has reached the pass threshold and
    [Failed] otherwise; with the threshold set to 5 by the script, a score of
    6 gives [Cleared] and a score of 4 gives [Failed]. *)
Theorem C6_clearance_outcome :
  forall g : Game,
    shapes (level g) = [] ->
    (reports (Level_checkLevelCleared g) Cleared
       <-> levelPassableScore (level g) <= inject_Z (score g))
    /\ (reports (Level_checkLevelCleared g) Failed
       <-> ~ levelPassableScore (level g) <= inject_Z (score g))
    /\ exists g5, Level_processLevelData [JNum 5] g = Normal g5
         /\ levelPassableScore (level g5) = 5
         /\ reports (Level_checkLevelCleared (set_score 6 g5)) Cleared
         /\ reports (Level_checkLevelCleared (set_score 4 g5)) Failed.
Proof.
  intros g Hempty.
  pose proof (checkLevelCleared_reports g Hempty) as Hrep.
  assert (Hscript :
    exists g5, Level_processLevelData [JNum 5] g = Normal g5
      /\ levelPassableScore (level g5) = 5
      /\ reports (Level_checkLevelCleared (set_score 6 g5)) Cleared
      /\ reports (Level_checkLevelCleared (set_score 4 g5)) Failed).
  { exists (updLevel (set_levelPassableScore 5) g).
    split; [reflexivity|]. split; [reflexivity|]. split.
    - apply (checkLevelCleared_reports (set_score 6 (updLevel (set_levelPassableScore 5) g))).
      exact Hempty.
    - apply (checkLevelCleared_reports (set_score 4 (updLevel (set_levelPassableScore 5) g))).
      exact Hempty. }
  destruct (Qle_bool (levelPassableScore (level g)) (inject_Z (score g))) eqn:Hle.
  - apply Qle_bool_iff in Hle.
    split; [|split]; [split | split | exact Hscript]; intros H.
    + exact Hle.
    + exact Hrep.
    + pose proof (reports_functional _ _ _ Hrep H). discriminate.
    + contradiction.
  - assert (~ levelPassableScore (level g) <= inject_Z (score g)) as Hn.
    { intros H. apply Qle_bool_iff in H. congruence. }
    split; [|split]; [split | split | exact Hscript]; intros H.
    + pose proof (reports_functional _ _ _ Hrep H). discriminate.
    + contradiction.
    + exact Hn.
    + exact Hrep.
Qed.

Lemma C6_clearance_outcome_witness :
  let g := set_score 6 (updLevel (set_levelPassableScore 5) (Game_new [] 1)) in
  reports (Level_checkLevelCleared g) Cleared <-> 5 <= inject_Z 6.
Proof.
  intros g. exact (proj1 (C6_clearance_outcome g eq_refl)).
Defined.

(** ** The script interpreter *)

Lemma prefix_cons_inv (c : ascii) (p s : string) :
  String.prefix (String c p) s = true ->
  exists s', s = String c s' /\ String.prefix p s' = true.
Proof.
  destruct s as [|c' s']; cbn; [discriminate|].
  destruct (ascii_dec c c') as [->|]; [|discriminate].
  intros H. exists s'. split; [reflexivity | exact H].
Qed.

Lemma spawnShape_class_armored (label : string) :
  String.prefix "armored_" label = true -> spawnShape_class label = Some ArmoredTriangle.
Proof.
  intros H. pose proof H as H0.
  apply prefix_cons_inv in H0 as (s1 & -> & H1).
  apply prefix_cons_inv in H1 as (s2 & -> & H2).
  apply prefix_cons_inv in H2 as (s3 & -> & _).
  unfold spawnShape_class. rewrite H. reflexivity.
Qed.

Lemma spawnShape_class_stealth (label : string) :
  String.prefix "stealth" label = true -> spawnShape_class label = Some StealthTriangle.
Proof.
  intros H. pose proof H as H0.
  apply prefix_cons_inv in H0 as (s1 & -> & H1).
  apply prefix_cons_inv in H1 as (s2 & -> & H2).
  unfold spawnShape_class. rewrite H. reflexivity.
Qed.

(** A label is known when it is one of the six exact names or starts with
    one of the two prefixes. *)
Definition knownLabel (label : string) : bool :=
  existsb (String.eqb label)
    ["triangle"; "square"; "area"; "clear-friendlies"; "intangible"; "slowtime"]%string
  || String.prefix "armored_" label || String.prefix "stealth" label.

Lemma spawnShape_class_unknown (label : string) :
  knownLabel label = false <-> spawnShape_class label = None.
Proof.
  unfold knownLabel, spawnShape_class. cbn [existsb].
  destruct (String.eqb label "triangle"); [cbn; split; discriminate|].
  destruct (String.eqb label "square"); [cbn; split; discriminate|].
  destruct (String.eqb label "area"); [cbn; split; discriminate|].
  destruct (String.eqb label "clear-friendlies"); [cbn; split; discriminate|].
  destruct (String.eqb label "intangible"); [cbn; split; discriminate|].
  destruct (String.eqb label "slowtime"); [cbn; split; discriminate|].
  destruct (String.prefix "armored_" label); [cbn; split; discriminate|].
  destruct (String.prefix "stealth" label); cbn; split; congruence.
Qed.

(** The scheduling commands leave the level alone. *)
Lemma forEachC_level {A : Type} (body : A -> Game -> Completion Game) (l : list A) :
  (forall a g g', body a g = Normal g' -> level g' = level g) ->
  forall g g', forEachC body l g = Normal g' -> level g' = level g.
Proof.
  intros Hbody. induction l as [|a l IH]; intros g g' H; cbn in H.
  - injection H as <-. reflexivity.
  - destruct (body a g) as [g1| |] eqn:Ha; cbn in H; try discriminate.
    rewrite (IH _ _ H). exact (Hbody _ _ _ Ha).
Qed.

Lemma initiate_level arity mkCb entry g g' :
  initiate arity mkCb entry g = Normal g' -> level g' = level g.
Proof.
  unfold initiate. intros H.
  repeat (break_match_hyp H; try discriminate).
  injection H as <-. reflexivity.
Qed.

Lemma animateList_level arity mkCb arr g g' :
  animateList arity mkCb arr g = Normal g' -> level g' = level g.
Proof.
  unfold animateList. destruct arr; try discriminate.
  apply forEachC_level. intros a g0 g0'. apply initiate_level.
Qed.

Lemma animateCircularMovement_level r arr g g' :
  Shape_animateCircularMovement r arr g = Normal g' -> level g' = level g.
Proof.
  unfold Shape_animateCircularMovement. intros H.
  repeat (break_match_hyp H; try discriminate); injection H as <-; reflexivity.
Qed.

(** A spawn that completes appends exactly one shape, of the class chosen
    from the label. *)
Lemma spawnShape_appends label c x y vx vy av vd sd md mcd g g' :
  spawnShape_class label = Some c ->
  Level_spawnShape (JStr label) x y vx vy av vd sd md mcd g = Normal g' ->
  exists s, shapes (level g') = shapes (level g) ++ [s]
            /\ sh_cls s = c /\ sh_label s = label /\ sh_ref s = nextRef g
            /\ sh_dying s = false /\ sh_toBeRemoved s = false.
Proof.
  intros Hc H. unfold Level_spawnShape in H. rewrite Hc in H.
  destruct (asNums [x; y; vx; vy; av]) as [[|qx [|qy [|qvx [|qvy [|qav [|]]]]]]|];
    try discriminate.
  match type of H with
  | bindC (Shape_animateVelocities ?r vd ?g2) _ = _ =>
      destruct (Shape_animateVelocities r vd g2) as [g3| |] eqn:H3; try discriminate;
      apply animateList_level in H3
  end.
  cbn [bindC] in H.
  match type of H with
  | bindC (Shape_animateScale ?r sd ?g3) _ = _ =>
      destruct (Shape_animateScale r sd g3) as [g4| |] eqn:H4; try discriminate;
      apply animateList_level in H4
  end.
  cbn [bindC] in H.
  match type of H with
  | bindC (Shape_animateMovement ?r md ?g4) _ = _ =>
      destruct (Shape_animateMovement r md g4) as [g5| |] eqn:H5; try discriminate;
      apply animateList_level in H5
  end.
  cbn [bindC] in H.
  match type of H with
  | bindC (Shape_animateCircularMovement ?r mcd ?g5) _ = _ =>
      destruct (Shape_animateCircularMovement r mcd g5) as [g6| |] eqn:H6; try discriminate;
      apply animateCircularMovement_level in H6
  end.
  cbn [bindC] in H. injection H as <-.
  cbn [level updLevel set_level shapes set_shapes].
  rewrite H6, H5, H4, H3. cbn [level set_staticId set_nextRef].
  assert (Hlv : shapes (level
            (if instanceof_Triangle c then updLevel (set_trianglesSpared false) g
             else match c with
                  | Square => updLevel (set_squaresSpared false) g
                  | _ => g
                  end)) = shapes (level g)
          /\ nextRef (if instanceof_Triangle c then updLevel (set_trianglesSpared false) g
             else match c with
                  | Square => updLevel (set_squaresSpared false) g
                  | _ => g
                  end) = nextRef g).
  { destruct c; split; reflexivity. }
  destruct Hlv as [Hs Hr]. rewrite Hs, Hr.
  eexists. split; [reflexivity|].
  destruct (String.prefix "armored_" label); cbn; auto.
Qed.

Lemma spawnShape_plain label c (x y vx vy av : Q) g :
  spawnShape_class label = Some c ->
  exists g', Level_spawnShape (JStr label) (JNum x) (JNum y) (JNum vx) (JNum vy) (JNum av)
               (JArr []) (JArr []) (JArr []) (JArr []) g = Normal g'.
Proof.
  intros Hc. unfold Level_spawnShape. rewrite Hc. cbn. eexists. reflexivity.
Qed.

Lemma processLevelData_other_length (data : ScriptLine) (g : Game) :
  List.length data <> 1%nat -> List.length data <> 2%nat ->
  List.length data <> 3%nat -> List.length data <> 10%nat ->
  Level_processLevelData data g = Thrown "Not Implemented" g.
Proof.
  intros H1 H2 H3 H10.
  do 11 (destruct data as [|? data]; [cbn in *; try reflexivity; congruence|]).
  reflexivity.
Qed.

(** A throw ends the level load: the lines after it are not processed. *)
Lemma forEachC_app_thrown {A : Type} (body : A -> Game -> Completion Game)
    (pre : list A) (bad : A) (post : list A) g g1 msg g2 :
  forEachC body pre g = Normal g1 ->
  body bad g1 = Thrown msg g2 ->
  forEachC body (pre ++ bad :: post) g = Thrown msg g2.
Proof.
  revert g. induction pre as [|a pre IH]; intros g Hpre Hbad; cbn in *.
  - injection Hpre as ->. rewrite Hbad. reflexivity.
  - destruct (body a g) as [g'| |]; cbn in *; try discriminate. apply IH; assumption.
Qed.

Definition fadeEntry (f : Q * Q * Q) : JSValue :=
  let '(delay, duration, repeat) := f in JArr [JNum delay; JNum duration; JNum repeat].

Lemma animateBlackout_schedules (fades : list (Q * Q * Q)) (g : Game) :
  exists g', GameScene_animateBlackout (JArr (map fadeEntry fades)) g = Normal g'
    /\ map ev_callback (events g')
       = map ev_callback (events g)
         ++ map (fun f => CbFade (snd (fst f)) (snd f)) fades.
Proof.
  unfold GameScene_animateBlackout. revert g.
  induction fades as [|[[d du] r] fades IH]; intros g; cbn -[stopSceneTween].
  - eexists. split; [reflexivity|]. rewrite app_nil_r. reflexivity.
  - match goal with |- context [forEachC _ _ ?g1] => destruct (IH g1) as (g' & Hg' & Hev) end.
    exists g'. split; [exact Hg'|]. rewrite Hev. cbn -[stopSceneTween].
    rewrite stopSceneTween_events, map_app, <- app_assoc. reflexivity.
Qed.

Definition pointValue (p : Q * Q) : JSValue := JPoint (fst p) (snd p).

Lemma asPoints_pointValue (pts : list (Q * Q)) : asPoints (map pointValue pts) = Some pts.
Proof.
  induction pts as [|[px py] pts IH]; cbn; [reflexivity|]. rewrite IH. reflexivity.
Qed.

Lemma spawnArchitecture_appends (p : Q * Q) (ps : list (Q * Q)) (vy : Q) (g : Game) :
  exists g' s,
    Level_spawnArchitecture (JArr (map pointValue (p :: ps))) (JNum vy) g = Normal g'
    /\ shapes (level g') = shapes (level g) ++ [s]
    /\ sh_cls s = Architecture /\ sh_label s = "architecture"%string
    /\ sh_velocityY s = vy /\ sh_velocityX s = 0
    /\ architectureSpared (level g') = false.
Proof.
  unfold Level_spawnArchitecture. rewrite asPoints_pointValue.
  eexists. eexists. split; [reflexivity|]. cbn. repeat split; reflexivity.
Qed.

Definition isBlack (tag : JSValue) : bool :=
  match tag with
  | JStr s => String.eqb s "black"
  | _ => false
  end.

(** The claim as the specification words it would make every line of
    length 2 schedule the fades of its second entry; a line of length 2
    whose first entry is not ["black"] schedules nothing and raises no
    error. *)
Lemma C7_length2_not_black_ignored :
  let g := Game_new [] 1 in
  let fadeArray := JArr [fadeEntry (0, 100, 1)] in
  let line := [JStr "white"; fadeArray] in
  List.length line = 2%nat
  /\ Level_processLevelData line g = Normal g
  /\ events g = []
  /\ Level_processLevelData line g <> GameScene_animateBlackout fadeArray g.
Proof.
  cbv zeta. split; [reflexivity|]. split; [reflexivity|]. split; [reflexivity|].
  intros H. cbv in H. discriminate H.
Qed.

(** C7 (amended).  The interpreter dispatches on the length of the line
    alone.  Length 1 sets the pass threshold; length 2 schedules the
    blackout fades when the first entry is ["black"] and is otherwise
    ignored without error; length 3 spawns a static obstacle; length 10
    spawns a moving entity of the class selected by the label, exactly or
    by prefix.  Every other length, a length-10 line whose label is unknown
    and a length-10 line whose label is not a string throw, and a throw
    ends the level load: the lines after it are not processed. *)
Theorem C7_script_dispatch :
  forall g : Game,
    (forall q, Level_processLevelData [JNum q] g
               = Normal (updLevel (set_levelPassableScore q) g))
    /\ (forall tag fadeArray,
          Level_processLevelData [tag; fadeArray] g
          = if isBlack tag then GameScene_animateBlackout fadeArray g else Normal g)
    /\ (forall fades, exists g',
          Level_processLevelData [JStr "black"; JArr (map fadeEntry fades)] g = Normal g'
          /\ map ev_callback (events g')
             = map ev_callback (events g) ++ map (fun f => CbFade (snd (fst f)) (snd f)) fades)
    /\ (forall ignored p ps vy, exists g' s,
          Level_processLevelData [ignored; JArr (map pointValue (p :: ps)); JNum vy] g
          = Normal g'
          /\ shapes (level g') = shapes (level g) ++ [s] /\ sh_cls s = Architecture)
    /\ (forall label c x y vx vy av,
          spawnShape_class label = Some c ->
          exists g' s,
            Level_processLevelData
              [JStr label; JNum x; JNum y; JNum vx; JNum vy; JNum av;
               JArr []; JArr []; JArr []; JArr []] g = Normal g'
            /\ shapes (level g') = shapes (level g) ++ [s] /\ sh_cls s = c)
    /\ (spawnShape_class "triangle" = Some Triangle
        /\ spawnShape_class "square" = Some Square
        /\ spawnShape_class "area" = Some Area
        /\ spawnShape_class "clear-friendlies" = Some ClearFriendlies
        /\ spawnShape_class "intangible" = Some Intangible
        /\ spawnShape_class "slowtime" = Some SlowTime
        /\ (forall label, String.prefix "armored_" label = true ->
                          spawnShape_class label = Some ArmoredTriangle)
        /\ (forall label, String.prefix "stealth" label = true ->
                          spawnShape_class label = Some StealthTriangle))
    /\ (forall label x y vx vy av vd sd md mcd,
          knownLabel label = false ->
          Level_processLevelData [JStr label; x; y; vx; vy; av; vd; sd; md; mcd] g
          = Thrown "Not Implemented" g)
    /\ (forall v x y vx vy av vd sd md mcd,
          (forall label, v <> JStr label) ->
          Level_processLevelData [v; x; y; vx; vy; av; vd; sd; md; mcd] g
          = Thrown "TypeError" g)
    /\ (forall data,
          List.length data <> 1%nat -> List.length data <> 2%nat ->
          List.length data <> 3%nat -> List.length data <> 10%nat ->
          Level_processLevelData data g = Thrown "Not Implemented" g)
    /\ (forall pre bad post g1 msg g2,
          forEachC Level_processLevelData pre (Level_resetLevelState g) = Normal g1 ->
          Level_processLevelData bad g1 = Thrown msg g2 ->
          Level_loadLevel (pre ++ bad :: post) g = Thrown msg g2).
Proof.
  intros g.
  split; [reflexivity|].
  split; [intros [q|s|px py|l] fadeArray; reflexivity|].
  split; [intros fades; apply (animateBlackout_schedules fades g)|].
  split.
  { intros ignored p ps vy.
    destruct (spawnArchitecture_appends p ps vy g) as (g' & s & H & Hs & Hc & _).
    exists g', s. auto. }
  split.
  { intros label c x y vx vy av Hc.
    destruct (spawnShape_plain label c x y vx vy av g Hc) as (g' & Hg').
    destruct (spawnShape_appends _ _ _ _ _ _ _ _ _ _ _ _ _ Hc Hg') as (s & Hs & Hcls & _).
    exists g', s. auto. }
  split.
  { repeat split; try reflexivity.
    - apply spawnShape_class_armored.
    - apply spawnShape_class_stealth. }
  split.
  { intros label x y vx vy av vd sd md mcd Hk. apply spawnShape_class_unknown in Hk.
    cbn. unfold Level_spawnShape. rewrite Hk. reflexivity. }
  split.
  { intros v x y vx vy av vd sd md mcd Hv. cbn.
    destruct v as [q|s|px py|l]; try reflexivity. exfalso. exact (Hv s eq_refl). }
  split; [intros data; apply processLevelData_other_length|].
  intros pre bad post g1 msg g2 Hpre Hbad. unfold Level_loadLevel.
  exact (forEachC_app_thrown _ _ _ _ _ _ _ _ Hpre Hbad).
Qed.

Lemma C7_script_dispatch_witness :
  let g := Game_new [] 1 in
  let tri := [JStr "triangle"; JNum 10; JNum 20; JNum 0; JNum 50; JNum 0;
              JArr []; JArr []; JArr []; JArr []] in
  Level_processLevelData [JStr "circle"; JNum 10; JNum 20; JNum 0; JNum 50; JNum 0;
                          JArr []; JArr []; JArr []; JArr []] g
  = Thrown "Not Implemented" g
  /\ Level_loadLevel ([[JNum 5]] ++ [JNum 1; JNum 2; JNum 3; JNum 4] :: [tri]) g
     = Thrown "Not Implemented" (updLevel (set_levelPassableScore 5) (Level_resetLevelState g)).
Proof.
  intros g tri. split.
  - apply (proj1 (proj2 (proj2 (proj2 (proj2 (proj2 (proj2 (C7_script_dispatch g)))))))).
    reflexivity.
  - apply (proj2 (proj2 (proj2 (proj2 (proj2 (proj2 (proj2 (proj2 (proj2
             (C7_script_dispatch g)))))))))
            [[JNum 5]] [JNum 1; JNum 2; JNum 3; JNum 4] [tri]
            (updLevel (set_levelPassableScore 5) (Level_resetLevelState g))).
    + reflexivity.
    + reflexivity.
Defined.

(** ** Shapes through their addresses *)

Definition refs (g : Game) : list nat := map sh_ref (shapes (level g)).

Definition keepsRef (f : Shape -> Shape) : Prop := forall s, sh_ref (f s) = sh_ref s.

Lemma find_modShapes r0 r f l :
  keepsRef f ->
  find (hasRef r0) (modShapes r f l)
  = option_map (fun s => if hasRef r s then f s else s) (find (hasRef r0) l).
Proof.
  intros Hf. induction l as [|s l IH]; cbn; [reflexivity|].
  assert (hasRef r0 (if hasRef r s then f s else s) = hasRef r0 s) as ->.
  { unfold hasRef at 1 3. destruct (hasRef r s); [rewrite Hf|]; reflexivity. }
  destruct (hasRef r0 s); [reflexivity | exact IH].
Qed.

Lemma findShape_hasRef r g s : findShape r g = Some s -> sh_ref s = r.
Proof.
  unfold findShape. intros H. apply find_some in H as [_ H].
  apply Nat.eqb_eq in H. exact H.
Qed.

Lemma findShape_In r g s : findShape r g = Some s -> In s (shapes (level g)).
Proof. unfold findShape. intros H. apply find_some in H as [H _]. exact H. Qed.

Lemma findShape_refs r g s : findShape r g = Some s -> In r (refs g).
Proof.
  intros H. unfold refs. rewrite <- (findShape_hasRef _ _ _ H).
  apply in_map, (findShape_In _ _ _ H).
Qed.

Lemma findShape_updShape_same r f g s :
  keepsRef f -> findShape r g = Some s -> findShape r (updShape r f g) = Some (f s).
Proof.
  intros Hf H. unfold findShape, updShape. cbn. rewrite find_modShapes by exact Hf.
  unfold findShape in H. rewrite H. cbn.
  apply find_some in H as [_ H]. rewrite H. reflexivity.
Qed.

Lemma findShape_updShape_other r0 r f g :
  keepsRef f -> r0 <> r -> findShape r0 (updShape r f g) = findShape r0 g.
Proof.
  intros Hf Hne. unfold findShape, updShape. cbn. rewrite find_modShapes by exact Hf.
  destruct (find (hasRef r0) (shapes (level g))) as [s|] eqn:H; [|reflexivity].
  cbn. apply find_some in H as [_ H]. apply Nat.eqb_eq in H.
  unfold hasRef. rewrite H. apply Nat.eqb_neq in Hne. rewrite Hne. reflexivity.
Qed.

Lemma findShape_updShape_none r0 r f g :
  keepsRef f -> findShape r0 g = None -> findShape r0 (updShape r f g) = None.
Proof.
  intros Hf H. unfold findShape, updShape. cbn. rewrite find_modShapes by exact Hf.
  unfold findShape in H. rewrite H. reflexivity.
Qed.

Lemma refs_updShape r f g : keepsRef f -> refs (updShape r f g) = refs g.
Proof.
  intros Hf. unfold refs, updShape, modShapes. cbn. rewrite map_map.
  apply map_ext. intros s. destruct (hasRef r s); [apply Hf | reflexivity].
Qed.

Ltac keeps := let s := fresh in intros s; reflexivity.

(** ** The death animation *)

Lemma pda_score r g : score (Shape_performDeathAnimation r g) = score g.
Proof. frame_by Shape_performDeathAnimation. Qed.
Lemma pda_healthBar r g : healthBar (Shape_performDeathAnimation r g) = healthBar g.
Proof. frame_by Shape_performDeathAnimation. Qed.
Lemma pda_events r g : events (Shape_performDeathAnimation r g) = events g.
Proof. frame_by Shape_performDeathAnimation. Qed.
Lemma pda_pointer r g : pointer (Shape_performDeathAnimation r g) = pointer g.
Proof. frame_by Shape_performDeathAnimation. Qed.

Lemma pda_level r g :
  level (Shape_performDeathAnimation r g)
  = match findShape r g with
    | Some s => if sh_dying s then level g
                else set_shapes (modShapes r (set_sh_dying true) (shapes (level g))) (level g)
    | None => level g
    end.
Proof. frame_by Shape_performDeathAnimation. Qed.

Lemma set_dying_true_id s : sh_dying s = true -> set_sh_dying true s = s.
Proof. destruct s. cbn. intros ->. reflexivity. Qed.

Lemma pda_findShape_same r g s :
  findShape r g = Some s ->
  findShape r (Shape_performDeathAnimation r g) = Some (set_sh_dying true s).
Proof.
  intros H. unfold findShape at 1. rewrite pda_level, H.
  destruct (sh_dying s) eqn:Hd.
  - rewrite set_dying_true_id by exact Hd. exact H.
  - change (findShape r (updShape r (set_sh_dying true) g) = Some (set_sh_dying true s)).
    apply findShape_updShape_same; [keeps | exact H].
Qed.

Lemma pda_findShape_other r0 r g :
  r0 <> r -> findShape r0 (Shape_performDeathAnimation r g) = findShape r0 g.
Proof.
  intros Hne. unfold findShape at 1. rewrite pda_level.
  destruct (findShape r g) as [s|]; [|reflexivity].
  destruct (sh_dying s); [reflexivity|].
  change (findShape r0 (updShape r (set_sh_dying true) g) = findShape r0 g).
  apply findShape_updShape_other; [keeps | exact Hne].
Qed.

Lemma pda_refs r g : refs (Shape_performDeathAnimation r g) = refs g.
Proof.
  unfold refs. rewrite pda_level.
  destruct (findShape r g) as [s|]; [|reflexivity].
  destruct (sh_dying s); [reflexivity|].
  change (refs (updShape r (set_sh_dying true) g) = refs g).
  apply refs_updShape. keeps.
Qed.

(** Re-triggering the death animation of a dying shape does nothing. *)
Lemma pda_dying_noop r g s :
  findShape r g = Some s -> sh_dying s = true -> Shape_performDeathAnimation r g = g.
Proof. intros H Hd. unfold Shape_performDeathAnimation. rewrite H, Hd. reflexivity. Qed.

Lemma pda_idempotent r g :
  Shape_performDeathAnimation r (Shape_performDeathAnimation r g)
  = Shape_performDeathAnimation r g.
Proof.
  destruct (findShape r g) as [s|] eqn:H.
  - apply (pda_dying_noop r _ (set_sh_dying true s)); [|reflexivity].
    apply pda_findShape_same. exact H.
  - unfold Shape_performDeathAnimation. rewrite H. rewrite H. reflexivity.
Qed.

(** ** Armoured triangles *)

(** The loop of [takeDamage] that looks for [this] in [level.shapes]. *)
Lemma removeSelf_loop r (l : list nat) g s :
  findShape r g = Some s ->
  let g' := fold_left (fun acc r' => if Nat.eqb r r' then Level_removeShape r' acc else acc)
              l g in
  score g' = score g
  /\ findShape r g' = Some (if existsb (Nat.eqb r) l then set_sh_dying true s else s)
  /\ (forall r0, r0 <> r -> findShape r0 g' = findShape r0 g)
  /\ refs g' = refs g.
Proof.
  revert g s. induction l as [|a l IH]; intros g s H; cbn.
  - auto.
  - destruct (Nat.eqb r a) eqn:Ha.
    + apply Nat.eqb_eq in Ha. subst a.
      change (Level_removeShape r g) with (Shape_performDeathAnimation r g).
      destruct (IH _ _ (pda_findShape_same r g s H)) as (Hs & Hf & Ho & Hr).
      rewrite Hs, Hf, Hr, pda_score, pda_refs. repeat split.
      * destruct (existsb (Nat.eqb r) l); reflexivity.
      * intros r0 Hne. rewrite (Ho r0 Hne). apply pda_findShape_other. exact Hne.
    + cbn. apply IH. exact H.
Qed.

Lemma existsb_eqb_In r l : In r l -> existsb (Nat.eqb r) l = true.
Proof.
  intros H. apply existsb_exists. exists r. split; [exact H | apply Nat.eqb_refl].
Qed.

(** One click on an armoured triangle whose [healthPoints] is [n]. *)
Lemma takeDamage_spec r g s n :
  findShape r g = Some s ->
  sh_healthPoints s = Some n ->
  let g' := ArmoredTriangle_takeDamage r g in
  let s0 := set_sh_armored_sprite SpriteDestroyed (set_sh_healthPoints (Some (n - 1)%Z) s) in
  refs g' = refs g
  /\ (forall r0, r0 <> r -> findShape r0 g' = findShape r0 g)
  /\ ((n = 1)%Z -> score g' = (score g + 1)%Z /\ findShape r g' = Some (set_sh_dying true s0))
  /\ ((1 < n)%Z -> score g' = score g
                   /\ findShape r g' = Some (ArmoredTriangle_generateSprite (Some (n - 1)%Z) s0))
  /\ ((n < 1)%Z -> score g' = score g /\ findShape r g' = Some s0).
Proof.
  intros H Hn. cbv zeta. unfold ArmoredTriangle_takeDamage. rewrite H, Hn.
  cbn [option_map].
  set (f := fun s1 => set_sh_armored_sprite SpriteDestroyed
                        (set_sh_healthPoints (Some (n - 1)%Z) s1)).
  assert (Hf : keepsRef f) by keeps.
  pose proof (findShape_updShape_same r f g s Hf H) as H1.
  destruct (n - 1 =? 0)%Z eqn:E0.
  - apply Z.eqb_eq in E0. unfold forEachShape.
    match goal with
    | |- context [fold_left ?F ?l ?g1] =>
        pose proof (removeSelf_loop r l g1 (f s)) as HL
    end.
    cbv zeta in HL.
    change (fun acc r' => if Nat.eqb r r' then Level_removeShape r' acc else acc)
      with (fun acc r' => (fun r'0 acc0 => if Nat.eqb r r'0 then Level_removeShape r'0 acc0
                                            else acc0) r' acc) in HL.
    destruct HL as (Hs & Hfd & Ho & Hr); [exact H1|].
    change (map sh_ref (shapes (level (set_score (score (updShape r f g) + 1)%Z
                                          (updShape r f g)))))
      with (refs (updShape r f g)) in *.
    change (refs (set_score (score (updShape r f g) + 1)%Z (updShape r f g)))
      with (refs (updShape r f g)) in Hr.
    rewrite refs_updShape in * by exact Hf.
    rewrite (existsb_eqb_In r (refs g) (findShape_refs _ _ _ H)) in Hfd.
    split; [exact Hr|]. split.
    { intros r0 Hne. rewrite (Ho r0 Hne).
      apply (findShape_updShape_other r0 r f g Hf Hne). }
    split; [intros _; split; [rewrite Hs; reflexivity | exact Hfd]|].
    split; intros; lia.
  - apply Z.eqb_neq in E0. destruct (0 <? n - 1)%Z eqn:E1.
    + apply Z.ltb_lt in E1.
      split; [rewrite !refs_updShape by keeps; reflexivity|].
      split.
      { intros r0 Hne. rewrite !findShape_updShape_other by (try keeps; exact Hne).
        reflexivity. }
      split; [intros; lia|]. split; [|intros; lia].
      intros _. split; [reflexivity|].
      apply findShape_updShape_same; [keeps | exact H1].
    + apply Z.ltb_ge in E1.
      split; [rewrite !refs_updShape by keeps; reflexivity|].
      split.
      { intros r0 Hne. apply findShape_updShape_other; [keeps | exact Hne]. }
      split; [intros; lia|]. split; [intros; lia|].
      intros _. split; [reflexivity | exact H1].
Qed.

(** [k] successive clicks on the shape at [r]. *)
Definition clicks (k : nat) (r : nat) (g : Game) : Game := Nat.iter k (on_pointerdown r) g.

(** Unwrap a completed command; [d] stands in when it did not complete. *)
Definition completed (d : Game) (c : Completion Game) : Game :=
  match c with
  | Normal g => g
  | _ => d
  end.

(** A level with one three-hit armoured triangle at (100, 100). *)
Definition armored_level : Script :=
  [ [JNum 1];
    [JStr "armored_3"; JNum 100; JNum 100; JNum 0; JNum 0; JNum 0;
     JArr []; JArr []; JArr []; JArr []] ].

Definition armored_game : Game :=
  completed (Game_new [] 1) (GameScene_loadCurrentLevel (Game_new [armored_level] 1)).

(** The claim as worded has [healthPoints] never below 0; a fourth click,
    which the fading triangle still receives, takes it to -1. *)
Lemma C3_fourth_click_below_zero :
  let g := clicks 4 0 armored_game in
  option_map sh_healthPoints (findShape 0 armored_game) = Some (Some 3%Z)
  /\ option_map sh_healthPoints (findShape 0 g) = Some (Some (-1)%Z)
  /\ option_map sh_toBeRemoved (findShape 0 g) = Some false.
Proof. vm_compute. repeat split. Qed.

(** C3 (amended).  Every click on an armoured triangle lowers
    [healthPoints] by exactly one, also after it has reached 0 (so it can
    become negative while the removal fade runs); hovering never changes it.
    With [n >= 1] hits at the start the triangle is removed from the click
    that brings it to 0 on, the score gains 1 at that click and at no other,
    and the armour sprite is regenerated only while hits remain: with
    [n = 3], three clicks give 0 hits, removal and score +1. *)
Lemma armored_label_inv (label : string) :
  String.prefix "armored_" label = true ->
  exists rest, label = String "a" (String "r" (String "m" rest)).
Proof.
  intros H.
  apply prefix_cons_inv in H as (s1 & -> & H1).
  apply prefix_cons_inv in H1 as (s2 & -> & H2).
  apply prefix_cons_inv in H2 as (s3 & -> & _).
  exists s3. reflexivity.
Qed.

(** Hovering an armoured triangle changes nothing at all. *)
Lemma handleShapeInteraction_armored r label g :
  String.prefix "armored_" label = true ->
  Level_handleShapeInteraction r label g = g.
Proof.
  intros Hp. unfold Level_handleShapeInteraction.
  destruct (findShape r g); [|reflexivity].
  destruct (armored_label_inv label Hp) as (rest & Hl).
  assert (String.eqb label "area" = false) as -> by (rewrite Hl; reflexivity).
  destruct (intangible (level g)); [reflexivity|].
  assert (String.eqb label "clear-friendlies" = false) as -> by (rewrite Hl; reflexivity).
  assert (String.eqb label "intangible" = false) as -> by (rewrite Hl; reflexivity).
  assert (String.eqb label "slowtime" = false) as -> by (rewrite Hl; reflexivity).
  rewrite Hp. reflexivity.
Qed.

Theorem C3_armored_hits :
  forall (g : Game) (r : nat) (s : Shape) (n : Z),
    findShape r g = Some s ->
    String.prefix "armored_" (sh_label s) = true ->
    sh_healthPoints s = Some n ->
    (1 <= n)%Z ->
    on_pointerover r g = g
    /\ forall k : nat,
         exists s',
           findShape r (clicks k r g) = Some s'
           /\ sh_label s' = sh_label s
           /\ sh_healthPoints s' = Some (n - Z.of_nat k)%Z
           /\ score (clicks k r g) = (score g + (if (n <=? Z.of_nat k)%Z then 1 else 0))%Z
           /\ sh_dying s' = sh_dying s || (n <=? Z.of_nat k)%Z
           /\ ((0 < k)%nat ->
               sh_armored_sprite s'
               = if (Z.of_nat k <? n)%Z then SpriteLive (Some (n - Z.of_nat k)%Z)
                 else SpriteDestroyed).
Proof.
  intros g r s n H Hlabel Hhp Hn. split.
  { unfold on_pointerover. rewrite H. apply handleShapeInteraction_armored. exact Hlabel. }
  induction k as [|k IH].
  - exists s. cbn [clicks Nat.iter Z.of_nat].
    assert ((n <=? 0)%Z = false) as -> by (apply Z.leb_gt; lia).
    rewrite Z.sub_0_r, Z.add_0_r, orb_false_r. repeat split; auto. intros; lia.
  - destruct IH as (sk & Hf & Hl & Hh & Hs & Hd & Hsp).
    change (clicks (S k) r g) with (on_pointerdown r (clicks k r g)).
    unfold on_pointerdown. rewrite Hf, Hl, Hlabel.
    destruct (takeDamage_spec r (clicks k r g) sk _ Hf Hh) as (_ & _ & H1 & H2 & H3).
    rewrite Nat2Z.inj_succ.
    destruct (Z.compare_spec (n - Z.of_nat k) 1) as [E|E|E].
    + destruct (H1 E) as (Hs' & Hf'). eexists. split; [exact Hf'|].
      cbn [sh_label sh_healthPoints sh_dying sh_armored_sprite set_sh_dying
           set_sh_armored_sprite set_sh_healthPoints].
      rewrite Hs', Hs.
      assert ((n <=? Z.of_nat k)%Z = false) as -> by (apply Z.leb_gt; lia).
      assert ((n <=? Z.succ (Z.of_nat k))%Z = true) as -> by (apply Z.leb_le; lia).
      assert ((Z.succ (Z.of_nat k) <? n)%Z = false) as -> by (apply Z.ltb_ge; lia).
      rewrite orb_true_r.
      repeat split; auto; try (f_equal; lia).
    + destruct (H3 E) as (Hs' & Hf'). eexists. split; [exact Hf'|].
      cbn [sh_label sh_healthPoints sh_dying sh_armored_sprite set_sh_dying
           set_sh_armored_sprite set_sh_healthPoints].
      rewrite Hs', Hs, Hd.
      assert ((n <=? Z.of_nat k)%Z = true) as -> by (apply Z.leb_le; lia).
      assert ((n <=? Z.succ (Z.of_nat k))%Z = true) as -> by (apply Z.leb_le; lia).
      assert ((Z.succ (Z.of_nat k) <? n)%Z = false) as -> by (apply Z.ltb_ge; lia).
      repeat split; auto; try (f_equal; lia).
    + destruct (H2 E) as (Hs' & Hf'). eexists. split; [exact Hf'|].
      cbn [sh_label sh_healthPoints sh_dying sh_armored_sprite set_sh_dying
           set_sh_armored_sprite set_sh_healthPoints ArmoredTriangle_generateSprite].
      rewrite Hs', Hs, Hd.
      assert ((n <=? Z.of_nat k)%Z = false) as -> by (apply Z.leb_gt; lia).
      assert ((n <=? Z.succ (Z.of_nat k))%Z = false) as -> by (apply Z.leb_gt; lia).
      assert ((Z.succ (Z.of_nat k) <? n)%Z = true) as -> by (apply Z.ltb_lt; lia).
      repeat split; auto; try (f_equal; lia); try (intros _; do 2 f_equal; lia).
Qed.

Lemma C3_armored_hits_witness :
  exists s',
    findShape 0 (clicks 3 0 armored_game) = Some s'
    /\ sh_healthPoints s' = Some 0%Z
    /\ score (clicks 3 0 armored_game) = 1%Z
    /\ sh_dying s' = true.
Proof.
  destruct (C3_armored_hits armored_game 0
              (ArmoredTriangle_generateSprite (Some 3%Z)
                 (Shape_new 0 ArmoredTriangle 0 "armored_3" 100 100 0 0 0 Triangle_geom))

              3%Z eq_refl eq_refl eq_refl ltac:(lia)) as [_ Hk].
  destruct (Hk 3%nat) as (s' & Hf & _ & Hh & Hs & Hd & _).
  exists s'. repeat split; assumption.
Defined.

(** ** Interactions with a dying shape *)

(** A level with one slow-time upgrade at (100, 100). *)
Definition slowtime_level : Script :=
  [ [JNum 0];
    [JStr "slowtime"; JNum 100; JNum 100; JNum 0; JNum 0; JNum 0;
     JArr []; JArr []; JArr []; JArr []] ].

Definition slowtime_game : Game :=
  completed (Game_new [] 1) (GameScene_loadCurrentLevel (Game_new [slowtime_level] 1)).

(** C4 (the code at the failing input).  The pointer collects the
    slow-time upgrade, which starts to fade; the player uses it with S; the
    pointer leaves and re-enters the fading upgrade.  The guard on [dying]
    in [handleShapeInteraction] comes after the power-up branches, so the
    second hover arms slow-time again although the shape is dying. *)
Theorem C4_dying_upgrade_rearms :
  let g1 := on_pointerover 0 slowtime_game in
  let g2 := on_keydown_S g1 in
  let g3 := on_pointerover 0 g2 in
  option_map sh_dying (findShape 0 slowtime_game) = Some false
  /\ option_map sh_dying (findShape 0 g1) = Some true
  /\ slowtimeActive (level g1) = true
  /\ (slowtimeActive (level g2) = false /\ slowtime (level g2) = true)
  /\ option_map sh_dying (findShape 0 g2) = Some true
  /\ slowtimeActive (level g3) = true
  /\ score g3 = score g2.
Proof. vm_compute. repeat split. Qed.

(** ** Hover dispatch and armoured triangles *)

(** A level with an intangible upgrade at (300, 300) and a three-hit
    armoured triangle at (100, 100). *)
Definition catchup_level : Script :=
  [ [JNum 1];
    [JStr "intangible"; JNum 300; JNum 300; JNum 0; JNum 0; JNum 0;
     JArr []; JArr []; JArr []; JArr []];
    [JStr "armored_3"; JNum 100; JNum 100; JNum 0; JNum 0; JNum 0;
     JArr []; JArr []; JArr []; JArr []] ].

Definition catchup_game : Game :=
  completed (Game_new [] 1) (GameScene_loadCurrentLevel (Game_new [catchup_level] 1)).

(** C5 (the code at the failing input).  The player collects the upgrade,
    becomes intangible with E, rests the pointer on the armoured triangle
    and ends intangibility with E.  [checkAllShapes] tests
    [instanceof Triangle] first, which holds for an [ArmoredTriangle], and
    dispatches it as a plain ["triangle"]: the triangle is removed and
    scores without a single click, its three hits untouched. *)
Theorem C5_catchup_removes_armored :
  let g1 := on_pointerover 0 (set_pointer (300, 300) catchup_game) in
  let g2 := on_keydown_E g1 in
  let g3 := on_pointerover 1 (set_pointer (100, 100) g2) in
  let g4 := on_keydown_E g3 in
  option_map sh_cls (findShape 1 catchup_game) = Some ArmoredTriangle
  /\ intangible (level g2) = true
  /\ (option_map sh_dying (findShape 1 g3) = Some false /\ score g3 = 0%Z)
  /\ intangible (level g4) = false
  /\ option_map sh_dying (findShape 1 g4) = Some true
  /\ option_map sh_healthPoints (findShape 1 g4) = Some (Some 3%Z)
  /\ score g4 = 1%Z.
Proof. vm_compute. repeat split. Qed.

(** ** Hover dispatch: what it leaves unchanged *)

Lemma fold_left_invariant {A : Type} (P : Game -> Prop) (f : Game -> A -> Game)
    (l : list A) (g : Game) :
  P g -> (forall a acc, In a l -> P acc -> P (f acc a)) -> P (fold_left f l g).
Proof.
  revert g. induction l as [|a l IH]; intros g Hg Hf; cbn; [exact Hg|].
  apply IH.
  - apply Hf; [left; reflexivity | exact Hg].
  - intros a' acc Hin. apply Hf. right. exact Hin.
Qed.

(** The parts of the state that tell whether and where a hover applies, and
    one shape [s] at [r] that stays as it is. *)
Definition stable (r : nat) (s : Shape) (g acc : Game) : Prop :=
  refs acc = refs g
  /\ findShape r acc = Some s
  /\ intangible (level acc) = intangible (level g)
  /\ pointer acc = pointer g.

Lemma pda_intangible r g :
  intangible (level (Shape_performDeathAnimation r g)) = intangible (level g).
Proof. rewrite pda_level. repeat break_match; reflexivity. Qed.

Definition friendly (c : ShapeClass) : bool :=
  (instanceof_Architecture c || instanceof_Square c) && negb (instanceof_Area c).

Lemma clearFriendlies_body_stable u r' r s g acc :
  friendly (sh_cls s) = false ->
  stable r s g acc -> stable r s g (clearFriendlies_body u r' acc).
Proof.
  intros Hcls (Hr & Hf & Hi & Hp). unfold clearFriendlies_body.
  destruct (findShape u acc) as [shape|]; [|repeat split; assumption].
  destruct (findShape r' acc) as [shapeNew|] eqn:Hnew; [|repeat split; assumption].
  fold (friendly (sh_cls shapeNew)).
  destruct (friendly (sh_cls shapeNew)) eqn:Hfr; [|repeat split; assumption].
  destruct (Qgt_bool _ _); [|repeat split; assumption].
  assert (r <> r') as Hne.
  { intros ->. rewrite Hf in Hnew. injection Hnew as ->. congruence. }
  unfold Level_removeShape, stable.
  rewrite pda_refs, refs_updShape by keeps.
  rewrite pda_findShape_other by exact Hne.
  rewrite findShape_updShape_other by (try keeps; exact Hne).
  rewrite pda_intangible, pda_pointer.
  repeat split; assumption.
Qed.

Lemma clearFriendlies_body_score u r' acc :
  score (clearFriendlies_body u r' acc) = score acc.
Proof.
  unfold clearFriendlies_body. repeat break_match; try reflexivity.
  unfold Level_removeShape. rewrite pda_score. reflexivity.
Qed.

Lemma refill_pointer g : pointer (HealthBar_refillAndPauseHealthBar g) = pointer g.
Proof. frame_by HealthBar_refillAndPauseHealthBar. Qed.

Lemma refill_stable r s g acc :
  stable r s g acc -> stable r s g (HealthBar_refillAndPauseHealthBar acc).
Proof.
  intros (Hr & Hf & Hi & Hp). unfold stable, refs, findShape.
  rewrite refill_level, refill_pointer. repeat split; assumption.
Qed.

Lemma pda_stable r' r s g acc :
  r <> r' -> stable r s g acc -> stable r s g (Shape_performDeathAnimation r' acc).
Proof.
  intros Hne (Hr & Hf & Hi & Hp). unfold stable.
  rewrite pda_refs, pda_findShape_other, pda_pointer, pda_intangible by exact Hne.
  repeat split; assumption.
Qed.

(** A hover on another shape leaves a shape that is neither a square nor a
    static obstacle as it is. *)
Lemma handleShapeInteraction_stable r' label r s g acc :
  r <> r' -> friendly (sh_cls s) = false ->
  stable r s g acc -> stable r s g (Level_handleShapeInteraction r' label acc).
Proof.
  intros Hne Hcls Hst. unfold Level_handleShapeInteraction.
  destruct (findShape r' acc); [|exact Hst].
  destruct (String.eqb label "area"); [apply refill_stable; exact Hst|].
  destruct (intangible (level acc)); [exact Hst|].
  assert (Hcoll : forall g1, stable r s g g1 ->
            stable r s g
              match findShape r' g1 with
              | Some shape =>
                  if sh_dying shape then g1
                  else
                    let g2 := Level_removeShape r' g1 in
                    let g3 := if String.eqb label "triangle" || String.eqb label "stealth"
                              then set_score (score g2 + 1)%Z g2 else g2 in
                    if String.eqb label "architecture" || String.eqb label "square"
                    then set_score (score g3 - 1)%Z g3 else g3
              | None => g1
              end).
  { intros g1 Hg1. destruct (findShape r' g1) as [shape|]; [|exact Hg1].
    destruct (sh_dying shape); [exact Hg1|].
    pose proof (pda_stable r' r s g g1 Hne Hg1) as Hpda.
    cbv zeta. unfold Level_removeShape.
    destruct (_ || _); destruct (_ || _); exact Hpda. }
  destruct (String.eqb label "clear-friendlies").
  { apply Hcoll. unfold forEachShape.
    apply fold_left_invariant; [exact Hst|].
    intros a acc0 _ Hacc. apply clearFriendlies_body_stable; assumption. }
  destruct (String.eqb label "intangible"); [apply Hcoll; exact Hst|].
  destruct (String.eqb label "slowtime"); [apply Hcoll; exact Hst|].
  destruct (String.prefix "armored_" label); [exact Hst|].
  apply Hcoll. exact Hst.
Qed.

Lemma checkAllShapes_body_stable r' r s g acc :
  r <> r' -> friendly (sh_cls s) = false ->
  stable r s g acc -> stable r s g (checkAllShapes_body r' acc).
Proof.
  intros Hne Hcls Hst. unfold checkAllShapes_body.
  destruct (findShape r' acc) as [s'|]; [|exact Hst].
  destruct (checkAllShapes_classify s' _ _) as [[|] label]; [|exact Hst].
  apply handleShapeInteraction_stable; assumption.
Qed.

Lemma find_NoDup_In (l : list Shape) (t : Shape) :
  NoDup (map sh_ref l) -> In t l -> find (hasRef (sh_ref t)) l = Some t.
Proof.
  induction l as [|s l IH]; cbn; intros Hnd Hin; [contradiction|].
  inversion Hnd as [|? ? Hnotin Hnd']; subst.
  destruct Hin as [->|Hin].
  - unfold hasRef. rewrite Nat.eqb_refl. reflexivity.
  - destruct (hasRef (sh_ref t) s) eqn:E.
    + exfalso. apply Hnotin. apply Nat.eqb_eq in E. rewrite E.
      apply in_map. exact Hin.
    + apply IH; assumption.
Qed.

Definition isTarget (c : ShapeClass) : bool :=
  match c with Triangle | StealthTriangle => true | _ => false end.

(** The containment test of the catch-up pass for a shape: the pointer,
    moved by the position of the shape, against the outline as it was
    created.  The rotation and the scale of the shape do not enter, so this
    is the region of the hover hit test only for a shape that is neither
    rotated nor scaled. *)
Definition passSelects (g : Game) (s : Shape) : bool :=
  fst (checkAllShapes_classify s (fst (pointer g) - sh_x s) (snd (pointer g) - sh_y s)).

(** The catch-up visit of a live target under the pointer. *)
Lemma checkAllShapes_body_target r t acc :
  findShape r acc = Some t ->
  isTarget (sh_cls t) = true ->
  sh_dying t = false ->
  intangible (level acc) = false ->
  passSelects acc t = true ->
  let g2 := checkAllShapes_body r acc in
  score g2 = (score acc + 1)%Z
  /\ g2 = set_score (score acc + 1)%Z (Shape_performDeathAnimation r acc).
Proof.
  intros H Hc Hd Hi Hu. cbv zeta. unfold checkAllShapes_body. rewrite H.
  unfold passSelects in Hu.
  destruct (checkAllShapes_classify t _ _) as [b label] eqn:Hcl. cbn in Hu. subst b.
  assert (label = "triangle"%string) as ->.
  { unfold checkAllShapes_classify in Hcl. destruct (sh_cls t); try discriminate;
      cbn in Hcl; congruence. }
  unfold Level_handleShapeInteraction. rewrite H. cbn [String.eqb Ascii.eqb Bool.eqb].
  rewrite Hi. cbn. rewrite H, Hd. unfold Level_removeShape.
  rewrite pda_score. split; reflexivity.
Qed.

(** A visit of a target that is already dying does nothing. *)
Lemma checkAllShapes_body_dying_target r t acc :
  findShape r acc = Some t ->
  isTarget (sh_cls t) = true ->
  sh_dying t = true ->
  checkAllShapes_body r acc = acc.
Proof.
  intros H Hc Hd. unfold checkAllShapes_body. rewrite H.
  destruct (checkAllShapes_classify t _ _) as [b label] eqn:Hcl.
  assert (label = "triangle"%string) as ->.
  { unfold checkAllShapes_classify in Hcl. destruct (sh_cls t); try discriminate;
      cbn in Hcl; congruence. }
  destruct b; [|reflexivity].
  unfold Level_handleShapeInteraction. rewrite H. cbn [String.eqb Ascii.eqb Bool.eqb].
  destruct (intangible (level acc)); [reflexivity|]. cbn. rewrite H, Hd. reflexivity.
Qed.

Lemma checkAllShapes_body_miss r s acc :
  findShape r acc = Some s -> passSelects acc s = false -> checkAllShapes_body r acc = acc.
Proof.
  intros H Hu. unfold checkAllShapes_body. rewrite H. unfold passSelects in Hu.
  destruct (checkAllShapes_classify s _ _) as [b label]. cbn in Hu. subst b. reflexivity.
Qed.

Lemma isTarget_not_friendly c : isTarget c = true -> friendly c = false.
Proof. destruct c; cbn; congruence. Qed.

Definition catchUp (l : list nat) (g : Game) : Game :=
  fold_left (fun acc r => checkAllShapes_body r acc) l g.

Lemma catchUp_stable l r s g acc :
  ~ In r l -> friendly (sh_cls s) = false ->
  stable r s g acc -> stable r s g (catchUp l acc).
Proof.
  intros Hnotin Hcls Hst. unfold catchUp. apply fold_left_invariant; [exact Hst|].
  intros a acc0 Hin Hacc. apply checkAllShapes_body_stable; try assumption.
  intros ->. contradiction.
Qed.

Lemma stable_refl r s g : findShape r g = Some s -> stable r s g g.
Proof. intros H. repeat split. exact H. Qed.

Lemma NoDup_app_cons_notin (l1 l2 : list nat) (r : nat) :
  NoDup (l1 ++ r :: l2) -> ~ In r l1 /\ ~ In r l2.
Proof.
  intros H. apply NoDup_remove_2 in H. split; intros Hin; apply H, in_or_app; auto.
Qed.

(** ** Intangibility *)


(** The catch-up pass and a live target that its containment test
    selects: the pass visits it once, the visit scores and starts the
    removal, and what follows leaves it alone. *)
Lemma finishIntangible_selected_target g t :
  NoDup (refs g) -> In t (shapes (level g)) ->
  isTarget (sh_cls t) = true -> sh_dying t = false -> passSelects g t = true ->
    let r := sh_ref t in
    let g' := GameScene_finishIntangible g in
    intangible (level g') = false
    /\ (exists l1 l2,
          refs g = l1 ++ r :: l2 /\ ~ In r l1 /\ ~ In r l2
          /\ let g1 := catchUp l1 (updLevel (set_intangible false) g) in
             let g2 := checkAllShapes_body r g1 in
             findShape r g1 = Some t
             /\ score g2 = (score g1 + 1)%Z
             /\ findShape r g2 = Some (set_sh_dying true t)
             /\ g' = catchUp l2 g2
             /\ findShape r g' = Some (set_sh_dying true t)
             /\ checkAllShapes_body r g' = g')
    /\ ((forall s', In s' (shapes (level g)) -> sh_ref s' <> r ->
                    passSelects g s' = false) ->
        score g' = (score g + 1)%Z
        /\ forall r0, r0 <> r -> findShape r0 g' = findShape r0 g).
Proof.
  intros Hnd Hin Hc Hd Hu r g'.
  set (g0 := updLevel (set_intangible false) g).
  assert (Hfind : findShape r g0 = Some t) by (apply find_NoDup_In; assumption).
  assert (Hrefs : refs g0 = refs g) by reflexivity.
  destruct (in_split r (refs g)) as (l1 & l2 & Hsplit).
  { unfold refs. apply in_map. exact Hin. }
  rewrite Hsplit in Hnd. destruct (NoDup_app_cons_notin _ _ _ Hnd) as [Hn1 Hn2].
  assert (Hg' : g' = catchUp l2 (checkAllShapes_body r (catchUp l1 g0))).
  { unfold g', GameScene_finishIntangible, Level_checkAllShapes, forEachShape.
    fold g0. fold (refs g0). rewrite Hrefs, Hsplit, fold_left_app. reflexivity. }
  pose proof (isTarget_not_friendly _ Hc) as Hfr.
  destruct (catchUp_stable l1 r t g0 g0 Hn1 Hfr (stable_refl _ _ _ Hfind))
    as (Hr1 & Hf1 & Hi1 & Hp1).
  assert (Hu1 : passSelects (catchUp l1 g0) t = true).
  { unfold passSelects. rewrite Hp1. exact Hu. }
  destruct (checkAllShapes_body_target r t (catchUp l1 g0) Hf1 Hc Hd Hi1 Hu1) as [Hs2 Hg2].
  assert (Hf2 : findShape r (checkAllShapes_body r (catchUp l1 g0))
                = Some (set_sh_dying true t)).
  { rewrite Hg2. apply (pda_findShape_same r (catchUp l1 g0) t Hf1). }
  assert (Hfr2 : friendly (sh_cls (set_sh_dying true t)) = false) by exact Hfr.
  destruct (catchUp_stable l2 r _ _ _ Hn2 Hfr2 (stable_refl _ _ _ Hf2))
    as (Hr3 & Hf3 & Hi3 & Hp3).
  rewrite <- Hg' in Hr3, Hf3, Hi3, Hp3.
  split; [|split].
  + rewrite Hi3, Hg2. cbn [level set_score]. rewrite pda_intangible. exact Hi1.
  + exists l1, l2. split; [exact Hsplit|]. split; [exact Hn1|]. split; [exact Hn2|].
    cbv zeta. fold g0. repeat split; try assumption.
    apply (checkAllShapes_body_dying_target r (set_sh_dying true t)); auto.
  + intros Hothers.
    assert (H1 : catchUp l1 g0 = g0).
    { unfold catchUp. apply fold_left_invariant; [reflexivity|].
      intros a acc Ha ->.
      destruct (findShape a g0) as [s'|] eqn:Hs'.
      - apply (checkAllShapes_body_miss a s' g0 Hs').
        apply (Hothers s' (findShape_In _ _ _ Hs')).
        rewrite (findShape_hasRef _ _ _ Hs'). intros ->. contradiction.
      - unfold checkAllShapes_body. rewrite Hs'. reflexivity. }
    rewrite H1 in *.
    assert (H2 : catchUp l2 (checkAllShapes_body r g0) = checkAllShapes_body r g0).
    { unfold catchUp. apply fold_left_invariant; [reflexivity|].
      intros a acc Ha ->.
      assert (a <> r) as Hne by (intros ->; contradiction).
      assert (Hsame : findShape a (checkAllShapes_body r g0) = findShape a g0).
      { rewrite Hg2. apply (pda_findShape_other a r g0 Hne). }
      destruct (findShape a g0) as [s'|] eqn:Hs'.
      - apply (checkAllShapes_body_miss a s' _ Hsame).
        unfold passSelects. rewrite Hg2. cbn [pointer set_score]. rewrite pda_pointer.
        apply (Hothers s' (findShape_In _ _ _ Hs')).
        rewrite (findShape_hasRef _ _ _ Hs'). exact Hne.
      - unfold checkAllShapes_body at 1. rewrite Hsame. reflexivity. }
    rewrite Hg', H2. split; [exact Hs2|].
    intros r0 Hne. rewrite Hg2. apply (pda_findShape_other r0 r g0 Hne).
Qed.

(** The containment tests see a point up to equality of rationals. *)
Lemma Triangle_Contains_Qeq geom x y x' y' :
  x == x' -> y == y' -> Triangle_Contains geom x y = Triangle_Contains geom x' y'.
Proof.
  intros Hx Hy. destruct geom; try reflexivity.
  unfold Triangle_Contains, Qge_bool, Qlt_bool. cbv zeta.
  rewrite Hx, Hy. reflexivity.
Qed.

(** An object that is neither rotated nor scaled: its local space is the
    world moved by its position. *)
Lemma TransformXY_translation (Math_cos Math_sin : Q -> Q) x y px py rotation scale :
  Math_cos rotation == 1 -> Math_sin rotation == 0 -> scale == 1 ->
  exists lx ly,
    Math_TransformXY Math_cos Math_sin x y px py rotation scale scale = Some (lx, ly)
    /\ lx == x - px /\ ly == y - py.
Proof.
  intros Hc Hs Hk. unfold Math_TransformXY. cbv zeta.
  destruct (Qeq_bool _ 0) eqn:E.
  - exfalso. apply Qeq_bool_iff in E. rewrite Hc, Hs, Hk in E.
    vm_compute in E. discriminate E.
  - eexists. eexists. split; [reflexivity|].
    rewrite Hc, Hs, Hk. split; field.
Qed.

(** For a triangle that is neither rotated nor scaled the hover hit test
    and the containment test of the pass agree. *)
Lemma hitTest_passSelects (Math_cos Math_sin : Q -> Q) g t :
  instanceof_Triangle (sh_cls t) = true ->
  Math_cos (sh_rotation t) == 1 -> Math_sin (sh_rotation t) == 0 ->
  sh_scaleFactor t == 1 ->
  Input_hitTest Math_cos Math_sin t (fst (pointer g)) (snd (pointer g)) = passSelects g t.
Proof.
  intros Ht Hc Hs Hk. unfold Input_hitTest, passSelects, checkAllShapes_classify.
  destruct (TransformXY_translation Math_cos Math_sin (fst (pointer g)) (snd (pointer g))
              (sh_x t) (sh_y t) (sh_rotation t) (sh_scaleFactor t) Hc Hs Hk)
    as (lx & ly & -> & Hx & Hy).
  rewrite Ht. cbn [fst].
  assert (hitAreaCallback (sh_cls t) = Triangle_Contains) as ->
    by (destruct (sh_cls t); try discriminate Ht; reflexivity).
  apply Triangle_Contains_Qeq; assumption.
Qed.


(** A level with an intangible upgrade at (300, 300) and a target at
    (100, 100). *)
Definition target_level : Script :=
  [ [JNum 1];
    [JStr "intangible"; JNum 300; JNum 300; JNum 0; JNum 0; JNum 0;
     JArr []; JArr []; JArr []; JArr []];
    [JStr "triangle"; JNum 100; JNum 100; JNum 0; JNum 0; JNum 0;
     JArr []; JArr []; JArr []; JArr []] ].

Definition target_game : Game :=
  completed (Game_new [] 1) (GameScene_loadCurrentLevel (Game_new [target_level] 1)).

Definition target_game_intangible : Game :=
  set_pointer (100, 100)
    (on_keydown_E (on_pointerover 0 (set_pointer (300, 300) target_game))).


(** ** How the entity list evolves *)

(** What the per-tick update and the interactions never change in a shape:
    its address, class and label, its vertical base velocity and its
    [toBeRemoved] mark (only the end of the fade sets it); and a dying shape
    stays dying. *)
Definition keepsIdentity (s s' : Shape) : Prop :=
  sh_ref s' = sh_ref s /\ sh_cls s' = sh_cls s /\ sh_label s' = sh_label s
  /\ sh_velocityY s' = sh_velocityY s /\ sh_toBeRemoved s' = sh_toBeRemoved s
  /\ (sh_dying s = true -> sh_dying s' = true).

Definition evolves (g g' : Game) : Prop :=
  Forall2 keepsIdentity (shapes (level g)) (shapes (level g')).

Lemma keepsIdentity_refl s : keepsIdentity s s.
Proof. repeat split; auto. Qed.

Lemma keepsIdentity_trans s1 s2 s3 :
  keepsIdentity s1 s2 -> keepsIdentity s2 s3 -> keepsIdentity s1 s3.
Proof.
  intros (A1 & A2 & A3 & A4 & A5 & A6) (B1 & B2 & B3 & B4 & B5 & B6).
  repeat split; try congruence. auto.
Qed.

Lemma Forall2_refl {A : Type} (R : A -> A -> Prop) (l : list A) :
  (forall a, R a a) -> Forall2 R l l.
Proof. intros H. induction l; constructor; auto. Qed.

Lemma Forall2_trans {A : Type} (R : A -> A -> Prop) (l1 l2 l3 : list A) :
  (forall a b c, R a b -> R b c -> R a c) ->
  Forall2 R l1 l2 -> Forall2 R l2 l3 -> Forall2 R l1 l3.
Proof.
  intros HR H12. revert l3. induction H12; intros l3 H23; inversion H23; subst;
    constructor; eauto.
Qed.

Lemma evolves_refl g : evolves g g.
Proof. apply Forall2_refl, keepsIdentity_refl. Qed.

Lemma evolves_trans g1 g2 g3 : evolves g1 g2 -> evolves g2 g3 -> evolves g1 g3.
Proof. apply Forall2_trans, keepsIdentity_trans. Qed.

Lemma evolves_same_shapes g g' :
  shapes (level g') = shapes (level g) -> evolves g g'.
Proof. intros H. unfold evolves. rewrite H. apply Forall2_refl, keepsIdentity_refl. Qed.

Lemma evolves_updShape r f g :
  (forall s, keepsIdentity s (f s)) -> evolves g (updShape r f g).
Proof.
  intros Hf. unfold evolves, updShape, modShapes. cbn.
  induction (shapes (level g)) as [|s l IH]; cbn; constructor; [|exact IH].
  destruct (hasRef r s); [apply Hf | apply keepsIdentity_refl].
Qed.

Lemma evolves_refs g g' : evolves g g' -> refs g' = refs g.
Proof.
  unfold evolves, refs. intros H. induction H as [|s s' l l' Hs _ IH]; cbn;
    [reflexivity|]. destruct Hs as (-> & _). rewrite IH. reflexivity.
Qed.

Lemma evolves_In g g' s' :
  evolves g g' -> In s' (shapes (level g')) ->
  exists s, In s (shapes (level g)) /\ keepsIdentity s s'.
Proof.
  unfold evolves. intros H. induction H as [|s0 s0' l l' Hs _ IH]; cbn; [contradiction|].
  intros [<-|Hin].
  - exists s0. auto.
  - destruct (IH Hin) as (s & Hs' & Hk). exists s. auto.
Qed.

Lemma evolves_length g g' :
  evolves g g' -> List.length (shapes (level g')) = List.length (shapes (level g)).
Proof. intros H. symmetry. exact (Forall2_length H). Qed.

Ltac keepsId := let s := fresh in intros s; repeat split; auto.

(** The death animation, once more: sounds and evolution. *)
Lemma pda_sounds r g :
  sounds (Shape_performDeathAnimation r g)
  = match findShape r g with
    | Some s => if sh_dying s then sounds g
                else if Qle_bool (sh_y s) (config_height + 50) then sounds g ++ ["pop"%string]
                     else sounds g
    | None => sounds g
    end.
Proof. frame_by Shape_performDeathAnimation. Qed.

Lemma pda_evolves r g : evolves g (Shape_performDeathAnimation r g).
Proof.
  unfold evolves. rewrite pda_level.
  destruct (findShape r g) as [s|]; [|apply evolves_refl].
  destruct (sh_dying s); [apply evolves_refl|].
  apply (evolves_updShape r (set_sh_dying true) g). keepsId.
Qed.

Lemma pda_shapes_flags r g :
  levelPassableScore (level (Shape_performDeathAnimation r g)) = levelPassableScore (level g)
  /\ squaresSpared (level (Shape_performDeathAnimation r g)) = squaresSpared (level g)
  /\ architectureSpared (level (Shape_performDeathAnimation r g))
     = architectureSpared (level g)
  /\ trianglesSpared (level (Shape_performDeathAnimation r g)) = trianglesSpared (level g).
Proof. rewrite pda_level. repeat break_match; repeat split; reflexivity. Qed.

(** ** Force-clearing the level *)

Lemma Forall2_compose {A : Type} (R1 R2 R3 : A -> A -> Prop) (l1 l2 l3 : list A) :
  (forall a b c, R1 a b -> R2 b c -> R3 a c) ->
  Forall2 R1 l1 l2 -> Forall2 R2 l2 l3 -> Forall2 R3 l1 l3.
Proof.
  intros HR H12. revert l3. induction H12; intros l3 H23; inversion H23; subst;
    constructor; eauto.
Qed.

Lemma Forall2_map_r {A : Type} (R : A -> A -> Prop) (f : A -> A) (l : list A) :
  (forall a, In a l -> R a (f a)) -> Forall2 R l (map f l).
Proof.
  induction l as [|a l IH]; cbn; intros H; constructor.
  - apply H. left. reflexivity.
  - apply IH. intros b Hb. apply H. right. exact Hb.
Qed.

Lemma modShapes_absent r f l : find (hasRef r) l = None -> modShapes r f l = l.
Proof.
  induction l as [|s l IH]; cbn; [reflexivity|].
  destruct (hasRef r s) eqn:E; [discriminate|]. intros H. f_equal. exact (IH H).
Qed.

Lemma modShapes_compose r f f' l :
  keepsRef f -> modShapes r f' (modShapes r f l) = modShapes r (fun s => f' (f s)) l.
Proof.
  intros Hf. unfold modShapes. rewrite map_map. apply map_ext. intros s.
  destruct (hasRef r s) eqn:E; [|rewrite E; reflexivity].
  unfold hasRef. rewrite Hf. fold (hasRef r s). rewrite E. reflexivity.
Qed.

Lemma NoDup_ref_unique (l : list Shape) (s s' : Shape) :
  NoDup (map sh_ref l) -> In s l -> In s' l -> sh_ref s = sh_ref s' -> s = s'.
Proof.
  induction l as [|a l IH]; cbn; intros Hnd Hs Hs' E; [contradiction|].
  inversion Hnd as [|? ? Hnotin Hnd']; subst.
  destruct Hs as [->|Hs], Hs' as [->|Hs']; auto.
  - exfalso. apply Hnotin. rewrite E. apply in_map. exact Hs'.
  - exfalso. apply Hnotin. rewrite <- E. apply in_map. exact Hs.
Qed.

Lemma modShapes_ext_unique r f f' l s :
  NoDup (map sh_ref l) -> find (hasRef r) l = Some s -> f s = f' s ->
  modShapes r f l = modShapes r f' l.
Proof.
  intros Hnd Hfind E. unfold modShapes. apply map_ext_in. intros a Ha.
  destruct (hasRef r a) eqn:Hr; [|reflexivity].
  apply find_some in Hfind as [Hs Hrs].
  apply Nat.eqb_eq in Hr, Hrs.
  rewrite (NoDup_ref_unique l a s Hnd Ha Hs) by congruence. exact E.
Qed.

(** What [clearShapesNoSound] does to one shape. *)
Definition clearOne (s : Shape) : Shape :=
  let s1 := set_sh_y (config_height + 100) s in
  if sh_toBeRemoved s1 then s1 else if sh_dying s1 then s1 else set_sh_dying true s1.

Definition clearStep (r : nat) (acc : Game) : Game :=
  let acc1 := updShape r (set_sh_y (config_height + 100)) acc in
  match findShape r acc1 with
  | Some s => if sh_toBeRemoved s then acc1 else Level_removeShape r acc1
  | None => acc1
  end.

Lemma clearShapesNoSound_fold g :
  Level_clearShapesNoSound g = fold_left (fun acc r => clearStep r acc) (refs g) g.
Proof. reflexivity. Qed.

Lemma clearStep_level r acc :
  NoDup (refs acc) ->
  level (clearStep r acc)
  = set_shapes (modShapes r clearOne (shapes (level acc))) (level acc).
Proof.
  intros Hnd. unfold clearStep.
  set (sety := set_sh_y (config_height + 100)).
  assert (Hk : keepsRef sety) by keeps.
  unfold findShape at 1. cbn [updShape updLevel level set_level shapes set_shapes].
  rewrite (find_modShapes r r sety _ Hk).
  destruct (find (hasRef r) (shapes (level acc))) as [s|] eqn:Hfind; cbn [option_map].
  - pose proof Hfind as Hfind'. apply find_some in Hfind' as [_ Hr]. rewrite Hr.
    destruct (sh_toBeRemoved (sety s)) eqn:Htbr.
    + cbn [updShape updLevel level set_level shapes set_shapes]. f_equal.
      apply (modShapes_ext_unique r _ _ _ s Hnd Hfind).
      unfold clearOne. fold sety. rewrite Htbr. reflexivity.
    + unfold Level_removeShape. rewrite pda_level.
      rewrite (findShape_updShape_same r sety acc s Hk Hfind).
      destruct (sh_dying (sety s)) eqn:Hd.
      * cbn [updShape updLevel level set_level shapes set_shapes]. f_equal.
        apply (modShapes_ext_unique r _ _ _ s Hnd Hfind).
        unfold clearOne. fold sety. rewrite Htbr, Hd. reflexivity.
      * cbn [updShape updLevel level set_level shapes set_shapes].
        rewrite (modShapes_compose r sety _ _ Hk).
        change (set_shapes ?a (set_shapes ?b ?l)) with (set_shapes a l).
        f_equal.
        apply (modShapes_ext_unique r _ _ _ s Hnd Hfind).
        unfold clearOne. fold sety. rewrite Htbr, Hd. reflexivity.
  - cbn [updShape updLevel level set_level shapes set_shapes].
    rewrite !modShapes_absent by exact Hfind. reflexivity.
Qed.

Lemma clearStep_frame r acc :
  score (clearStep r acc) = score acc
  /\ sounds (clearStep r acc) = sounds acc
  /\ events (clearStep r acc) = events acc
  /\ healthBar (clearStep r acc) = healthBar acc
  /\ pointer (clearStep r acc) = pointer acc.
Proof.
  unfold clearStep.
  set (sety := set_sh_y (config_height + 100)).
  destruct (findShape r (updShape r sety acc)) as [s|] eqn:Hfind;
    [|repeat split; reflexivity].
  destruct (sh_toBeRemoved s); [repeat split; reflexivity|].
  unfold Level_removeShape.
  rewrite pda_score, pda_sounds, pda_events, pda_healthBar, pda_pointer, Hfind.
  assert (Hy : sh_y s = config_height + 100).
  { unfold findShape, updShape in Hfind. cbn in Hfind.
    rewrite (find_modShapes r r sety) in Hfind by keeps.
    destruct (find (hasRef r) (shapes (level acc))) as [s0|] eqn:H0; [|discriminate].
    cbn in Hfind. apply find_some in H0 as [_ H0]. rewrite H0 in Hfind.
    injection Hfind as <-. reflexivity. }
  rewrite Hy. repeat split; try reflexivity.
  destruct (sh_dying s); reflexivity.
Qed.

Lemma clearOne_keepsRef : keepsRef clearOne.
Proof. intros s. unfold clearOne. cbn. repeat break_match; reflexivity. Qed.

Lemma refs_modShapes r f l : keepsRef f -> map sh_ref (modShapes r f l) = map sh_ref l.
Proof.
  intros Hf. unfold modShapes. rewrite map_map. apply map_ext. intros s.
  destruct (hasRef r s); [apply Hf | reflexivity].
Qed.

Definition clearIn (rs : list nat) (s : Shape) : Shape :=
  if existsb (Nat.eqb (sh_ref s)) rs then clearOne s else s.

Lemma clearFold_spec (rs : list nat) (acc : Game) :
  NoDup rs -> NoDup (refs acc) ->
  let acc' := fold_left (fun a r => clearStep r a) rs acc in
  level acc' = set_shapes (map (clearIn rs) (shapes (level acc))) (level acc)
  /\ score acc' = score acc /\ sounds acc' = sounds acc /\ events acc' = events acc
  /\ healthBar acc' = healthBar acc /\ pointer acc' = pointer acc.
Proof.
  revert acc. induction rs as [|r rs IH]; intros acc Hrs Hnd; cbn [fold_left].
  - split; [|repeat split; reflexivity].
    unfold clearIn. cbn. rewrite map_id. destruct (level acc); reflexivity.
  - inversion Hrs as [|? ? Hnotin Hrs']; subst.
    pose proof (clearStep_level r acc Hnd) as Hl.
    destruct (clearStep_frame r acc) as (Hs & Hso & He & Hh & Hp).
    assert (Hnd1 : NoDup (refs (clearStep r acc))).
    { unfold refs. rewrite Hl. cbn. rewrite refs_modShapes by apply clearOne_keepsRef.
      exact Hnd. }
    destruct (IH (clearStep r acc) Hrs' Hnd1) as (Hl' & Hs' & Hso' & He' & Hh' & Hp').
    rewrite Hl', Hs', Hso', He', Hh', Hp', Hl. cbn [shapes set_shapes].
    split; [|repeat split; assumption].
    change (set_shapes ?a (set_shapes ?b ?l)) with (set_shapes a l). f_equal.
    unfold modShapes. rewrite map_map. apply map_ext. intros s.
    unfold clearIn, hasRef. cbn [existsb].
    destruct (Nat.eqb (sh_ref s) r) eqn:E.
    + rewrite clearOne_keepsRef. cbn.
      assert (existsb (Nat.eqb (sh_ref s)) rs = false) as ->; [|reflexivity].
      apply Nat.eqb_eq in E. rewrite E.
      destruct (existsb (Nat.eqb r) rs) eqn:Hex; [|reflexivity].
      apply existsb_exists in Hex as (x & Hx & Hxr). apply Nat.eqb_eq in Hxr. subst x.
      contradiction.
    + cbn. reflexivity.
Qed.

(** [clearShapesNoSound] moves every shape below the death plane and starts
    the removal of every shape that is not yet marked; it plays no sound,
    whatever the positions were. *)
Lemma clearShapesNoSound_spec (g : Game) :
  NoDup (refs g) ->
  let g' := Level_clearShapesNoSound g in
  level g' = set_shapes (map clearOne (shapes (level g))) (level g)
  /\ score g' = score g /\ sounds g' = sounds g /\ events g' = events g
  /\ healthBar g' = healthBar g /\ pointer g' = pointer g.
Proof.
  intros Hnd. cbv zeta. rewrite clearShapesNoSound_fold.
  destruct (clearFold_spec (refs g) g Hnd Hnd) as (Hl & Hrest).
  split; [|exact Hrest]. rewrite Hl. f_equal. apply map_ext_in. intros s Hs.
  unfold clearIn. rewrite existsb_eqb_In; [reflexivity|]. apply in_map. exact Hs.
Qed.

(** ** The resource zone *)

Definition cleared (s : Shape) : Prop :=
  sh_y s = config_height + 100 /\ (sh_dying s = true \/ sh_toBeRemoved s = true).

Lemma clearOne_cleared s : cleared (clearOne s).
Proof.
  unfold cleared, clearOne. cbn.
  destruct (sh_toBeRemoved s) eqn:Ht; cbn; [auto|].
  destruct (sh_dying s) eqn:Hd; cbn; auto.
Qed.

Lemma findTween_tween_stop h g : findTween h (tween_stop h g) = None.
Proof.
  unfold findTween, tween_stop. cbn.
  induction (tweens g) as [|t l IH]; cbn; [reflexivity|].
  destruct (Nat.eqb (tw_handle t) h) eqn:E; cbn; [exact IH|]. rewrite E. exact IH.
Qed.

Lemma refill_healthBar g :
  healthBar (HealthBar_refillAndPauseHealthBar g)
  = mkHealthBar false None 1 0 (hb_fillAlpha (healthBar g))
      (hb_backgroundAlpha (healthBar g)).
Proof.
  unfold HealthBar_refillAndPauseHealthBar. cbn.
  destruct (hb_dyingTween (healthBar g)) eqn:E;
    unfold set_hb_fillX, set_hb_fillScaleX, set_hb_dying, set_hb_dyingTween; cbn;
    try rewrite E; reflexivity.
Qed.

Lemma refill_stops_depletion g h :
  hb_dyingTween (healthBar g) = Some h ->
  findTween h (HealthBar_refillAndPauseHealthBar g) = None.
Proof.
  intros H. unfold HealthBar_refillAndPauseHealthBar. cbn. rewrite H.
  apply (findTween_tween_stop h).
Qed.

(** A level with a resource zone at (100, 100) and a target at (300, 50). *)
Definition area_level : Script :=
  [ [JNum 0];
    [JStr "area"; JNum 100; JNum 100; JNum 0; JNum 0; JNum 0;
     JArr []; JArr []; JArr []; JArr []];
    [JStr "triangle"; JNum 300; JNum 50; JNum 0; JNum 0; JNum 0;
     JArr []; JArr []; JArr []; JArr []] ].

Definition area_game : Game :=
  completed (Game_new [] 1) (GameScene_loadCurrentLevel (Game_new [area_level] 1)).

(** The claim as worded has the hover hold the bar at its current level
    and sweep it back to full over four seconds.  With the bar half
    depleted, the hover sets it to full at once and leaves no tween on the
    bar behind. *)
Lemma C10_hover_refills_at_once :
  let g1 := Level_update 8 area_game in
  let g2 := tweenUpdate 0 (1 # 2) g1 in
  let g3 := set_level (set_intangible true (level g2)) g2 in
  let g4 := on_pointerover 0 g3 in
  hb_dyingTween (healthBar g1) = Some 0%nat
  /\ Qeq_bool (hb_fillScaleX (healthBar g2)) (1 # 2) = true
  /\ hb_fillScaleX (healthBar g4) = 1
  /\ existsb (fun t => match tw_kind t with TwHealthDying _ => true | _ => false end)
       (tweens g4) = false.
Proof. vm_compute. repeat split. Qed.

(** C10 (amended).  A hover on the resource zone, whether or not
    intangibility is active, stops the depletion and sets the bar to full at
    once, leaving score and level as they are.  When the hover ends a
    depletion tween of 4000 ms starts from the current fill.  When a
    depletion tween completes, every live entity is moved below the death
    plane and its removal started, without sound, and the score is set to
    zero. *)
Theorem C10_resource_zone :
  (forall g r s,
      findShape r g = Some s -> sh_label s = "area"%string ->
      let g' := on_pointerover r g in
      healthBar g' = mkHealthBar false None 1 0 (hb_fillAlpha (healthBar g))
                       (hb_backgroundAlpha (healthBar g))
      /\ (forall h, hb_dyingTween (healthBar g) = Some h -> findTween h g' = None)
      /\ score g' = score g /\ level g' = level g)
  /\ (forall g r s,
        findShape r g = Some s -> sh_label s = "area"%string ->
        let g' := on_pointerout r g in
        hb_dying (healthBar g') = true
        /\ exists h, hb_dyingTween (healthBar g') = Some h
             /\ In (mkTween h (TwHealthDying (hb_fillScaleX (healthBar g))) 4000 0 1 0 false)
                  (tweens g'))
  /\ (forall g h t from,
        NoDup (refs g) -> findTween h g = Some t -> tw_kind t = TwHealthDying from ->
        let g' := tweenComplete h g in
        score g' = 0%Z
        /\ shapes (level g') = map clearOne (shapes (level g))
        /\ (forall s, In s (shapes (level g')) -> cleared s)
        /\ sounds g' = sounds g).
Proof.
  split; [|split].
  - intros g r s H Hl g'. unfold g', on_pointerover. rewrite H, Hl.
    unfold Level_handleShapeInteraction. rewrite H. cbn [String.eqb Ascii.eqb Bool.eqb].
    rewrite refill_healthBar, refill_score, refill_level.
    split; [reflexivity|]. split; [|split; reflexivity].
    intros h. apply refill_stops_depletion.
  - intros g r s H Hl g'. unfold g', on_pointerout. rewrite H, Hl.
    cbn [String.eqb Ascii.eqb Bool.eqb].
    unfold HealthBar_decreaseHealthBar. cbn.
    destruct (hb_dyingTween (healthBar g)) as [h0|]; cbn.
    + split; [reflexivity|]. eexists. split; [reflexivity|].
      apply in_or_app. right. left. reflexivity.
    + split; [reflexivity|]. eexists. split; [reflexivity|].
      apply in_or_app. right. left. reflexivity.
  - intros g h t from Hnd Hf Hk g'. unfold g', tweenComplete. rewrite Hf, Hk.
    unfold tweenUpdate. rewrite Hf, Hk.
    match goal with
    | |- context [Level_clearShapesNoSound ?g2] =>
        destruct (clearShapesNoSound_spec g2 Hnd) as (Hl & _ & Hso & _)
    end.
    cbn [score set_score level sounds]. rewrite Hl, Hso.
    split; [reflexivity|]. split; [reflexivity|]. split; [|reflexivity].
    cbn [shapes set_shapes]. intros s Hs. apply in_map_iff in Hs as (s0 & <- & _).
    apply clearOne_cleared.
Qed.

Lemma C10_resource_zone_witness :
  let g := Level_update 8 area_game in
  hb_fillScaleX (healthBar (on_pointerover 0 g)) = 1
  /\ score (tweenComplete 0 g) = 0%Z.
Proof.
  intros g. destruct C10_resource_zone as (Hover & _ & Hdone). split.
  - pose (s := Shape_update 1 1 8
                 (Shape_new 0 Area 0 "area" 100 100 0 0 0 Square_geom)).
    assert (Hf : findShape 0 g = Some s) by (vm_compute; reflexivity).
    destruct (Hover g 0%nat s Hf eq_refl) as (Hhb & _). rewrite Hhb. reflexivity.
  - assert (Hnd : NoDup (refs g)).
    { vm_compute. repeat constructor; cbn; intuition discriminate. }
    assert (Hf : findTween 0 g = Some (mkTween 0 (TwHealthDying 1) 4000 0 1 0 false))
      by (vm_compute; reflexivity).
    exact (proj1 (Hdone g 0%nat _ 1 Hnd Hf eq_refl)).
Defined.

(** ** The per-tick update *)

Lemma decrease_level g : level (HealthBar_decreaseHealthBar g) = level g.
Proof.
  unfold HealthBar_decreaseHealthBar, tweens_add. cbn.
  destruct (hb_dyingTween (healthBar g)); reflexivity.
Qed.
Lemma decrease_score g : score (HealthBar_decreaseHealthBar g) = score g.
Proof.
  unfold HealthBar_decreaseHealthBar, tweens_add. cbn.
  destruct (hb_dyingTween (healthBar g)); reflexivity.
Qed.
Lemma decrease_sounds g : sounds (HealthBar_decreaseHealthBar g) = sounds g.
Proof.
  unfold HealthBar_decreaseHealthBar, tweens_add. cbn.
  destruct (hb_dyingTween (healthBar g)); reflexivity.
Qed.

Lemma hide_level g : level (HealthBar_hideHealthBar g) = level g.
Proof. unfold HealthBar_hideHealthBar. rewrite refill_level. reflexivity. Qed.
Lemma hide_score g : score (HealthBar_hideHealthBar g) = score g.
Proof. unfold HealthBar_hideHealthBar. rewrite refill_score. reflexivity. Qed.
Lemma hide_sounds g : sounds (HealthBar_hideHealthBar g) = sounds g.
Proof. unfold HealthBar_hideHealthBar. rewrite refill_sounds. reflexivity. Qed.

Lemma show_level g : level (HealthBar_showHealthBar g) = level g.
Proof.
  unfold HealthBar_showHealthBar. destruct (Qeq_bool _ _); [reflexivity|].
  cbn. apply decrease_level.
Qed.
Lemma show_score g : score (HealthBar_showHealthBar g) = score g.
Proof.
  unfold HealthBar_showHealthBar. destruct (Qeq_bool _ _); [reflexivity|].
  cbn. apply decrease_score.
Qed.
Lemma show_sounds g : sounds (HealthBar_showHealthBar g) = sounds g.
Proof.
  unfold HealthBar_showHealthBar. destruct (Qeq_bool _ _); [reflexivity|].
  cbn. apply decrease_sounds.
Qed.

Ltac peel :=
  cbn [time_delayedCall time_addEvent snd fst level score sounds events
       set_nextHandle set_pendingInsertion set_events set_sounds set_level set_score
       updLevel sound_play shapes set_messageText set_showAreaHP set_shapes].

Lemma unlock_sounds n g : sounds (GameScene_unlockAchievement n g) = sounds g.
Proof. frame_by GameScene_unlockAchievement. Qed.

Lemma checkLevelCleared_shapes g :
  shapes (level (Level_checkLevelCleared g)) = shapes (level g).
Proof.
  unfold Level_checkLevelCleared. destruct (shapes (level g)) eqn:E; [|exact E].
  cbv zeta.
  set (g4 := HealthBar_hideHealthBarInstant _).
  assert (H4 : shapes (level g4) = []).
  { unfold g4. rewrite hideInstant_level.
    change (shapes (level (stopSceneTween Fade
              (stopSceneTween IntangibleOut (stopSceneTween IntangibleIn g)))) = []).
    rewrite !stopSceneTween_level. exact E. }
  clearbody g4.
  set (c := Qge_bool _ _). clearbody c.
  set (g5 := if negb (squaresSpared (level g4)) && negb (architectureSpared (level g4))
             then _ else g4).
  assert (H5 : shapes (level g5) = []).
  { unfold g5. destruct (_ && _); [|exact H4]. cbv zeta.
    destruct (negb _); rewrite ?unlock_level; exact H4. }
  clearbody g5.
  destruct (negb c); exact H5.
Qed.

Lemma checkLevelCleared_sounds g :
  exists extra, sounds (Level_checkLevelCleared g) = sounds g ++ extra
                /\ ~ In "pop"%string extra.
Proof.
  unfold Level_checkLevelCleared. destruct (shapes (level g)).
  - cbv zeta. peel.
    repeat match goal with
           | |- context [if ?c then _ else _] => destruct c
           end; peel;
      rewrite ?unlock_sounds, ?hideInstant_sounds; peel;
      rewrite ?stopSceneTween_sounds;
      eexists; (split; [reflexivity|]); cbn; intuition discriminate.
  - exists []. rewrite app_nil_r. split; [reflexivity | intros []].
Qed.

(** What makes [onlyArchitecture] stay true at a shape. *)
Definition staticShape (s : Shape) : bool :=
  (instanceof_Architecture (sh_cls s) || instanceof_Area (sh_cls s))
  && negb (instanceof_Architecture (sh_cls s) && Qgt_bool (sh_velocityY s) 0).

Lemma Shape_update_keepsIdentity D T delta s : keepsIdentity s (Shape_update D T delta s).
Proof. repeat split; auto. Qed.

Lemma staticShape_keepsIdentity s s' :
  keepsIdentity s s' -> staticShape s' = staticShape s.
Proof. intros (_ & Hc & _ & Hv & _). unfold staticShape. rewrite Hc, Hv. reflexivity. Qed.

(** One round of the loop of [Level.update]: no sound, no score change, the
    shapes keep their identity, and the flag goes to false exactly at a
    shape that is not static. *)
Lemma Level_update_body_spec delta r only g :
  let res := Level_update_body delta r (only, g) in
  evolves g (snd res)
  /\ sounds (snd res) = sounds g
  /\ score (snd res) = score g
  /\ (forall s, findShape r g = Some s -> fst res = only && staticShape s)
  /\ (findShape r g = None -> fst res = only).
Proof.
  cbv zeta. unfold Level_update_body.
  set (upd := Shape_update (difficultyAdjustment g) (slowtimeFactor g) delta).
  assert (Hk : keepsRef upd) by keeps.
  pose proof (evolves_updShape r upd g (Shape_update_keepsIdentity _ _ _)) as Hev1.
  destruct (findShape r g) as [s0|] eqn:H0.
  - rewrite (findShape_updShape_same r upd g s0 Hk H0).
    set (shape := upd s0). set (g1 := updShape r upd g) in *.
    assert (Hst : (if negb (instanceof_Architecture (sh_cls shape)
                            || instanceof_Area (sh_cls shape)) then false
                   else if instanceof_Architecture (sh_cls shape)
                           && Qgt_bool (sh_velocityY shape) 0 then false
                   else only) = only && staticShape s0).
    { unfold staticShape. change (sh_cls shape) with (sh_cls s0).
      change (sh_velocityY shape) with (sh_velocityY s0).
      destruct (instanceof_Architecture (sh_cls s0) || instanceof_Area (sh_cls s0));
        cbn; [|rewrite andb_false_r; reflexivity].
      destruct (instanceof_Architecture (sh_cls s0) && Qgt_bool (sh_velocityY s0) 0);
        cbn; [rewrite andb_false_r|rewrite andb_true_r]; reflexivity. }
    rewrite Hst.
    destruct (sh_dying shape) eqn:Hd; cbn [fst snd].
    { split; [exact Hev1|]. split; [reflexivity|]. split; [reflexivity|].
      split; [intros s Hs; injection Hs as <-; reflexivity | discriminate]. }
    match goal with
    | |- context [if instanceof_Area (sh_cls shape) then
                    if _ then updLevel _ (HealthBar_showHealthBar ?g2) else _ else _] =>
        set (G2 := g2)
    end.
    assert (H2 : evolves g G2 /\ sounds G2 = sounds g /\ score G2 = score g).
    { unfold G2. destruct (Qgt_bool (sh_y shape) (config_height + 50)) eqn:Hy;
        [|split; [exact Hev1 | split; reflexivity]].
      assert (Hpda : evolves g (Level_removeShape r g1)
                     /\ sounds (Level_removeShape r g1) = sounds g
                     /\ score (Level_removeShape r g1) = score g).
      { unfold Level_removeShape. split; [|split].
        - apply (evolves_trans _ g1); [exact Hev1 | apply pda_evolves].
        - rewrite pda_sounds. unfold g1.
          rewrite (findShape_updShape_same r upd g s0 Hk H0). fold shape. rewrite Hd.
          unfold Qgt_bool, Qlt_bool in Hy. apply negb_true_iff in Hy. rewrite Hy.
          reflexivity.
        - rewrite pda_score. reflexivity. }
      destruct Hpda as (He & Hso & Hsc).
      assert (Hflags : forall g', evolves g g' /\ sounds g' = sounds g /\ score g' = score g ->
                forall f, (forall l, shapes (f l) = shapes l) ->
                  evolves g (updLevel f g') /\ sounds (updLevel f g') = sounds g
                  /\ score (updLevel f g') = score g).
      { intros g' (A & B & C) f Hf. split; [|split; assumption].
        apply (evolves_trans _ g'); [exact A|]. apply evolves_same_shapes. cbn. apply Hf. }
      repeat match goal with
             | |- context [if ?c then _ else _] => destruct c
             end;
        rewrite ?hide_level, ?hide_sounds, ?hide_score;
        repeat first
          [ apply Hflags; [|intros l; reflexivity]
          | split; [apply (evolves_trans _ _ _ He), evolves_same_shapes;
                    rewrite ?hide_level; reflexivity
                   | split; rewrite ?hide_sounds, ?hide_score; assumption] ];
        try (split; [exact He | split; assumption]). }
    destruct H2 as (He2 & Hso2 & Hsc2).
    assert (H3 : forall G3,
               G3 = (if instanceof_Area (sh_cls shape) then
                       if Qgt_bool (sh_y shape) 0 && negb (showAreaHP (level G2))
                       then updLevel (set_showAreaHP true) (HealthBar_showHealthBar G2)
                       else G2
                     else G2) ->
               evolves g G3 /\ sounds G3 = sounds g /\ score G3 = score g).
    { intros G3 ->. destruct (instanceof_Area (sh_cls shape)); [|auto].
      destruct (Qgt_bool (sh_y shape) 0 && negb (showAreaHP (level G2))); [|auto].
      peel. rewrite show_sounds, show_score.
      split; [|auto]. apply (evolves_trans _ _ _ He2), evolves_same_shapes.
      peel. rewrite show_level. reflexivity. }
    destruct (H3 _ eq_refl) as (He3 & Hso3 & Hsc3).
    split; [exact He3|]. split; [exact Hso3|]. split; [exact Hsc3|].
    split; [intros s Hs; injection Hs as <-; reflexivity | discriminate].
  - rewrite (findShape_updShape_none r r upd g Hk H0). cbn [fst snd].
    split; [exact Hev1|]. split; [reflexivity|]. split; [reflexivity|].
    split; [discriminate | reflexivity].
Qed.

Lemma update_loop_spec delta (rs : list nat) (only : bool) (g : Game) :
  let res := fold_left (fun acc r => Level_update_body delta r acc) rs (only, g) in
  evolves g (snd res)
  /\ sounds (snd res) = sounds g
  /\ score (snd res) = score g
  /\ ((forall s, In s (shapes (level g)) -> staticShape s = true) -> fst res = only).
Proof.
  revert only g. induction rs as [|r rs IH]; intros only g; cbn [fold_left].
  - cbn. split; [apply evolves_refl|]. auto.
  - destruct (Level_update_body_spec delta r only g) as (He & Hso & Hsc & Hfound & Hnone).
    destruct (Level_update_body delta r (only, g)) as [only1 g1] eqn:Hbody.
    cbn [fst snd] in *.
    destruct (IH only1 g1) as (He' & Hso' & Hsc' & Honly').
    split; [exact (evolves_trans _ _ _ He He')|].
    split; [congruence|]. split; [congruence|].
    intros Hall. rewrite Honly'.
    + destruct (findShape r g) as [s|] eqn:Hs; [|apply Hnone; reflexivity].
      rewrite (Hfound s eq_refl), (Hall s (findShape_In _ _ _ Hs)). apply andb_true_r.
    + intros s1 Hs1. destruct (evolves_In _ _ _ He Hs1) as (s0 & Hs0 & Hk).
      rewrite (staticShape_keepsIdentity _ _ Hk). apply Hall. exact Hs0.
Qed.

Lemma clearStep_evolves r acc : evolves acc (clearStep r acc).
Proof.
  unfold clearStep.
  assert (H1 : evolves acc (updShape r (set_sh_y (config_height + 100)) acc)).
  { apply evolves_updShape. keepsId. }
  destruct (findShape r _) as [s|]; [|exact H1].
  destruct (sh_toBeRemoved s); [exact H1|].
  apply (evolves_trans _ _ _ H1). apply pda_evolves.
Qed.

Lemma clearShapesNoSound_evolves g : evolves g (Level_clearShapesNoSound g).
Proof.
  rewrite clearShapesNoSound_fold.
  apply (fold_left_invariant (evolves g)); [apply evolves_refl|].
  intros r acc _ Hacc. apply (evolves_trans _ _ _ Hacc), clearStep_evolves.
Qed.

Definition purge (g : Game) : Game :=
  updLevel (fun l => set_shapes (filter (fun s => negb (sh_toBeRemoved s)) (shapes l)) l) g.

(** The shape of [Level.update]: the loop and the optional force-clear
    evolve the shapes, then the purge filters them. *)
Lemma Level_update_shapes delta g :
  exists gm, evolves g gm
    /\ shapes (level (Level_update delta g))
       = filter (fun s => negb (sh_toBeRemoved s)) (shapes (level gm)).
Proof.
  unfold Level_update.
  destruct (update_loop_spec delta (refs g) true g) as (He & _).
  fold (refs g).
  destruct (fold_left _ (refs g) (true, g)) as [only g1]. cbn [snd] in He.
  set (g2 := if only then Level_clearShapesNoSound (updLevel (set_architectureSpared true) g1)
             else g1).
  assert (He2 : evolves g g2).
  { unfold g2. destruct only; [|exact He].
    apply (evolves_trans _ _ _ He).
    apply (evolves_trans _ (updLevel (set_architectureSpared true) g1));
      [apply evolves_same_shapes; reflexivity | apply clearShapesNoSound_evolves]. }
  exists g2. split; [exact He2|].
  cbv zeta. fold (purge g2).
  destruct (_ <? _)%nat; [rewrite checkLevelCleared_shapes|]; reflexivity.
Qed.

(** No entity marked [toBeRemoved] survives an update. *)
Lemma Level_update_purges delta g s :
  In s (shapes (level (Level_update delta g))) -> sh_toBeRemoved s = false.
Proof.
  destruct (Level_update_shapes delta g) as (gm & _ & ->).
  intros H. apply filter_In in H as [_ H]. apply negb_true_iff in H. exact H.
Qed.

Lemma Level_update_purged_ref delta g s :
  NoDup (refs g) -> In s (shapes (level g)) -> sh_toBeRemoved s = true ->
  ~ In (sh_ref s) (refs (Level_update delta g)).
Proof.
  intros Hnd Hs Ht Hin. unfold refs in Hin. apply in_map_iff in Hin as (s' & Href & Hs').
  pose proof (Level_update_purges delta g s' Hs') as Hfalse.
  destruct (Level_update_shapes delta g) as (gm & He & Heq).
  rewrite Heq in Hs'. apply filter_In in Hs' as [Hs' _].
  destruct (evolves_In _ _ _ He Hs') as (s0 & Hs0 & (Hr & _ & _ & _ & Htb & _)).
  assert (s0 = s) by (apply (NoDup_ref_unique _ _ _ Hnd Hs0 Hs); congruence).
  subst s0. congruence.
Qed.

(** The end of the fade marks the shape. *)
Lemma tweenComplete_death h t r s g :
  findTween h g = Some t -> tw_kind t = TwDeath r -> findShape r g = Some s ->
  findShape r (tweenComplete h g) = Some (set_sh_toBeRemoved true s)
  /\ refs (tweenComplete h g) = refs g.
Proof.
  intros Ht Hk Hs. unfold tweenComplete, tweenUpdate. rewrite Ht, Hk. split.
  - apply (findShape_updShape_same r (set_sh_toBeRemoved true) (tween_stop h g) s);
      [keeps | exact Hs].
  - apply (refs_updShape r (set_sh_toBeRemoved true) (tween_stop h g)). keeps.
Qed.

(** Purging shapes keeps their addresses distinct. *)
Lemma refs_filter_NoDup (keep : Shape -> bool) (shs : list Shape) :
  NoDup (map sh_ref shs) -> NoDup (map sh_ref (filter keep shs)).
Proof.
  induction shs as [|s shs IH]; cbn; intros H; [constructor|].
  inversion H as [|? ? Hnotin Hnd]; subst.
  destruct (keep s); cbn; [constructor|]; auto.
  intros Hin. apply Hnotin. apply in_map_iff in Hin as (x & Hx & Hin).
  apply filter_In in Hin as [Hin _]. rewrite <- Hx. apply in_map. exact Hin.
Qed.

Lemma Level_update_NoDup delta g : NoDup (refs g) -> NoDup (refs (Level_update delta g)).
Proof.
  intros Hnd. destruct (Level_update_shapes delta g) as (gm & He & Heq).
  unfold refs. rewrite Heq. apply refs_filter_NoDup.
  change (NoDup (refs gm)). rewrite (evolves_refs _ _ He). exact Hnd.
Qed.

Lemma filter_all {A : Type} (p : A -> bool) (l : list A) :
  (forall a, In a l -> p a = true) -> filter p l = l.
Proof.
  induction l as [|a l IH]; cbn; intros H; [reflexivity|].
  rewrite (H a (or_introl eq_refl)). f_equal. apply IH. intros b Hb. apply H. right. exact Hb.
Qed.

Lemma clearOne_toBeRemoved s : sh_toBeRemoved (clearOne s) = sh_toBeRemoved s.
Proof.
  unfold clearOne. cbn.
  destruct (sh_toBeRemoved s) eqn:Ht; [exact Ht|].
  destruct (sh_dying s); exact Ht.
Qed.

(** A level with one static obstacle and nothing else. *)
Definition obstacle_level : Script :=
  [ [JNum 0];
    [JStr "wall"; JArr [JPoint 0 300; JPoint 200 300; JPoint 200 350; JPoint 0 350]; JNum 0] ].

Definition obstacle_game : Game :=
  completed (Game_new [] 1) (GameScene_loadCurrentLevel (Game_new [obstacle_level] 1)).

(** The claim as worded has the entity count at 0 when the update call
    returns.  The call leaves the obstacle in the list, dying; the list is
    empty after the update that follows the end of its fade. *)
Lemma C8_count_after_one_update :
  let g1 := Level_update 8 obstacle_game in
  let g2 := Level_update 8 (tweenComplete 0 g1) in
  List.length (shapes (level obstacle_game)) = 1%nat
  /\ List.length (shapes (level g1)) = 1%nat
  /\ map sh_dying (shapes (level g1)) = [true]
  /\ map tw_kind (tweens g1) = [TwDeath 0]
  /\ List.length (shapes (level g2)) = 0%nat.
Proof. vm_compute. repeat split. Qed.

(** C8 (amended).  When every live entity is a static obstacle without
    downward velocity or a resource zone, the update call, without any
    pointer interaction, moves every entity it keeps below the death plane
    and leaves it dying, and plays no removal sound.  The entity list does
    not shrink in that call when no entity was marked as removed before it:
    an entity leaves the list in the update that follows the end of its
    fade. *)
Theorem C8_force_clear :
  forall (g : Game) (delta : Q),
    NoDup (refs g) ->
    (forall s, In s (shapes (level g)) -> staticShape s = true) ->
    let g' := Level_update delta g in
    (forall s, In s (shapes (level g')) ->
               sh_dying s = true /\ sh_y s = config_height + 100)
    /\ (exists extra, sounds g' = sounds g ++ extra /\ ~ In "pop"%string extra)
    /\ ((forall s, In s (shapes (level g)) -> sh_toBeRemoved s = false) ->
        refs g' = refs g)
    /\ (forall h t r s delta',
          findTween h g' = Some t -> tw_kind t = TwDeath r -> findShape r g' = Some s ->
          ~ In r (refs (Level_update delta' (tweenComplete h g')))).
Proof.
  intros g delta Hnd Hstatic g'.
  assert (Hshape : exists (g1 : Game) (only : bool),
            evolves g g1 /\ sounds g1 = sounds g
            /\ g' = (let g3 := purge (Level_clearShapesNoSound
                                         (updLevel (set_architectureSpared true) g1)) in
                     if only then Level_checkLevelCleared g3 else g3)).
  { unfold g', Level_update. fold (refs g).
    destruct (update_loop_spec delta (refs g) true g) as (He & Hso & _ & Honly).
    destruct (fold_left _ (refs g) (true, g)) as [only g1]. cbn [fst snd] in *.
    rewrite (Honly Hstatic). exists g1. eexists. split; [exact He|]. split; [exact Hso|].
    reflexivity. }
  destruct Hshape as (g1 & only & He & Hso & Hg').
  set (g1' := updLevel (set_architectureSpared true) g1) in *.
  assert (Hnd1 : NoDup (refs g1')).
  { change (refs g1') with (refs g1). rewrite (evolves_refs _ _ He). exact Hnd. }
  destruct (clearShapesNoSound_spec g1' Hnd1) as (Hl & _ & Hso2 & _).
  assert (Hshapes : shapes (level g')
                    = filter (fun s => negb (sh_toBeRemoved s))
                        (map clearOne (shapes (level g1)))).
  { rewrite Hg'. cbv zeta. destruct only; [rewrite checkLevelCleared_shapes|];
      unfold purge; cbn [updLevel level set_level shapes set_shapes]; rewrite Hl; reflexivity. }
  split; [|split; [|split]].
  - intros s Hs. rewrite Hshapes in Hs. apply filter_In in Hs as [Hs Ht].
    apply in_map_iff in Hs as (s0 & <- & _). apply negb_true_iff in Ht.
    destruct (clearOne_cleared s0) as [Hy [Hd|Hd]]; [auto|].
    rewrite Hd in Ht. discriminate Ht.
  - assert (Hs3 : sounds (purge (Level_clearShapesNoSound g1')) = sounds g).
    { unfold purge. cbn [updLevel sounds set_level]. rewrite Hso2. exact Hso. }
    rewrite Hg'. cbv zeta. destruct only.
    + destruct (checkLevelCleared_sounds (purge (Level_clearShapesNoSound g1')))
        as (extra & Hex & Hpop).
      exists extra. rewrite Hex, Hs3. auto.
    + exists []. rewrite app_nil_r. split; [exact Hs3 | intros []].
  - intros Hnone. unfold refs at 1. rewrite Hshapes, filter_all.
    + rewrite map_map. rewrite <- (evolves_refs _ _ He). unfold refs.
      apply map_ext. apply clearOne_keepsRef.
    + intros s Hs. apply in_map_iff in Hs as (s1 & <- & Hs1).
      rewrite clearOne_toBeRemoved.
      destruct (evolves_In _ _ _ He Hs1) as (s0 & Hs0 & (_ & _ & _ & _ & Htb & _)).
      rewrite Htb, (Hnone s0 Hs0). reflexivity.
  - intros h t r s delta' Ht Hk Hs.
    destruct (tweenComplete_death h t r s g' Ht Hk Hs) as (Hf & Hr).
    pose proof (findShape_hasRef _ _ _ Hs) as Hrs. subst r.
    apply (Level_update_purged_ref delta' (tweenComplete h g') (set_sh_toBeRemoved true s)).
    + rewrite Hr. apply Level_update_NoDup. exact Hnd.
    + apply (findShape_In (sh_ref s)). exact Hf.
    + reflexivity.
Qed.

Lemma C8_force_clear_witness :
  let g' := Level_update 8 obstacle_game in
  (forall s, In s (shapes (level g')) -> sh_dying s = true /\ sh_y s = config_height + 100)
  /\ refs g' = refs obstacle_game.
Proof.
  intros g'.
  assert (Hnd : NoDup (refs obstacle_game)).
  { vm_compute. repeat constructor; cbn; intuition discriminate. }
  assert (Hst : forall s, In s (shapes (level obstacle_game)) -> staticShape s = true).
  { apply Forall_forall. vm_compute. repeat constructor. }
  destruct (C8_force_clear obstacle_game 8 Hnd Hst) as (H1 & _ & H3 & _).
  split; [exact H1|]. apply H3.
  apply Forall_forall. vm_compute. repeat constructor.
Defined.

(** ** What hovering never touches *)

(** The parts of the state that no hover dispatch changes: the shapes keep
    their identity, and the clock, the allocation of addresses, the spared
    flags, the threshold, the active power-up modes, the pointer and the
    speed factors stay as they are. *)
Definition quiet (g g' : Game) : Prop :=
  evolves g g'
  /\ events g' = events g
  /\ nextRef g' = nextRef g
  /\ squaresSpared (level g') = squaresSpared (level g)
  /\ architectureSpared (level g') = architectureSpared (level g)
  /\ trianglesSpared (level g') = trianglesSpared (level g)
  /\ levelPassableScore (level g') = levelPassableScore (level g)
  /\ intangible (level g') = intangible (level g)
  /\ slowtime (level g') = slowtime (level g)
  /\ pointer g' = pointer g
  /\ slowtimeFactor g' = slowtimeFactor g
  /\ difficultyAdjustment g' = difficultyAdjustment g.

Lemma quiet_refl g : quiet g g.
Proof. split; [apply evolves_refl|]. repeat split. Qed.

Lemma quiet_trans g1 g2 g3 : quiet g1 g2 -> quiet g2 g3 -> quiet g1 g3.
Proof.
  intros (A0 & A1 & A2 & A3 & A4 & A5 & A6 & A7 & A8 & A9 & A10 & A11)
         (B0 & B1 & B2 & B3 & B4 & B5 & B6 & B7 & B8 & B9 & B10 & B11).
  split; [exact (evolves_trans _ _ _ A0 B0)|].
  repeat split; congruence.
Qed.

(** A step that changes nothing but the listed fields of the scene. *)
Lemma quiet_same_level g g' :
  level g' = level g -> events g' = events g -> nextRef g' = nextRef g ->
  pointer g' = pointer g -> slowtimeFactor g' = slowtimeFactor g ->
  difficultyAdjustment g' = difficultyAdjustment g -> quiet g g'.
Proof.
  intros Hl He Hn Hp Hs Hd. unfold quiet. rewrite Hl, He, Hn, Hp, Hs, Hd.
  split; [|repeat split]. apply evolves_same_shapes. rewrite Hl. reflexivity.
Qed.

Lemma quiet_updShape r f g :
  (forall s, keepsIdentity s (f s)) -> quiet g (updShape r f g).
Proof. intros Hf. split; [apply evolves_updShape, Hf|]. repeat split. Qed.

Lemma pda_nextRef r g : nextRef (Shape_performDeathAnimation r g) = nextRef g.
Proof. frame_by Shape_performDeathAnimation. Qed.
Lemma pda_slowtimeFactor r g :
  slowtimeFactor (Shape_performDeathAnimation r g) = slowtimeFactor g.
Proof. frame_by Shape_performDeathAnimation. Qed.
Lemma pda_difficultyAdjustment r g :
  difficultyAdjustment (Shape_performDeathAnimation r g) = difficultyAdjustment g.
Proof. frame_by Shape_performDeathAnimation. Qed.
Lemma pda_slowtime r g :
  slowtime (level (Shape_performDeathAnimation r g)) = slowtime (level g).
Proof. rewrite pda_level. repeat break_match; reflexivity. Qed.

Lemma pda_quiet r g : quiet g (Shape_performDeathAnimation r g).
Proof.
  destruct (pda_shapes_flags r g) as (F1 & F2 & F3 & F4).
  split; [apply pda_evolves|].
  rewrite pda_events, pda_nextRef, pda_pointer, pda_slowtimeFactor,
    pda_difficultyAdjustment, pda_intangible, pda_slowtime, F1, F2, F3, F4.
  repeat split.
Qed.

Lemma refill_nextRef g : nextRef (HealthBar_refillAndPauseHealthBar g) = nextRef g.
Proof. frame_by HealthBar_refillAndPauseHealthBar. Qed.
Lemma refill_slowtimeFactor g :
  slowtimeFactor (HealthBar_refillAndPauseHealthBar g) = slowtimeFactor g.
Proof. frame_by HealthBar_refillAndPauseHealthBar. Qed.
Lemma refill_difficultyAdjustment g :
  difficultyAdjustment (HealthBar_refillAndPauseHealthBar g) = difficultyAdjustment g.
Proof. frame_by HealthBar_refillAndPauseHealthBar. Qed.

Lemma refill_quiet g : quiet g (HealthBar_refillAndPauseHealthBar g).
Proof.
  apply quiet_same_level.
  - apply refill_level.
  - apply refill_events.
  - apply refill_nextRef.
  - apply refill_pointer.
  - apply refill_slowtimeFactor.
  - apply refill_difficultyAdjustment.
Qed.

Lemma quiet_set_score v g : quiet g (set_score v g).
Proof. apply quiet_same_level; reflexivity. Qed.

Lemma quiet_arm_intangible v g : quiet g (updLevel (set_intangibleActive v) g).
Proof. split; [apply evolves_same_shapes; reflexivity|]. repeat split. Qed.

Lemma quiet_arm_slowtime v g : quiet g (updLevel (set_slowtimeActive v) g).
Proof. split; [apply evolves_same_shapes; reflexivity|]. repeat split. Qed.

(** Hover dispatch is built from a handful of steps; a relation between
    states that is reflexive and transitive and holds across each of them
    holds across every hover and across the catch-up pass. *)
Record hoverClosed (R : Game -> Game -> Prop) : Prop := {
  hc_refl : forall g, R g g;
  hc_trans : forall a b c, R a b -> R b c -> R a c;
  hc_refill : forall g, R g (HealthBar_refillAndPauseHealthBar g);
  hc_pda : forall r g, R g (Shape_performDeathAnimation r g);
  hc_sety : forall r g, R g (updShape r (set_sh_y (config_height + 100)) g);
  hc_arm_intangible : forall v g, R g (updLevel (set_intangibleActive v) g);
  hc_arm_slowtime : forall v g, R g (updLevel (set_slowtimeActive v) g);
  hc_score : forall v g, R g (set_score v g)
}.

Section HoverClosed.

Variable R : Game -> Game -> Prop.
Hypothesis HR : hoverClosed R.

Lemma fold_closed {A : Type} (f : Game -> A -> Game) (l : list A) (g : Game) :
  (forall a acc, R acc (f acc a)) -> R g (fold_left f l g).
Proof.
  intros Hf. apply (fold_left_invariant (R g)); [apply (hc_refl R HR)|].
  intros a acc _ Hacc. exact (hc_trans R HR _ _ _ Hacc (Hf a acc)).
Qed.

Lemma clearFriendlies_body_closed u r' acc : R acc (clearFriendlies_body u r' acc).
Proof.
  unfold clearFriendlies_body.
  destruct (findShape u acc); [|apply (hc_refl R HR)].
  destruct (findShape r' acc); [|apply (hc_refl R HR)].
  destruct (_ && _); [|apply (hc_refl R HR)].
  destruct (Qgt_bool _ _); [|apply (hc_refl R HR)].
  apply (hc_trans R HR _ (updShape r' (set_sh_y (config_height + 100)) acc)).
  - apply (hc_sety R HR).
  - apply (hc_pda R HR).
Qed.

Lemma handleShapeInteraction_closed r label g :
  R g (Level_handleShapeInteraction r label g).
Proof.
  unfold Level_handleShapeInteraction.
  destruct (findShape r g); [|apply (hc_refl R HR)].
  destruct (String.eqb label "area"); [apply (hc_refill R HR)|].
  destruct (intangible (level g)); [apply (hc_refl R HR)|].
  assert (Hrest : forall g1, R g g1 ->
            R g
              match findShape r g1 with
              | Some shape =>
                  if sh_dying shape then g1
                  else
                    let g2 := Level_removeShape r g1 in
                    let g3 := if String.eqb label "triangle" || String.eqb label "stealth"
                              then set_score (score g2 + 1)%Z g2 else g2 in
                    if String.eqb label "architecture" || String.eqb label "square"
                    then set_score (score g3 - 1)%Z g3 else g3
              | None => g1
              end).
  { intros g1 Hg1. destruct (findShape r g1) as [shape|]; [|exact Hg1].
    destruct (sh_dying shape); [exact Hg1|].
    pose proof (hc_trans R HR _ _ _ Hg1 (hc_pda R HR r g1)) as Hpda.
    cbv zeta. unfold Level_removeShape.
    destruct (_ || _); destruct (_ || _);
      repeat (eapply (hc_trans R HR); [|apply (hc_score R HR)]); exact Hpda. }
  destruct (String.eqb label "clear-friendlies").
  { apply Hrest. unfold forEachShape. apply fold_closed.
    intros a acc. apply clearFriendlies_body_closed. }
  destruct (String.eqb label "intangible").
  { apply Hrest. apply (hc_arm_intangible R HR). }
  destruct (String.eqb label "slowtime").
  { apply Hrest. apply (hc_arm_slowtime R HR). }
  destruct (String.prefix "armored_" label); [apply (hc_refl R HR)|].
  apply Hrest, (hc_refl R HR).
Qed.

Lemma checkAllShapes_body_closed r g : R g (checkAllShapes_body r g).
Proof.
  unfold checkAllShapes_body. destruct (findShape r g) as [s|]; [|apply (hc_refl R HR)].
  destruct (checkAllShapes_classify s _ _) as [[|] label]; [|apply (hc_refl R HR)].
  apply handleShapeInteraction_closed.
Qed.

Lemma checkAllShapes_closed g : R g (Level_checkAllShapes g).
Proof.
  unfold Level_checkAllShapes, forEachShape. apply fold_closed.
  intros a acc. apply checkAllShapes_body_closed.
Qed.

End HoverClosed.

Lemma quiet_hoverClosed : hoverClosed quiet.
Proof.
  constructor.
  - apply quiet_refl.
  - apply quiet_trans.
  - apply refill_quiet.
  - apply pda_quiet.
  - intros r g. apply quiet_updShape. keepsId.
  - apply quiet_arm_intangible.
  - apply quiet_arm_slowtime.
  - apply quiet_set_score.
Qed.

(** ** The tweens of a level *)

(** The shape a tween writes to, if it writes to one. *)
Definition tweenTarget (k : TweenKind) : option nat :=
  match k with
  | TwDeath r | TwGrowing r _ _ | TwVelocity r _ _ _ _ | TwMovement r _ _ _ _ => Some r
  | _ => None
  end.

Definition isHealthDying (k : TweenKind) : bool :=
  match k with TwHealthDying _ => true | _ => false end.

(** The invariant on the schedule that a reload relies on, for a bound [b]
    on the addresses: the shapes and the targets of the tweens lie below
    [b], and the only depletion tween is the one the health bar holds. *)
Definition tweensBelow (b : nat) (g : Game) : Prop :=
  forall t r, In t (tweens g) -> tweenTarget (tw_kind t) = Some r -> (r < b)%nat.

Definition depletionTracked (g : Game) : Prop :=
  forall t, In t (tweens g) -> isHealthDying (tw_kind t) = true ->
            hb_dyingTween (healthBar g) = Some (tw_handle t).

Definition refsBelow (b : nat) (g : Game) : Prop :=
  forall r, In r (refs g) -> (r < b)%nat.

Definition scheduleOk (b : nat) (g : Game) : Prop :=
  tweensBelow b g /\ depletionTracked g /\ refsBelow b g.

Definition keepsSchedule (b : nat) (g g' : Game) : Prop :=
  scheduleOk b g -> scheduleOk b g'.

(** Dropping tweens keeps the invariant. *)
Lemma scheduleOk_incl b g g' :
  incl (tweens g') (tweens g) ->
  hb_dyingTween (healthBar g') = hb_dyingTween (healthBar g) ->
  refs g' = refs g ->
  keepsSchedule b g g'.
Proof.
  intros Hi Hh Hr (A & B & C). unfold scheduleOk, tweensBelow, depletionTracked, refsBelow.
  rewrite Hh, Hr. repeat split; eauto.
Qed.

Lemma tween_stop_incl h g : incl (tweens (tween_stop h g)) (tweens g).
Proof. unfold tween_stop. cbn. apply incl_filter. Qed.

Lemma pda_tweens r g :
  tweens (Shape_performDeathAnimation r g)
  = match findShape r g with
    | Some s => if sh_dying s then tweens g
                else tweens g ++ [mkTween (nextHandle g) (TwDeath r) 250 0 1 0 false]
    | None => tweens g
    end.
Proof. frame_by Shape_performDeathAnimation. Qed.

Lemma pda_keepsSchedule b r g : keepsSchedule b g (Shape_performDeathAnimation r g).
Proof.
  intros (A & B & C). unfold scheduleOk, tweensBelow, depletionTracked, refsBelow.
  rewrite pda_tweens, pda_healthBar, pda_refs.
  destruct (findShape r g) as [s|] eqn:Hs; [|repeat split; assumption].
  destruct (sh_dying s); [repeat split; assumption|].
  repeat split; try assumption.
  - intros t r0 Hin Ht. apply in_app_or in Hin as [Hin|[<-|[]]]; [eauto|].
    cbn in Ht. injection Ht as <-. apply C. exact (findShape_refs _ _ _ Hs).
  - intros t Hin Ht. apply in_app_or in Hin as [Hin|[<-|[]]]; [eauto|].
    discriminate Ht.
Qed.

Lemma refill_tweens g :
  tweens (HealthBar_refillAndPauseHealthBar g)
  = match hb_dyingTween (healthBar g) with
    | Some h => filter (fun t => negb (Nat.eqb (tw_handle t) h)) (tweens g)
    | None => tweens g
    end.
Proof.
  unfold HealthBar_refillAndPauseHealthBar. cbn.
  destruct (hb_dyingTween (healthBar g)); reflexivity.
Qed.

(** After a refill no depletion tween is left. *)
Lemma refill_no_depletion g t :
  depletionTracked g -> In t (tweens (HealthBar_refillAndPauseHealthBar g)) ->
  isHealthDying (tw_kind t) = false.
Proof.
  intros B Hin. rewrite refill_tweens in Hin.
  destruct (isHealthDying (tw_kind t)) eqn:E; [exfalso|reflexivity].
  destruct (hb_dyingTween (healthBar g)) as [h|] eqn:Hh.
  - apply filter_In in Hin as [Hin Hne]. pose proof (B t Hin E) as Ht.
    rewrite Hh in Ht. injection Ht as ->. rewrite Nat.eqb_refl in Hne. discriminate.
  - pose proof (B t Hin E) as Ht. rewrite Hh in Ht. discriminate.
Qed.

Lemma refill_incl g : incl (tweens (HealthBar_refillAndPauseHealthBar g)) (tweens g).
Proof.
  rewrite refill_tweens. destruct (hb_dyingTween (healthBar g));
    [apply incl_filter | apply incl_refl].
Qed.

Lemma refill_keepsSchedule b g : keepsSchedule b g (HealthBar_refillAndPauseHealthBar g).
Proof.
  intros (A & B & C). unfold scheduleOk. split; [|split].
  - intros t r Hin. apply (A t r). apply refill_incl. exact Hin.
  - intros t Hin Ht. rewrite (refill_no_depletion g t B Hin) in Ht. discriminate.
  - unfold refsBelow, refs. rewrite refill_level. exact C.
Qed.

Lemma keepsSchedule_hoverClosed b : hoverClosed (keepsSchedule b).
Proof.
  constructor.
  - intros g H. exact H.
  - intros x y z Hxy Hyz H. auto.
  - apply refill_keepsSchedule.
  - apply pda_keepsSchedule.
  - intros r g. apply scheduleOk_incl; [apply incl_refl | reflexivity|].
    apply refs_updShape. keeps.
  - intros v g. apply scheduleOk_incl; [apply incl_refl | reflexivity | reflexivity].
  - intros v g. apply scheduleOk_incl; [apply incl_refl | reflexivity | reflexivity].
  - intros v g. apply scheduleOk_incl; [apply incl_refl | reflexivity | reflexivity].
Qed.

(** ** Rescaling the tweens *)

(** The state with the time scales of its tweens forgotten:
    [adjustActiveTweens] changes nothing else. *)
Definition forgetTimeScales (g : Game) : Game :=
  set_tweens (map (set_tw_timeScale 1) (tweens g)) g.

Lemma setTweenTimeScale_forget h v g :
  forgetTimeScales (setTweenTimeScale h v g) = forgetTimeScales g.
Proof.
  destruct h as [h|]; [|reflexivity]. unfold forgetTimeScales, setTweenTimeScale. cbn.
  unfold set_tweens. cbn. f_equal. rewrite map_map. apply map_ext. intros t.
  destruct (Nat.eqb (tw_handle t) h); reflexivity.
Qed.

Lemma forget_level g g' :
  forgetTimeScales g' = forgetTimeScales g -> level g' = level g.
Proof. intros H. apply (f_equal level) in H. exact H. Qed.

Lemma adjustActiveTweens_forget g :
  forgetTimeScales (GameScene_adjustActiveTweens g) = forgetTimeScales g.
Proof.
  unfold GameScene_adjustActiveTweens. cbv zeta.
  rewrite !setTweenTimeScale_forget.
  unfold forEachShape.
  apply (fold_left_invariant (fun acc => forgetTimeScales acc = forgetTimeScales g));
    [reflexivity|].
  intros r acc _ Hacc. destruct (findShape r acc); [|exact Hacc].
  rewrite !setTweenTimeScale_forget. exact Hacc.
Qed.

Lemma forget_tweens g g' :
  forgetTimeScales g' = forgetTimeScales g ->
  forall t', In t' (tweens g') ->
  exists t, In t (tweens g) /\ tw_kind t = tw_kind t' /\ tw_handle t = tw_handle t'.
Proof.
  intros H t' Hin. apply (f_equal tweens) in H. cbn in H.
  assert (Hin' : In (set_tw_timeScale 1 t') (map (set_tw_timeScale 1) (tweens g)))
    by (rewrite <- H; apply in_map; exact Hin).
  apply in_map_iff in Hin' as (t & Ht & Hint). exists t. split; [exact Hint|].
  split; [exact (f_equal tw_kind Ht) | exact (f_equal tw_handle Ht)].
Qed.

Lemma scheduleOk_kinds b g g' :
  (forall t', In t' (tweens g') ->
     exists t, In t (tweens g) /\ tw_kind t = tw_kind t' /\ tw_handle t = tw_handle t') ->
  hb_dyingTween (healthBar g') = hb_dyingTween (healthBar g) ->
  refs g' = refs g ->
  keepsSchedule b g g'.
Proof.
  intros Hk Hh Hr (A & B & C). unfold scheduleOk, tweensBelow, depletionTracked, refsBelow.
  rewrite Hh, Hr. repeat split; [| |exact C].
  - intros t' r Hin Ht. destruct (Hk t' Hin) as (t & Hint & Hkind & _).
    apply (A t r Hint). congruence.
  - intros t' Hin Ht. destruct (Hk t' Hin) as (t & Hint & Hkind & Hhandle).
    rewrite <- Hhandle. apply B; congruence.
Qed.

Lemma forget_keepsSchedule b g g' :
  forgetTimeScales g' = forgetTimeScales g -> keepsSchedule b g g'.
Proof.
  intros H. apply scheduleOk_kinds.
  - apply forget_tweens. exact H.
  - exact (f_equal (fun x => hb_dyingTween (healthBar x)) H).
  - exact (f_equal refs H).
Qed.

Lemma forget_quiet g g' : forgetTimeScales g' = forgetTimeScales g -> quiet g g'.
Proof.
  intros H. apply quiet_same_level.
  - exact (f_equal level H).
  - exact (f_equal events H).
  - exact (f_equal nextRef H).
  - exact (f_equal pointer H).
  - exact (f_equal slowtimeFactor H).
  - exact (f_equal difficultyAdjustment H).
Qed.

(** ** The reset of a level *)

(** No step of the hover dispatch touches the removal list of the clock. *)
Definition sameRemovals (g g' : Game) : Prop := pendingRemoval g' = pendingRemoval g.

Lemma pda_pendingRemoval r g :
  pendingRemoval (Shape_performDeathAnimation r g) = pendingRemoval g.
Proof. frame_by Shape_performDeathAnimation. Qed.

Lemma refill_pendingRemoval g :
  pendingRemoval (HealthBar_refillAndPauseHealthBar g) = pendingRemoval g.
Proof. frame_by HealthBar_refillAndPauseHealthBar. Qed.

Lemma sameRemovals_hoverClosed : hoverClosed sameRemovals.
Proof.
  constructor; unfold sameRemovals.
  - reflexivity.
  - intros a b c H1 H2. congruence.
  - apply refill_pendingRemoval.
  - apply pda_pendingRemoval.
  - reflexivity.
  - reflexivity.
  - reflexivity.
  - reflexivity.
Qed.

(** What every step of [resetLevelState] keeps, for a bound [b] on the
    addresses: the shapes evolve in place, no timer and no address is
    added, the removal list of the clock stays, and the invariant on the
    schedule is kept. *)
Definition settles (b : nat) (g g' : Game) : Prop :=
  evolves g g' /\ incl (events g') (events g) /\ nextRef g' = nextRef g
  /\ pendingRemoval g' = pendingRemoval g
  /\ keepsSchedule b g g'.

Lemma settles_refl b g : settles b g g.
Proof.
  split; [apply evolves_refl|]. split; [apply incl_refl|]. split; [reflexivity|].
  split; [reflexivity|]. intros H. exact H.
Qed.

Lemma settles_trans b g1 g2 g3 : settles b g1 g2 -> settles b g2 g3 -> settles b g1 g3.
Proof.
  intros (E1 & I1 & N1 & P1 & K1) (E2 & I2 & N2 & P2 & K2).
  split; [exact (evolves_trans _ _ _ E1 E2)|].
  split; [exact (incl_tran I2 I1)|].
  split; [congruence|]. split; [congruence|]. intros H. auto.
Qed.

Lemma settles_plain b g g' :
  shapes (level g') = shapes (level g) ->
  incl (events g') (events g) -> nextRef g' = nextRef g ->
  pendingRemoval g' = pendingRemoval g ->
  incl (tweens g') (tweens g) ->
  hb_dyingTween (healthBar g') = hb_dyingTween (healthBar g) ->
  settles b g g'.
Proof.
  intros Hs He Hn Hp Ht Hh. split; [apply evolves_same_shapes; exact Hs|].
  split; [exact He|]. split; [exact Hn|]. split; [exact Hp|].
  apply scheduleOk_incl; [exact Ht | exact Hh|]. unfold refs. rewrite Hs. reflexivity.
Qed.

Lemma stopSceneTween_nextRef slot g : nextRef (stopSceneTween slot g) = nextRef g.
Proof. frame_by stopSceneTween. Qed.

Lemma stopSceneTween_pendingRemoval slot g :
  pendingRemoval (stopSceneTween slot g) = pendingRemoval g.
Proof. frame_by stopSceneTween. Qed.

Lemma stopSceneTween_incl slot g : incl (tweens (stopSceneTween slot g)) (tweens g).
Proof.
  unfold stopSceneTween. repeat break_match; try apply incl_refl;
    cbn; apply incl_filter.
Qed.

Lemma stopSceneTween_settles b slot g : settles b g (stopSceneTween slot g).
Proof.
  apply settles_plain.
  - rewrite stopSceneTween_level. reflexivity.
  - rewrite stopSceneTween_events. apply incl_refl.
  - apply stopSceneTween_nextRef.
  - apply stopSceneTween_pendingRemoval.
  - apply stopSceneTween_incl.
  - rewrite stopSceneTween_healthBar. reflexivity.
Qed.

Lemma quiet_settles b g g' :
  quiet g g' -> sameRemovals g g' -> keepsSchedule b g g' -> settles b g g'.
Proof.
  intros (E & Ev & N & _) P K. split; [exact E|]. split; [rewrite Ev; apply incl_refl|].
  split; [exact N|]. split; [exact P | exact K].
Qed.

Lemma checkAllShapes_settles b g : settles b g (Level_checkAllShapes g).
Proof.
  apply quiet_settles.
  - apply checkAllShapes_closed, quiet_hoverClosed.
  - apply checkAllShapes_closed, sameRemovals_hoverClosed.
  - apply checkAllShapes_closed, keepsSchedule_hoverClosed.
Qed.

Lemma updLevel_settles b f g :
  (forall l, shapes (f l) = shapes l) -> settles b g (updLevel f g).
Proof.
  intros Hf. apply settles_plain; try reflexivity; try apply incl_refl.
  cbn. apply Hf.
Qed.

Lemma finishIntangible_settles b g : settles b g (GameScene_finishIntangible g).
Proof.
  unfold GameScene_finishIntangible.
  eapply settles_trans; [|apply checkAllShapes_settles].
  apply updLevel_settles. reflexivity.
Qed.

Lemma adjustActiveTweens_settles b g : settles b g (GameScene_adjustActiveTweens g).
Proof.
  pose proof (adjustActiveTweens_forget g) as H. apply quiet_settles.
  - apply forget_quiet. exact H.
  - exact (f_equal pendingRemoval H).
  - apply forget_keepsSchedule. exact H.
Qed.

Lemma finishSlowtime_settles b g : settles b g (GameScene_finishSlowtime g).
Proof.
  unfold GameScene_finishSlowtime, GameScene_setSlowtimeFactor.
  eapply settles_trans; [|apply adjustActiveTweens_settles].
  apply (settles_trans b _ (updLevel (set_slowtime false) g)).
  - apply updLevel_settles. reflexivity.
  - apply settles_plain; try reflexivity; apply incl_refl.
Qed.

Lemma refill_settles b g : settles b g (HealthBar_refillAndPauseHealthBar g).
Proof.
  apply quiet_settles;
    [apply refill_quiet | apply refill_pendingRemoval | apply refill_keepsSchedule].
Qed.

Lemma hideInstant_settles b g : settles b g (HealthBar_hideHealthBarInstant g).
Proof.
  unfold HealthBar_hideHealthBarInstant.
  apply (settles_trans b _ (HealthBar_refillAndPauseHealthBar g)); [apply refill_settles|].
  apply settles_plain; try reflexivity; apply incl_refl.
Qed.

Lemma removeSlowtimeTimer_settles b g :
  settles b g (match slowtimeTimerEvent g with
               | Some h => set_slowtimeTimerEvent None (event_remove h g)
               | None => g
               end).
Proof.
  destruct (slowtimeTimerEvent g); [|apply settles_refl].
  apply settles_plain; try reflexivity; try apply incl_refl. cbn. apply incl_filter.
Qed.

Lemma resetPowerUpsAndEffects_settles b g : settles b g (Level_resetPowerUpsAndEffects g).
Proof.
  unfold Level_resetPowerUpsAndEffects. cbv zeta.
  eapply settles_trans; [|apply stopSceneTween_settles].
  eapply settles_trans; [|apply finishSlowtime_settles].
  eapply settles_trans; [|apply updLevel_settles; reflexivity].
  eapply settles_trans; [|apply removeSlowtimeTimer_settles].
  eapply settles_trans; [|apply finishIntangible_settles].
  eapply settles_trans; [|apply updLevel_settles; reflexivity].
  eapply settles_trans; apply stopSceneTween_settles.
Qed.

Lemma resetLevelState_settles b g : settles b g (Level_resetLevelState g).
Proof.
  unfold Level_resetLevelState. cbv zeta.
  eapply settles_trans; [|apply updLevel_settles; reflexivity].
  eapply settles_trans; [|apply hideInstant_settles].
  eapply settles_trans; [|apply resetPowerUpsAndEffects_settles].
  eapply settles_trans; [|apply updLevel_settles; reflexivity].
  apply settles_plain; try reflexivity; apply incl_refl.
Qed.

(** After the reset no depletion tween is left. *)
Lemma hideInstant_tweens g :
  tweens (HealthBar_hideHealthBarInstant g) = tweens (HealthBar_refillAndPauseHealthBar g).
Proof. reflexivity. Qed.

Lemma tweens_updLevel f g : tweens (updLevel f g) = tweens g.
Proof. reflexivity. Qed.

Lemma resetLevelState_tweens g :
  tweens (Level_resetLevelState g)
  = tweens (HealthBar_refillAndPauseHealthBar
              (Level_resetPowerUpsAndEffects
                 (updLevel (fun l => set_trianglesSpared true
                                       (set_architectureSpared true (set_squaresSpared true l)))
                    (set_staticId 0%nat g)))).
Proof.
  unfold Level_resetLevelState. cbv zeta.
  rewrite tweens_updLevel. apply hideInstant_tweens.
Qed.

Lemma resetLevelState_no_depletion b g t :
  scheduleOk b g -> In t (tweens (Level_resetLevelState g)) ->
  isHealthDying (tw_kind t) = false.
Proof.
  intros Hok. rewrite resetLevelState_tweens.
  apply refill_no_depletion.
  assert (S3 : settles b g
                 (Level_resetPowerUpsAndEffects
                    (updLevel (fun l => set_trianglesSpared true
                                          (set_architectureSpared true
                                             (set_squaresSpared true l)))
                       (set_staticId 0%nat g)))).
  { eapply settles_trans; [|apply resetPowerUpsAndEffects_settles].
    eapply settles_trans; [|apply updLevel_settles; reflexivity].
    apply settles_plain; try reflexivity; apply incl_refl. }
  destruct S3 as (_ & _ & _ & _ & K). exact (proj1 (proj2 (K Hok))).
Qed.

(** The flags and the power-up state after the reset. *)
Record freshLevel (g : Game) : Prop := {
  fl_squares : squaresSpared (level g) = true;
  fl_architecture : architectureSpared (level g) = true;
  fl_triangles : trianglesSpared (level g) = true;
  fl_intangible : intangible (level g) = false;
  fl_slowtimeActive : slowtimeActive (level g) = false;
  fl_slowtime : slowtime (level g) = false;
  fl_showAreaHP : showAreaHP (level g) = false;
  fl_messageText : messageText (level g) = None;
  fl_slowtimeFactor : slowtimeFactor g = 1;
  fl_slowtimeTimerEvent : slowtimeTimerEvent g = None;
  fl_fadeTween : fadeTween g = None
}.

Lemma level_updLevel f g : level (updLevel f g) = f (level g).
Proof. reflexivity. Qed.

Lemma slowtimeFactor_updLevel f g : slowtimeFactor (updLevel f g) = slowtimeFactor g.
Proof. reflexivity. Qed.

Lemma slowtimeTimerEvent_updLevel f g :
  slowtimeTimerEvent (updLevel f g) = slowtimeTimerEvent g.
Proof. reflexivity. Qed.

Lemma fadeTween_updLevel f g : fadeTween (updLevel f g) = fadeTween g.
Proof. reflexivity. Qed.

Lemma finishSlowtime_forget g :
  forgetTimeScales (GameScene_finishSlowtime g)
  = forgetTimeScales (set_clockTimeScale 1 (set_slowtimeFactor 1
                        (updLevel (set_slowtime false) g))).
Proof.
  unfold GameScene_finishSlowtime, GameScene_setSlowtimeFactor.
  apply adjustActiveTweens_forget.
Qed.

Lemma finishSlowtime_level g :
  level (GameScene_finishSlowtime g) = set_slowtime false (level g).
Proof. exact (f_equal level (finishSlowtime_forget g)). Qed.

Lemma finishSlowtime_slowtimeFactor g : slowtimeFactor (GameScene_finishSlowtime g) = 1.
Proof. exact (f_equal slowtimeFactor (finishSlowtime_forget g)). Qed.

Lemma finishSlowtime_slowtimeTimerEvent g :
  slowtimeTimerEvent (GameScene_finishSlowtime g) = slowtimeTimerEvent g.
Proof. exact (f_equal slowtimeTimerEvent (finishSlowtime_forget g)). Qed.

Lemma removeSlowtimeTimer_level g :
  level (match slowtimeTimerEvent g with
         | Some h => set_slowtimeTimerEvent None (event_remove h g)
         | None => g
         end) = level g.
Proof. destruct (slowtimeTimerEvent g); reflexivity. Qed.

Lemma removeSlowtimeTimer_none g :
  slowtimeTimerEvent (match slowtimeTimerEvent g with
                      | Some h => set_slowtimeTimerEvent None (event_remove h g)
                      | None => g
                      end) = None.
Proof. destruct (slowtimeTimerEvent g) eqn:E; [reflexivity | exact E]. Qed.

Lemma stopSceneTween_slowtimeFactor slot g :
  slowtimeFactor (stopSceneTween slot g) = slowtimeFactor g.
Proof. frame_by stopSceneTween. Qed.

Lemma stopSceneTween_slowtimeTimerEvent slot g :
  slowtimeTimerEvent (stopSceneTween slot g) = slowtimeTimerEvent g.
Proof. frame_by stopSceneTween. Qed.

Lemma stopSceneTween_Fade g : fadeTween (stopSceneTween Fade g) = None.
Proof. unfold stopSceneTween. destruct (fadeTween g) eqn:E; [reflexivity | exact E]. Qed.

Lemma hideInstant_slowtimeFactor g :
  slowtimeFactor (HealthBar_hideHealthBarInstant g) = slowtimeFactor g.
Proof. unfold HealthBar_hideHealthBarInstant. cbn. apply refill_slowtimeFactor. Qed.

Lemma hideInstant_slowtimeTimerEvent g :
  slowtimeTimerEvent (HealthBar_hideHealthBarInstant g) = slowtimeTimerEvent g.
Proof.
  unfold HealthBar_hideHealthBarInstant. cbn.
  frame_by HealthBar_refillAndPauseHealthBar.
Qed.

Lemma hideInstant_fadeTween g :
  fadeTween (HealthBar_hideHealthBarInstant g) = fadeTween g.
Proof.
  unfold HealthBar_hideHealthBarInstant. cbn.
  frame_by HealthBar_refillAndPauseHealthBar.
Qed.

(** The level after [resetPowerUpsAndEffects], in terms of the level after
    the catch-up pass inside it. *)
Lemma resetPowerUpsAndEffects_level g :
  level (Level_resetPowerUpsAndEffects g)
  = set_slowtime false
      (set_slowtimeActive false
         (level (GameScene_finishIntangible
                   (updLevel (set_intangibleActive false)
                      (stopSceneTween IntangibleOut (stopSceneTween IntangibleIn g)))))).
Proof.
  unfold Level_resetPowerUpsAndEffects. cbv zeta.
  rewrite stopSceneTween_level, finishSlowtime_level, level_updLevel,
    removeSlowtimeTimer_level.
  reflexivity.
Qed.

Lemma finishIntangible_flags g :
  let g' := GameScene_finishIntangible g in
  squaresSpared (level g') = squaresSpared (level g)
  /\ architectureSpared (level g') = architectureSpared (level g)
  /\ trianglesSpared (level g') = trianglesSpared (level g)
  /\ intangible (level g') = false.
Proof.
  cbv zeta. unfold GameScene_finishIntangible.
  destruct (checkAllShapes_closed quiet quiet_hoverClosed
              (updLevel (set_intangible false) g))
    as (_ & _ & _ & Hsq & Har & Htr & _ & Hin & _).
  rewrite Hsq, Har, Htr, Hin. repeat split.
Qed.

Lemma resetLevelState_fresh g : freshLevel (Level_resetLevelState g).
Proof.
  assert (L : level (Level_resetLevelState g)
              = set_messageText None
                  (set_showAreaHP false
                     (level (Level_resetPowerUpsAndEffects
                               (updLevel (fun l => set_trianglesSpared true
                                                     (set_architectureSpared true
                                                        (set_squaresSpared true l)))
                                  (set_staticId 0%nat g)))))).
  { unfold Level_resetLevelState. cbv zeta.
    rewrite level_updLevel, hideInstant_level. reflexivity. }
  rewrite resetPowerUpsAndEffects_level in L.
  match type of L with
  | context [GameScene_finishIntangible ?v] =>
      destruct (finishIntangible_flags v) as (Hsq & Har & Htr & Hin);
      rewrite level_updLevel, !stopSceneTween_level, level_updLevel in Hsq, Har, Htr;
      set (W := GameScene_finishIntangible v) in *
  end.
  clearbody W.
  constructor; try (rewrite L; cbn; assumption); try (rewrite L; reflexivity).
  - unfold Level_resetLevelState. cbv zeta.
    rewrite slowtimeFactor_updLevel.
    rewrite hideInstant_slowtimeFactor.
    unfold Level_resetPowerUpsAndEffects. cbv zeta.
    rewrite stopSceneTween_slowtimeFactor. apply finishSlowtime_slowtimeFactor.
  - unfold Level_resetLevelState. cbv zeta.
    rewrite slowtimeTimerEvent_updLevel.
    rewrite hideInstant_slowtimeTimerEvent.
    unfold Level_resetPowerUpsAndEffects. cbv zeta.
    rewrite stopSceneTween_slowtimeTimerEvent, finishSlowtime_slowtimeTimerEvent.
    rewrite slowtimeTimerEvent_updLevel.
    apply removeSlowtimeTimer_none.
  - unfold Level_resetLevelState. cbv zeta.
    rewrite fadeTween_updLevel.
    rewrite hideInstant_fadeTween.
    unfold Level_resetPowerUpsAndEffects. cbv zeta.
    apply stopSceneTween_Fade.
Qed.

(** ** Before the reset: the sweep of [loadCurrentLevel] *)

Section SweepClosed.

Variable R : Game -> Game -> Prop.
Hypothesis HR : hoverClosed R.

Lemma clearStep_closed r acc : R acc (clearStep r acc).
Proof.
  unfold clearStep.
  assert (H1 : R acc (updShape r (set_sh_y (config_height + 100)) acc))
    by apply (hc_sety R HR).
  destruct (findShape r _) as [s|]; [|exact H1].
  destruct (sh_toBeRemoved s); [exact H1|].
  apply (hc_trans R HR _ _ _ H1). apply (hc_pda R HR).
Qed.

Lemma clearShapesNoSound_closed g : R g (Level_clearShapesNoSound g).
Proof.
  rewrite clearShapesNoSound_fold. apply (fold_closed R HR).
  intros r acc. apply clearStep_closed.
Qed.

End SweepClosed.

(** The table of levels and the current index are not touched. *)
Definition sameTable (g g' : Game) : Prop :=
  levels g' = levels g /\ currentLevelIndex g' = currentLevelIndex g.

Lemma sameTable_hoverClosed : hoverClosed sameTable.
Proof.
  constructor; unfold sameTable.
  - split; reflexivity.
  - intros a b c (H1 & H2) (H3 & H4). split; congruence.
  - split; frame_by HealthBar_refillAndPauseHealthBar.
  - split; frame_by Shape_performDeathAnimation.
  - split; reflexivity.
  - split; reflexivity.
  - split; reflexivity.
  - split; reflexivity.
Qed.

Lemma clearShapesNoSound_settles b g : settles b g (Level_clearShapesNoSound g).
Proof.
  apply quiet_settles.
  - apply clearShapesNoSound_closed, quiet_hoverClosed.
  - apply clearShapesNoSound_closed, sameRemovals_hoverClosed.
  - apply clearShapesNoSound_closed, keepsSchedule_hoverClosed.
Qed.

(** The state in which [loadLevel] is called. *)
Definition swept (g : Game) : Game :=
  purge (Level_clearShapesNoSound (set_score 0%Z (time_removeAllEvents g))).

Lemma loadCurrentLevel_unfold g :
  GameScene_loadCurrentLevel g
  = match nth_error (levels (swept g)) (currentLevelIndex (swept g)) with
    | Some levelData => Level_loadLevel levelData (swept g)
    | None => Thrown "TypeError" (Level_resetLevelState (swept g))
    end.
Proof. reflexivity. Qed.

Lemma swept_table g :
  levels (swept g) = levels g /\ currentLevelIndex (swept g) = currentLevelIndex g.
Proof.
  unfold swept.
  destruct (clearShapesNoSound_closed sameTable sameTable_hoverClosed
              (set_score 0%Z (time_removeAllEvents g))) as (H1 & H2).
  split; [exact H1 | exact H2].
Qed.

Lemma swept_clock g :
  events (swept g) = events g
  /\ pendingRemoval (swept g) = pendingRemoval g ++ map ev_handle (activeEvents g)
  /\ nextRef (swept g) = nextRef g.
Proof.
  unfold swept.
  destruct (clearShapesNoSound_closed quiet quiet_hoverClosed
              (set_score 0%Z (time_removeAllEvents g))) as (_ & He & Hn & _).
  pose proof (clearShapesNoSound_closed sameRemovals sameRemovals_hoverClosed
                (set_score 0%Z (time_removeAllEvents g))) as Hp.
  split; [exact He|]. split; [exact Hp | exact Hn].
Qed.

Lemma scheduleOk_purge b g : keepsSchedule b g (purge g).
Proof.
  intros (A & B & C). split; [exact A|]. split; [exact B|].
  intros r Hin. apply C. unfold refs, purge in *. cbn in Hin.
  apply in_map_iff in Hin as (s & <- & Hs). apply filter_In in Hs as [Hs _].
  apply in_map. exact Hs.
Qed.

Lemma swept_scheduleOk b g : scheduleOk b g -> scheduleOk b (swept g).
Proof.
  intros H. unfold swept. apply scheduleOk_purge.
  destruct (clearShapesNoSound_settles b (set_score 0%Z (time_removeAllEvents g)))
    as (_ & _ & _ & _ & K).
  apply K. exact H.
Qed.

(** After the sweep every shape that is left is an old one, fading. *)
Lemma swept_shapes g s :
  NoDup (refs g) -> In s (shapes (level (swept g))) ->
  sh_dying s = true /\ sh_toBeRemoved s = false /\ In (sh_ref s) (refs g).
Proof.
  intros Hnd Hin. unfold swept, purge in Hin. cbn in Hin.
  apply filter_In in Hin as [Hin Hkeep].
  destruct (clearShapesNoSound_spec (set_score 0%Z (time_removeAllEvents g)) Hnd)
    as (Hl & _).
  rewrite Hl in Hin. cbn in Hin. apply in_map_iff in Hin as (s0 & <- & Hs0).
  pose proof (clearOne_cleared s0) as (_ & Hc).
  apply negb_true_iff in Hkeep.
  split; [destruct Hc as [Hc|Hc]; [exact Hc | congruence]|].
  split; [exact Hkeep|].
  rewrite clearOne_keepsRef. unfold refs. apply in_map. exact Hs0.
Qed.

(** ** The script of the new level *)

(** The callbacks a script schedules for shapes from address [b] on. *)
Definition scripted (b : nat) (cb : Callback) : Prop :=
  match cb with
  | CbGrow r _ _ | CbVelocity r _ _ _ | CbMovement r _ _ _ _
  | CbCircularStart r _ _ _ _ _ => (b <= r)%nat
  | CbFade _ _ => True
  | _ => False
  end.

Definition newShape (b : nat) (s : Shape) : Prop :=
  (b <= sh_ref s)%nat /\ sh_dying s = false /\ sh_toBeRemoved s = false.

(** What the interpreter of the script does to a state whose free
    addresses start at [b] or above: it starts no tween, leaves the removal
    list of the clock, appends shapes with addresses from [b] on, drops no
    timer and schedules callbacks for those shapes or for the blackout
    only. *)
Definition populates (b : nat) (g g' : Game) : Prop :=
  (b <= nextRef g)%nat ->
  (b <= nextRef g')%nat
  /\ incl (tweens g') (tweens g)
  /\ pendingRemoval g' = pendingRemoval g
  /\ (exists new, shapes (level g') = shapes (level g) ++ new /\ Forall (newShape b) new)
  /\ incl (events g) (events g')
  /\ (forall e, In e (events g') -> In e (events g) \/ scripted b (ev_callback e)).

Lemma populates_refl b g : populates b g g.
Proof.
  intros H. split; [exact H|]. split; [apply incl_refl|]. split; [reflexivity|].
  split; [exists []; split; [symmetry; apply app_nil_r | constructor]|].
  split; [apply incl_refl|].
  intros e He. left. exact He.
Qed.

Lemma populates_trans b g1 g2 g3 :
  populates b g1 g2 -> populates b g2 g3 -> populates b g1 g3.
Proof.
  intros H12 H23 H1.
  destruct (H12 H1) as (N2 & T2 & P2 & (new2 & S2 & F2) & I2 & E2).
  destruct (H23 N2) as (N3 & T3 & P3 & (new3 & S3 & F3) & I3 & E3).
  split; [exact N3|]. split; [exact (incl_tran T3 T2)|]. split; [congruence|].
  split; [|split; [exact (incl_tran I2 I3)|]].
  - exists (new2 ++ new3). split; [rewrite S3, S2, app_assoc; reflexivity|].
    apply Forall_app. split; assumption.
  - intros e He. destruct (E3 e He) as [He2|Hs]; [apply E2; exact He2 | right; exact Hs].
Qed.

Lemma forEachC_populates {A : Type} b (body : A -> Game -> Completion Game) (l : list A) :
  (forall a g g', body a g = Normal g' -> populates b g g') ->
  forall g g', forEachC body l g = Normal g' -> populates b g g'.
Proof.
  intros Hbody. induction l as [|a l IH]; intros g g' H; cbn in H.
  - injection H as <-. apply populates_refl.
  - destruct (body a g) as [g1| |] eqn:Ha; cbn in H; try discriminate.
    exact (populates_trans b _ _ _ (Hbody _ _ _ Ha) (IH _ _ H)).
Qed.

(** One more timer event and nothing else. *)
Lemma delayedCall_populates b delay cb g :
  scripted b cb -> populates b g (snd (time_delayedCall delay cb g)).
Proof.
  intros Hcb H. cbn. split; [exact H|]. split; [apply incl_refl|]. split; [reflexivity|].
  split; [exists []; split; [symmetry; apply app_nil_r | constructor]|].
  split; [apply incl_appl, incl_refl|].
  intros e He. apply in_app_or in He as [He|[<-|[]]]; [left; exact He | right; exact Hcb].
Qed.

Lemma initiate_populates b arity mkCb entry g g' :
  (forall ps cb, mkCb ps = Some cb -> scripted b cb) ->
  initiate arity mkCb entry g = Normal g' -> populates b g g'.
Proof.
  intros Hmk H. unfold initiate in H.
  repeat (break_match_hyp H; try discriminate).
  injection H as <-. apply delayedCall_populates. eapply Hmk. eassumption.
Qed.

Lemma animateList_populates b arity mkCb arr g g' :
  (forall ps cb, mkCb ps = Some cb -> scripted b cb) ->
  animateList arity mkCb arr g = Normal g' -> populates b g g'.
Proof.
  intros Hmk. unfold animateList. destruct arr; try discriminate.
  apply forEachC_populates. intros a g0 g0'. apply initiate_populates. exact Hmk.
Qed.

Lemma animateVelocities_populates b r arr g g' :
  (b <= r)%nat -> Shape_animateVelocities r arr g = Normal g' -> populates b g g'.
Proof.
  intros Hr. apply animateList_populates. intros ps cb H.
  repeat (break_match_hyp H; try discriminate). injection H as <-. exact Hr.
Qed.

Lemma animateScale_populates b r arr g g' :
  (b <= r)%nat -> Shape_animateScale r arr g = Normal g' -> populates b g g'.
Proof.
  intros Hr. apply animateList_populates. intros ps cb H.
  repeat (break_match_hyp H; try discriminate). injection H as <-. exact Hr.
Qed.

Lemma animateMovement_populates b r arr g g' :
  (b <= r)%nat -> Shape_animateMovement r arr g = Normal g' -> populates b g g'.
Proof.
  intros Hr. apply animateList_populates. intros ps cb H.
  repeat (break_match_hyp H; try discriminate). injection H as <-. exact Hr.
Qed.

Lemma animateCircularMovement_populates b r arr g g' :
  (b <= r)%nat -> Shape_animateCircularMovement r arr g = Normal g' -> populates b g g'.
Proof.
  intros Hr H. unfold Shape_animateCircularMovement in H.
  repeat (break_match_hyp H; try discriminate); injection H as <-;
    try apply populates_refl.
  apply delayedCall_populates. exact Hr.
Qed.

Lemma initiateFade_populates b entry g g' :
  initiateFade entry g = Normal g' -> populates b g g'.
Proof.
  intros H. unfold initiateFade in H.
  repeat (break_match_hyp H; try discriminate). injection H as <-.
  eapply populates_trans; [|apply delayedCall_populates; exact I].
  intros Hb. change (match fadeTween g with
                     | Some h => set_fadeTween None (tween_stop h g)
                     | None => g
                     end) with (stopSceneTween Fade g).
  rewrite stopSceneTween_nextRef, stopSceneTween_pendingRemoval,
    stopSceneTween_level, stopSceneTween_events.
  split; [exact Hb|]. split; [apply stopSceneTween_incl|]. split; [reflexivity|].
  split; [exists []; split; [symmetry; apply app_nil_r | constructor]|].
  split; [apply incl_refl|].
  intros e He. left. exact He.
Qed.

Lemma animateBlackout_populates b arr g g' :
  GameScene_animateBlackout arr g = Normal g' -> populates b g g'.
Proof.
  unfold GameScene_animateBlackout. destruct arr; try discriminate.
  apply forEachC_populates. intros a g0 g0'. apply initiateFade_populates.
Qed.

(** A state that differs in the level flags, the counters of identifiers
    and nothing else that matters here. *)
Lemma populates_plain b g g' :
  (nextRef g <= nextRef g')%nat -> tweens g' = tweens g ->
  pendingRemoval g' = pendingRemoval g ->
  shapes (level g') = shapes (level g) -> events g' = events g ->
  populates b g g'.
Proof.
  intros Hn Ht Hp Hs He Hb. split; [lia|]. split; [rewrite Ht; apply incl_refl|].
  split; [exact Hp|].
  split; [exists []; split; [rewrite Hs; symmetry; apply app_nil_r | constructor]|].
  split; [rewrite He; apply incl_refl|].
  intros e Hin. left. rewrite <- He. exact Hin.
Qed.

Lemma append_populates b s g :
  newShape b s ->
  populates b g (updLevel (fun l => set_shapes (shapes l ++ [s]) l) g).
Proof.
  intros Hs Hb. split; [exact Hb|]. split; [apply incl_refl|]. split; [reflexivity|].
  split; [exists [s]; split; [reflexivity | constructor; [exact Hs | constructor]]|].
  split; [apply incl_refl|].
  intros e He. left. exact He.
Qed.

Lemma spawnShape_populates b shapeType x y vx vy av vd sd md mcd g g' :
  Level_spawnShape shapeType x y vx vy av vd sd md mcd g = Normal g' -> populates b g g'.
Proof.
  intros H Hb. revert Hb. change (populates b g g').
  unfold Level_spawnShape in H.
  destruct shapeType as [|label| |]; try discriminate.
  destruct (spawnShape_class label) as [c|]; try discriminate.
  destruct (asNums [x; y; vx; vy; av]) as [[|qx [|qy [|qvx [|qvy [|qav [|]]]]]]|];
    try discriminate.
  set (g1 := if instanceof_Triangle c then updLevel (set_trianglesSpared false) g
             else match c with
                  | Square => updLevel (set_squaresSpared false) g
                  | _ => g
                  end) in *.
  assert (H1 : populates b g g1).
  { unfold g1. destruct c; apply populates_plain; reflexivity || apply Nat.le_refl. }
  set (r := nextRef g1) in *.
  set (g2 := set_staticId (S (staticId g1)) (set_nextRef (S r) g1)) in *.
  assert (H2 : populates b g1 g2).
  { apply populates_plain; try reflexivity. cbn. unfold r. lia. }
  intros Hb. pose proof (H1 Hb) as (Hr & _). fold r in Hr. revert Hb.
  change (populates b g g').
  apply (populates_trans b _ g1 _ H1). apply (populates_trans b _ g2 _ H2).
  clearbody g2. clear H1 H2.
  destruct (Shape_animateVelocities r vd g2) as [g3| |] eqn:H3; try discriminate.
  apply (populates_trans b _ g3 _ (animateVelocities_populates b r vd g2 g3 Hr H3)).
  cbn [bindC] in H.
  destruct (Shape_animateScale r sd g3) as [g4| |] eqn:H4; try discriminate.
  apply (populates_trans b _ g4 _ (animateScale_populates b r sd g3 g4 Hr H4)).
  cbn [bindC] in H.
  destruct (Shape_animateMovement r md g4) as [g5| |] eqn:H5; try discriminate.
  apply (populates_trans b _ g5 _ (animateMovement_populates b r md g4 g5 Hr H5)).
  cbn [bindC] in H.
  destruct (Shape_animateCircularMovement r mcd g5) as [g6| |] eqn:H6; try discriminate.
  apply (populates_trans b _ g6 _ (animateCircularMovement_populates b r mcd g5 g6 Hr H6)).
  cbn [bindC] in H. injection H as <-.
  apply append_populates.
  destruct (String.prefix "armored_" label); repeat split; exact Hr.
Qed.

Lemma spawnArchitecture_populates b points velocityY g g' :
  Level_spawnArchitecture points velocityY g = Normal g' -> populates b g g'.
Proof.
  intros H. unfold Level_spawnArchitecture in H.
  destruct points as [| | |pts]; try discriminate.
  destruct velocityY as [vy| | |]; try discriminate.
  destruct (asPoints pts) as [[|p ps]|]; try discriminate.
  injection H as <-. intros Hb.
  split; [cbn; lia|]. split; [apply incl_refl|]. split; [reflexivity|].
  split; [|split; [apply incl_refl|]].
  - eexists. split; [reflexivity|]. constructor; [|constructor].
    repeat split. exact Hb.
  - intros e He. left. exact He.
Qed.

Lemma processLevelData_populates b data g g' :
  Level_processLevelData data g = Normal g' -> populates b g g'.
Proof.
  intros H. unfold Level_processLevelData in H.
  destruct data as [|d1 [|d2 [|d3 [|d4 [|d5 [|d6 [|d7 [|d8 [|d9 [|d10 [|d11 rest]]]]]]]]]]];
    try discriminate.
  - destruct d1; try discriminate. injection H as <-.
    apply populates_plain; reflexivity || apply Nat.le_refl.
  - destruct d1 as [|s| |]; try (injection H as <-; apply populates_refl).
    destruct (String.eqb s "black").
    + exact (animateBlackout_populates b _ _ _ H).
    + injection H as <-. apply populates_refl.
  - exact (spawnArchitecture_populates b _ _ _ _ H).
  - exact (spawnShape_populates b _ _ _ _ _ _ _ _ _ _ _ _ H).
Qed.

Lemma loadLevel_populates b script g g' :
  Level_loadLevel script g = Normal g' -> populates b (Level_resetLevelState g) g'.
Proof.
  unfold Level_loadLevel. apply forEachC_populates.
  intros a g0 g0'. apply processLevelData_populates.
Qed.

(** ** Old tweens and new shapes *)

Lemma findShape_level r g g' : level g' = level g -> findShape r g' = findShape r g.
Proof. intros H. unfold findShape. rewrite H. reflexivity. Qed.

Lemma tweenUpdate_other_shape h p g t r :
  findTween h g = Some t ->
  (forall r0, tweenTarget (tw_kind t) = Some r0 -> r0 <> r) ->
  findShape r (tweenUpdate h p g) = findShape r g.
Proof.
  intros Ht Hr. unfold tweenUpdate. rewrite Ht.
  destruct (tw_kind t) as [r0|r0 ? ?|r0 ? ? ? ?|r0 ? ? ? ?|?|[|] ? ? ?| |];
    try reflexivity;
    apply findShape_updShape_other; try keeps;
    intros ->; exact (Hr r0 eq_refl eq_refl).
Qed.

(** A tween that is no depletion tween and whose target, if it has one, is
    another shape leaves the shape at [r] as it is, while it runs and when
    it ends. *)
Lemma tween_other_shape h p g t r :
  findTween h g = Some t ->
  isHealthDying (tw_kind t) = false ->
  (forall r0, tweenTarget (tw_kind t) = Some r0 -> r0 <> r) ->
  findShape r (tweenUpdate h p g) = findShape r g
  /\ findShape r (tweenComplete h g) = findShape r g.
Proof.
  intros Ht Hd Hr. split; [exact (tweenUpdate_other_shape h p g t r Ht Hr)|].
  unfold tweenComplete. rewrite Ht. cbv zeta.
  set (g1 := tweenUpdate h (if tw_yoyo t then 0 else 1) g).
  assert (H1 : findShape r g1 = findShape r g)
    by exact (tweenUpdate_other_shape h _ g t r Ht Hr).
  assert (H2 : findShape r (tween_stop h g1) = findShape r g)
    by (rewrite <- H1; apply findShape_level; reflexivity).
  clearbody g1.
  destruct (tw_kind t) as [r0|r0 ? ?|r0 ? ? ? ?|r0 ? ? ? ?|?|o ? ? [|]| |];
    try exact H2; try discriminate Hd.
  - rewrite findShape_updShape_other; [exact H2 | keeps|].
    intros ->. exact (Hr r0 eq_refl eq_refl).
  - rewrite findShape_updShape_other; [exact H2 | keeps|].
    intros ->. exact (Hr r0 eq_refl eq_refl).
  - rewrite <- H2. apply findShape_level. apply refill_level.
Qed.

(** ** Reloading a level *)

(** A level whose only entity is a triangle that starts to change its
    velocity at once, over one second. *)
Definition drifting_level : Script :=
  [ [JNum 0];
    [JStr "triangle"; JNum 100; JNum 100; JNum 0; JNum 20; JNum 0;
     JArr [JArr [JNum 0; JArr [JNum 10; JNum 10; JNum 1000]]]; JArr []; JArr []; JArr []] ].

(** The level is loaded, the clock makes a step, the timer of the velocity
    change fires: the velocity tween of the triangle is running. *)
Definition drifting_game : Game :=
  let g0 := completed (Game_new [] 1)
              (GameScene_loadCurrentLevel (Game_new [drifting_level] 1)) in
  let g1 := Clock_preUpdate g0 in
  completed g1 (timerFire 0 (fun _ => 0) (fun _ => 0) 0%nat g1).




(** ** The catch-up pass and scaled targets *)

(** A level with an intangible upgrade at (300, 300) and a target at
    (100, 100) that grows to twice its size at once. *)
Definition growing_level : Script :=
  [ [JNum 1];
    [JStr "intangible"; JNum 300; JNum 300; JNum 0; JNum 0; JNum 0;
     JArr []; JArr []; JArr []; JArr []];
    [JStr "triangle"; JNum 100; JNum 100; JNum 0; JNum 0; JNum 0;
     JArr []; JArr [JArr [JNum 0; JArr [JNum 100; JNum 2]]]; JArr []; JArr []] ].

(** The level is loaded, the growth has run to its end, the player has
    collected the upgrade, is intangible and rests the pointer at
    (100, 130), inside the lower part of the grown target. *)
Definition grown_target_game : Game :=
  let g0 := Clock_preUpdate
              (completed (Game_new [] 1)
                 (GameScene_loadCurrentLevel (Game_new [growing_level] 1))) in
  let g1 := completed g0 (timerFire 0 (fun _ => 0) (fun _ => 0) 0%nat g0) in
  let g2 := tweenComplete 1 g1 in
  set_pointer (100, 130) (on_keydown_E (on_pointerover 0 (set_pointer (300, 300) g2))).

(** The catch-up pass of [checkAllShapes] tests the outline of a shape as
    it was created, moved to the position of the shape.  When that test
    selects no shape, the end of intangibility clears the flag and does
    nothing else, whatever the hover hit test says, which sees the shapes
    rotated and scaled. *)
Theorem finishIntangible_without_selection (g : Game) :
  (forall s, In s (shapes (level g)) -> passSelects g s = false) ->
  GameScene_finishIntangible g = updLevel (set_intangible false) g.
Proof.
  intros Hno. unfold GameScene_finishIntangible, Level_checkAllShapes, forEachShape.
  set (g0 := updLevel (set_intangible false) g).
  apply (fold_left_invariant (fun acc => acc = g0)); [reflexivity|].
  intros r acc _ ->.
  destruct (findShape r g0) as [s|] eqn:Hs.
  - apply (checkAllShapes_body_miss r s g0 Hs).
    exact (Hno s (findShape_In r g0 s Hs)).
  - unfold checkAllShapes_body. rewrite Hs. reflexivity.
Qed.

(** In [grown_target_game] the pointer is inside the hover region of the
    target, which has scale 2, and the pass selects nothing. *)
Lemma finishIntangible_without_selection_witness :
  let g := grown_target_game in
  exists t,
    findShape 1 g = Some t
    /\ isTarget (sh_cls t) = true /\ sh_dying t = false /\ sh_scaleFactor t == 2
    /\ Input_hitTest (fun _ => 1) (fun _ => 0) t (fst (pointer g)) (snd (pointer g)) = true
    /\ GameScene_finishIntangible g = updLevel (set_intangible false) g.
Proof.
  intros g. eexists. split; [vm_compute; reflexivity|].
  split; [reflexivity|]. split; [reflexivity|]. split; [reflexivity|].
  split; [vm_compute; reflexivity|].
  apply finishIntangible_without_selection.
  intros s Hs.
  assert (E : map (passSelects g) (shapes (level g)) = [false; false])
    by (vm_compute; reflexivity).
  apply (in_map (passSelects g)) in Hs. rewrite E in Hs.
  destruct Hs as [<-|[<-|[]]]; reflexivity.
Defined.

(** ** Timers added in the step of a reload *)

Definition sameTimers (g g' : Game) : Prop :=
  events g' = events g /\ slowtimeTimerEvent g' = slowtimeTimerEvent g.

Lemma sameTimers_hoverClosed : hoverClosed sameTimers.
Proof.
  constructor; unfold sameTimers.
  - split; reflexivity.
  - intros a b c (H1 & H2) (H3 & H4). split; congruence.
  - split; frame_by HealthBar_refillAndPauseHealthBar.
  - split; frame_by Shape_performDeathAnimation.
  - split; reflexivity.
  - split; reflexivity.
  - split; reflexivity.
  - split; reflexivity.
Qed.

Lemma events_updLevel f g : events (updLevel f g) = events g.
Proof. reflexivity. Qed.

Lemma finishSlowtime_events g : events (GameScene_finishSlowtime g) = events g.
Proof. exact (f_equal events (finishSlowtime_forget g)). Qed.

Lemma removeSlowtimeTimer_events g :
  events (match slowtimeTimerEvent g with
          | Some h => set_slowtimeTimerEvent None (event_remove h g)
          | None => g
          end)
  = match slowtimeTimerEvent g with
    | Some h => filter (fun e => negb (Nat.eqb (ev_handle e) h)) (events g)
    | None => events g
    end.
Proof. destruct (slowtimeTimerEvent g); reflexivity. Qed.

(** The reset takes the slow-time timer from the clock and no other. *)
Lemma resetLevelState_events g :
  events (Level_resetLevelState g)
  = match slowtimeTimerEvent g with
    | Some h => filter (fun e => negb (Nat.eqb (ev_handle e) h)) (events g)
    | None => events g
    end.
Proof.
  unfold Level_resetLevelState. cbv zeta.
  rewrite events_updLevel, hideInstant_events.
  unfold Level_resetPowerUpsAndEffects. cbv zeta.
  rewrite stopSceneTween_events, finishSlowtime_events, events_updLevel,
    removeSlowtimeTimer_events.
  match goal with
  | |- context [GameScene_finishIntangible ?v] =>
      destruct (checkAllShapes_closed sameTimers sameTimers_hoverClosed
                  (updLevel (set_intangible false) v)) as (He & Hs);
      change (Level_checkAllShapes (updLevel (set_intangible false) v))
        with (GameScene_finishIntangible v) in He, Hs;
      rewrite He, Hs
  end.
  rewrite !events_updLevel, !stopSceneTween_events, !events_updLevel.
  rewrite slowtimeTimerEvent_updLevel, slowtimeTimerEvent_updLevel,
    !stopSceneTween_slowtimeTimerEvent, slowtimeTimerEvent_updLevel.
  reflexivity.
Qed.

Lemma swept_slowtimeTimerEvent g : slowtimeTimerEvent (swept g) = slowtimeTimerEvent g.
Proof.
  unfold swept.
  exact (proj2 (clearShapesNoSound_closed sameTimers sameTimers_hoverClosed
                  (set_score 0%Z (time_removeAllEvents g)))).
Qed.

(** [removeAllEvents] does not reach a timer that was added since the last
    step of the clock: such a timer, unless it is the slow-time timer that
    the reset removes by its reference, is still on the clock after the
    reload and after the next step of the clock. *)
Theorem reload_keeps_pending_timers (g g' : Game) (e : TimerEvent) :
  GameScene_loadCurrentLevel g = Normal g' ->
  In e (events g) -> isPendingInsertion g e = true ->
  ~ In (ev_handle e) (pendingRemoval g) ->
  slowtimeTimerEvent g <> Some (ev_handle e) ->
  In e (events (Clock_preUpdate g')).
Proof.
  intros H He Hp Hnr Hslow.
  rewrite loadCurrentLevel_unfold in H.
  destruct (nth_error _ _) as [script|]; [|discriminate H].
  destruct (swept_clock g) as (Hev & Hrem & Hnext).
  destruct (resetLevelState_settles (nextRef g) (swept g)) as (_ & _ & Nres & Pres & _).
  pose proof (loadLevel_populates (nextRef g) script (swept g) g' H) as Hpop.
  destruct Hpop as (_ & _ & Ppop & _ & Ipop & _);
    [rewrite Nres, Hnext; apply Nat.le_refl|].
  unfold Clock_preUpdate. cbn. apply filter_In. split.
  - apply Ipop. rewrite resetLevelState_events, swept_slowtimeTimerEvent, Hev.
    destruct (slowtimeTimerEvent g) as [h|]; [|exact He].
    apply filter_In. split; [exact He|]. apply negb_true_iff, Nat.eqb_neq.
    intros Heq. apply Hslow. rewrite Heq. reflexivity.
  - apply negb_true_iff. apply not_true_is_false. intros Hex.
    apply existsb_exists in Hex as (h & Hin & Hh). apply Nat.eqb_eq in Hh. subst h.
    rewrite Ppop, Pres, Hrem in Hin. apply in_app_or in Hin as [Hin|Hin];
      [exact (Hnr Hin)|].
    apply in_map_iff in Hin as (a & Ha & Hact).
    unfold activeEvents in Hact. apply filter_In in Hact as [_ Hact].
    unfold isPendingInsertion in Hact, Hp. rewrite Ha, Hp in Hact. discriminate Hact.
Qed.

(** The player collects the upgrade of [target_level] and, within one step
    of the clock, becomes intangible with E and reloads the level: the
    timer that ends intangibility survives, and when it fires its catch-up
    pass scores on the target of the new level under the pointer. *)
Lemma reload_keeps_pending_timers_witness :
  let g1 := set_pointer (100, 100)
              (on_keydown_E (on_pointerover 0
                               (set_pointer (300, 300) (Clock_preUpdate target_game)))) in
  let timer := mkTimerEvent 3 1000 false CbFinishIntangible in
  exists g2 g4,
    GameScene_loadCurrentLevel g1 = Normal g2
    /\ In timer (events (Clock_preUpdate g2))
    /\ option_map sh_dying (findShape 3 (Clock_preUpdate g2)) = Some false
    /\ timerFire 0 (fun _ => 0) (fun _ => 0) 3%nat (Clock_preUpdate g2) = Normal g4
    /\ option_map sh_dying (findShape 3 g4) = Some true
    /\ score g4 = (score g2 + 1)%Z.
Proof.
  intros g1 timer. eexists. eexists.
  split; [vm_compute; reflexivity|].
  split.
  - match goal with
    | |- In _ (events (Clock_preUpdate ?g2)) =>
        apply (reload_keeps_pending_timers g1 g2 timer)
    end.
    + vm_compute. reflexivity.
    + vm_compute. left. reflexivity.
    + vm_compute. reflexivity.
    + vm_compute. intros [].
    + vm_compute. discriminate.
  - split; [vm_compute; reflexivity|]. split; [vm_compute; reflexivity|].
    split; vm_compute; reflexivity.
Defined.

(** ** The death animation, in one statement *)

(** [performDeathAnimation] on a shape that is not dying marks it as
    dying, starts exactly one fade of 250 ms, plays the pop only when the
    shape is not more than 50 below the lower edge of the screen, leaves
    the score and every other shape as they are, and a second call changes
    nothing. *)
Theorem performDeathAnimation_once (r : nat) (g : Game) (s : Shape) :
  findShape r g = Some s -> sh_dying s = false ->
  let g' := Shape_performDeathAnimation r g in
  findShape r g' = Some (set_sh_dying true s)
  /\ (forall r0, r0 <> r -> findShape r0 g' = findShape r0 g)
  /\ tweens g' = tweens g ++ [mkTween (nextHandle g) (TwDeath r) 250 0 1 0 false]
  /\ sounds g' = (if Qle_bool (sh_y s) (config_height + 50)
                  then sounds g ++ ["pop"%string] else sounds g)
  /\ score g' = score g
  /\ events g' = events g
  /\ Shape_performDeathAnimation r g' = g'.
Proof.
  intros Hs Hd g'. subst g'.
  split; [exact (pda_findShape_same r g s Hs)|].
  split; [intros r0 Hne; exact (pda_findShape_other r0 r g Hne)|].
  split; [rewrite pda_tweens, Hs, Hd; reflexivity|].
  split; [rewrite pda_sounds, Hs, Hd; reflexivity|].
  split; [apply pda_score|]. split; [apply pda_events|].
  apply pda_idempotent.
Qed.

Lemma performDeathAnimation_once_witness :
  let g := target_game in
  let g' := Shape_performDeathAnimation 1 g in
  option_map sh_dying (findShape 1 g') = Some true
  /\ sounds g' = sounds g ++ ["pop"%string]
  /\ Shape_performDeathAnimation 1 g' = g'.
Proof.
  intros g g'.
  pose (t := Shape_new 1 Triangle 1 "triangle" 100 100 0 0 0 Triangle_geom).
  assert (Hs : findShape 1 g = Some t) by (vm_compute; reflexivity).
  destruct (performDeathAnimation_once 1 g t Hs eq_refl)
    as (Hf & _ & _ & Hsnd & _ & _ & Hidem).
  fold g' in Hf, Hsnd, Hidem. rewrite Hf.
  split; [reflexivity|]. split; [exact Hsnd | exact Hidem].
Defined.

(** ** Hover dispatch: the frame *)


(** ** The resource bar: one depletion at a time *)

Lemma decrease_tweens g :
  tweens (HealthBar_decreaseHealthBar g)
  = match hb_dyingTween (healthBar g) with
    | Some h => filter (fun t => negb (Nat.eqb (tw_handle t) h)) (tweens g)
    | None => tweens g
    end
    ++ [mkTween (nextHandle g) (TwHealthDying (hb_fillScaleX (healthBar g))) 4000 0 1 0 false].
Proof.
  unfold HealthBar_decreaseHealthBar, tweens_add. cbn.
  destruct (hb_dyingTween (healthBar g)); reflexivity.
Qed.

Lemma decrease_dyingTween g :
  hb_dyingTween (healthBar (HealthBar_decreaseHealthBar g)) = Some (nextHandle g).
Proof.
  unfold HealthBar_decreaseHealthBar, tweens_add. cbn.
  destruct (hb_dyingTween (healthBar g)); reflexivity.
Qed.

Lemma decrease_depletionTracked g :
  depletionTracked g -> depletionTracked (HealthBar_decreaseHealthBar g).
Proof.
  intros B t Hin Ht. rewrite decrease_dyingTween. rewrite decrease_tweens in Hin.
  apply in_app_or in Hin as [Hin|[<-|[]]]; [exfalso|reflexivity].
  destruct (hb_dyingTween (healthBar g)) as [h|] eqn:Hh.
  - apply filter_In in Hin as [Hin Hne]. pose proof (B t Hin Ht) as Hb.
    rewrite Hh in Hb. injection Hb as ->. rewrite Nat.eqb_refl in Hne. discriminate Hne.
  - pose proof (B t Hin Ht) as Hb. rewrite Hh in Hb. discriminate Hb.
Qed.

Lemma tweens_add_depletionTracked kind d1 d2 rp yoyo g :
  isHealthDying kind = false -> depletionTracked g ->
  depletionTracked (snd (tweens_add kind d1 d2 rp yoyo g)).
Proof.
  intros Hk B t Hin Ht. cbn in Hin |- *.
  apply in_app_or in Hin as [Hin|[<-|[]]]; [exact (B t Hin Ht)|].
  cbn in Ht. rewrite Hk in Ht. discriminate Ht.
Qed.

Lemma refill_depletionTracked g :
  depletionTracked g -> depletionTracked (HealthBar_refillAndPauseHealthBar g).
Proof.
  intros B t Hin Ht. rewrite (refill_no_depletion g t B Hin) in Ht. discriminate Ht.
Qed.

(** If the only depletion tween among the active tweens is the one the
    health bar refers to, the same holds after each operation of the bar;
    after [decreaseHealthBar] the bar refers to the depletion it has just
    started, which runs for 4000 ms from the current fill, and after a
    refill no depletion is left at all. *)
Theorem healthBar_one_depletion (g : Game) :
  depletionTracked g ->
  depletionTracked (HealthBar_decreaseHealthBar g)
  /\ depletionTracked (HealthBar_showHealthBar g)
  /\ depletionTracked (HealthBar_hideHealthBar g)
  /\ depletionTracked (HealthBar_hideHealthBarInstant g)
  /\ depletionTracked (HealthBar_refillAndPauseHealthBar g)
  /\ (hb_dyingTween (healthBar (HealthBar_decreaseHealthBar g)) = Some (nextHandle g)
      /\ In (mkTween (nextHandle g) (TwHealthDying (hb_fillScaleX (healthBar g))) 4000 0 1 0 false)
            (tweens (HealthBar_decreaseHealthBar g)))
  /\ (forall t, In t (tweens (HealthBar_refillAndPauseHealthBar g)) ->
                isHealthDying (tw_kind t) = false).
Proof.
  intros B.
  split; [exact (decrease_depletionTracked g B)|].
  split.
  { unfold HealthBar_showHealthBar. destruct (Qeq_bool _ 1); [exact B|].
    apply tweens_add_depletionTracked; [reflexivity|].
    apply tweens_add_depletionTracked; [reflexivity|].
    exact (decrease_depletionTracked g B). }
  split.
  { unfold HealthBar_hideHealthBar. apply refill_depletionTracked.
    apply tweens_add_depletionTracked; [reflexivity|].
    apply tweens_add_depletionTracked; [reflexivity | exact B]. }
  split.
  { intros t Hin Ht. rewrite hideInstant_tweens in Hin.
    rewrite (refill_no_depletion g t B Hin) in Ht. discriminate Ht. }
  split; [exact (refill_depletionTracked g B)|].
  split.
  { split; [apply decrease_dyingTween|]. rewrite decrease_tweens.
    apply in_or_app. right. left. reflexivity. }
  intros t Hin. exact (refill_no_depletion g t B Hin).
Qed.

Lemma healthBar_one_depletion_witness :
  let g := HealthBar_decreaseHealthBar (Game_new [] 1) in
  depletionTracked g
  /\ depletionTracked (HealthBar_decreaseHealthBar g)
  /\ forall t, In t (tweens (HealthBar_refillAndPauseHealthBar g)) ->
               isHealthDying (tw_kind t) = false.
Proof.
  intros g.
  assert (B0 : depletionTracked (Game_new [] 1)) by (intros t []).
  destruct (healthBar_one_depletion (Game_new [] 1) B0) as (B & _).
  destruct (healthBar_one_depletion g B) as (Bd & _ & _ & _ & _ & _ & Hr).
  split; [exact B|]. split; [exact Bd | exact Hr].
Defined.

(** ** Static obstacles: the normalised polygon *)

Lemma Math_min_le_start q l : Math_min q l <= q.
Proof.
  unfold Math_min. revert q. induction l as [|v l IH]; intros q; cbn; [apply Qle_refl|].
  unfold Qlt_bool. destruct (Qle_bool q v) eqn:E; cbn.
  - apply IH.
  - apply (Qle_trans _ v); [apply IH|].
    apply Qlt_le_weak, Qnot_le_lt. intros Hle. apply Qle_bool_iff in Hle. congruence.
Qed.

Lemma Math_min_le_each q l v : In v l -> Math_min q l <= v.
Proof.
  unfold Math_min. revert q. induction l as [|w l IH]; intros q Hin; [contradiction|].
  cbn. destruct Hin as [->|Hin]; [|apply IH; exact Hin].
  fold (Math_min (if Qlt_bool v q then v else q) l).
  apply (Qle_trans _ _ _ (Math_min_le_start _ l)).
  unfold Qlt_bool. destruct (Qle_bool q v) eqn:E; cbn; [|apply Qle_refl].
  apply Qle_bool_iff. exact E.
Qed.

Lemma Math_min_attained q l : Math_min q l = q \/ In (Math_min q l) l.
Proof.
  unfold Math_min. revert q. induction l as [|v l IH]; intros q; cbn; [left; reflexivity|].
  destruct (IH (if Qlt_bool v q then v else q)) as [H|H]; [|right; right; exact H].
  rewrite H. destruct (Qlt_bool v q); [right; left; reflexivity | left; reflexivity].
Qed.

(** [spawnArchitecture] on a list of at least one point appends one
    obstacle whose position is [(0, minY)], where [minY] is the least [y]
    of the points, and whose polygon is the list of points moved up by
    [minY]: the [x] coordinates are kept, no vertex lies above the position
    and at least one lies at its height. *)
Theorem spawnArchitecture_normalised (p : Q * Q) (ps : list (Q * Q)) (vy : Q) (g : Game) :
  exists g' s pts,
    Level_spawnArchitecture (JArr (map pointValue (p :: ps))) (JNum vy) g = Normal g'
    /\ shapes (level g') = shapes (level g) ++ [s]
    /\ sh_geom s = GPolygon pts
    /\ sh_x s = 0 /\ sh_velocityY s = vy
    /\ (forall q, In q (p :: ps) -> sh_y s <= snd q)
    /\ (exists q, In q (p :: ps) /\ sh_y s = snd q)
    /\ pts = map (fun q => (fst q, snd q - sh_y s)) (p :: ps)
    /\ (forall v, In v pts -> 0 <= snd v)
    /\ (exists v, In v pts /\ snd v == 0).
Proof.
  unfold Level_spawnArchitecture. rewrite asPoints_pointValue.
  set (minY := Math_min (snd p) (map snd ps)).
  assert (Hle : forall q, In q (p :: ps) -> minY <= snd q).
  { intros q [<-|Hq]; [apply Math_min_le_start|].
    apply Math_min_le_each. apply in_map. exact Hq. }
  assert (Hat : exists q, In q (p :: ps) /\ minY = snd q).
  { destruct (Math_min_attained (snd p) (map snd ps)) as [H|H].
    - exists p. split; [left; reflexivity | exact H].
    - apply in_map_iff in H as (q & Hq & Hin). exists q.
      split; [right; exact Hin | symmetry; exact Hq]. }
  eexists. eexists. eexists. split; [reflexivity|].
  split; [reflexivity|]. split; [reflexivity|]. split; [reflexivity|].
  split; [reflexivity|]. cbn [sh_y Shape_new].
  split; [exact Hle|]. split; [exact Hat|]. split; [reflexivity|].
  split.
  - intros v Hv. apply in_map_iff in Hv as (q & <- & Hq). cbn [snd].
    apply (Qplus_le_r _ _ minY). ring_simplify. exact (Hle q Hq).
  - destruct Hat as (q & Hq & Heq). exists (fst q, snd q - minY).
    split; [apply (in_map (fun q => (fst q, snd q - minY))); exact Hq|].
    cbn [snd]. rewrite Heq. ring.
Qed.

(** ** Well-formed states *)

(** The shapes have distinct addresses below the next free address, the
    tweens write to addresses below it, and the only depletion tween is
    the one the health bar refers to. *)
Definition wellFormed (g : Game) : Prop :=
  NoDup (refs g) /\ scheduleOk (nextRef g) g.

Definition keepsWF (g g' : Game) : Prop := wellFormed g -> wellFormed g'.

Lemma keepsWF_refl g : keepsWF g g.
Proof. intros H. exact H. Qed.

Lemma keepsWF_trans g1 g2 g3 : keepsWF g1 g2 -> keepsWF g2 g3 -> keepsWF g1 g3.
Proof. intros H12 H23 H. exact (H23 (H12 H)). Qed.

(** Same shapes and addresses, no new tween. *)
Lemma wf_fewer g g' :
  refs g' = refs g -> nextRef g' = nextRef g ->
  incl (tweens g') (tweens g) ->
  hb_dyingTween (healthBar g') = hb_dyingTween (healthBar g) ->
  keepsWF g g'.
Proof.
  intros Hr Hn Ht Hh (Hnd & Hok). split; [rewrite Hr; exact Hnd|].
  rewrite Hn. exact (scheduleOk_incl _ g g' Ht Hh Hr Hok).
Qed.

Lemma wf_same g g' :
  refs g' = refs g -> nextRef g' = nextRef g -> tweens g' = tweens g ->
  hb_dyingTween (healthBar g') = hb_dyingTween (healthBar g) ->
  keepsWF g g'.
Proof. intros Hr Hn Ht. apply wf_fewer; try assumption. rewrite Ht. apply incl_refl. Qed.

Lemma wf_keepsSchedule g g' :
  refs g' = refs g -> nextRef g' = nextRef g -> keepsSchedule (nextRef g) g g' ->
  keepsWF g g'.
Proof.
  intros Hr Hn K (Hnd & Hok). split; [rewrite Hr; exact Hnd|]. rewrite Hn. exact (K Hok).
Qed.

Lemma updShape_keepsWF r f g : keepsRef f -> keepsWF g (updShape r f g).
Proof. intros Hf. apply wf_same; try reflexivity. apply refs_updShape. exact Hf. Qed.

Lemma updLevel_keepsWF f g :
  (forall l, shapes (f l) = shapes l) -> keepsWF g (updLevel f g).
Proof.
  intros Hf. apply wf_same; try reflexivity. unfold refs. cbn. rewrite Hf. reflexivity.
Qed.

Lemma pda_keepsWF r g : keepsWF g (Shape_performDeathAnimation r g).
Proof.
  apply wf_keepsSchedule; [apply pda_refs | apply pda_nextRef | apply pda_keepsSchedule].
Qed.

Lemma refill_keepsWF g : keepsWF g (HealthBar_refillAndPauseHealthBar g).
Proof.
  apply wf_keepsSchedule; [|apply refill_nextRef | apply refill_keepsSchedule].
  unfold refs. rewrite refill_level. reflexivity.
Qed.

Lemma keepsWF_hoverClosed : hoverClosed keepsWF.
Proof.
  constructor.
  - apply keepsWF_refl.
  - intros a b c. apply keepsWF_trans.
  - apply refill_keepsWF.
  - apply pda_keepsWF.
  - intros r g. apply updShape_keepsWF. keeps.
  - intros v g. apply updLevel_keepsWF. reflexivity.
  - intros v g. apply updLevel_keepsWF. reflexivity.
  - intros v g. apply wf_same; reflexivity.
Qed.

(** One more tween, with no target or with a target below the next free
    address, and no depletion. *)
Lemma tweens_add_keepsWF kind d1 d2 rp yoyo g :
  isHealthDying kind = false ->
  (forall r, tweenTarget kind = Some r -> (r < nextRef g)%nat) ->
  keepsWF g (snd (tweens_add kind d1 d2 rp yoyo g)).
Proof.
  intros Hk Hr (Hnd & A & B & C). split; [exact Hnd|]. split; [|split; [|exact C]].
  - intros t r Hin Ht. cbn in Hin. apply in_app_or in Hin as [Hin|[<-|[]]];
      [exact (A t r Hin Ht) | exact (Hr r Ht)].
  - exact (tweens_add_depletionTracked kind d1 d2 rp yoyo g Hk B).
Qed.

Lemma decrease_keepsWF g : keepsWF g (HealthBar_decreaseHealthBar g).
Proof.
  intros (Hnd & A & B & C).
  split; [unfold refs; rewrite decrease_level; exact Hnd|].
  assert (Hn : nextRef (HealthBar_decreaseHealthBar g) = nextRef g).
  { unfold HealthBar_decreaseHealthBar, tweens_add. cbn.
    destruct (hb_dyingTween (healthBar g)); reflexivity. }
  rewrite Hn. split; [|split].
  - intros t r Hin Ht. rewrite decrease_tweens in Hin.
    apply in_app_or in Hin as [Hin|[<-|[]]]; [|discriminate Ht].
    apply (A t r); [|exact Ht].
    destruct (hb_dyingTween (healthBar g)); [apply filter_In in Hin as [Hin _]|]; exact Hin.
  - exact (decrease_depletionTracked g B).
  - unfold refsBelow, refs. rewrite decrease_level. exact C.
Qed.

Lemma show_keepsWF g : keepsWF g (HealthBar_showHealthBar g).
Proof.
  unfold HealthBar_showHealthBar. destruct (Qeq_bool _ 1); [apply keepsWF_refl|].
  eapply keepsWF_trans; [apply decrease_keepsWF|].
  eapply keepsWF_trans; apply tweens_add_keepsWF; try reflexivity; discriminate.
Qed.

Lemma hide_keepsWF g : keepsWF g (HealthBar_hideHealthBar g).
Proof.
  unfold HealthBar_hideHealthBar.
  eapply keepsWF_trans; [|apply refill_keepsWF].
  eapply keepsWF_trans; apply tweens_add_keepsWF; try reflexivity; discriminate.
Qed.

Lemma hideInstant_keepsWF g : keepsWF g (HealthBar_hideHealthBarInstant g).
Proof.
  unfold HealthBar_hideHealthBarInstant.
  eapply keepsWF_trans; [apply refill_keepsWF|].
  apply wf_same; reflexivity.
Qed.

Lemma stopSceneTween_keepsWF slot g : keepsWF g (stopSceneTween slot g).
Proof.
  apply wf_fewer.
  - unfold refs. rewrite stopSceneTween_level. reflexivity.
  - apply stopSceneTween_nextRef.
  - apply stopSceneTween_incl.
  - rewrite stopSceneTween_healthBar. reflexivity.
Qed.

Lemma adjustActiveTweens_keepsWF g : keepsWF g (GameScene_adjustActiveTweens g).
Proof.
  pose proof (adjustActiveTweens_forget g) as H.
  apply wf_keepsSchedule.
  - exact (f_equal refs H).
  - exact (f_equal nextRef H).
  - apply forget_keepsSchedule. exact H.
Qed.

Lemma purge_keepsWF g : keepsWF g (purge g).
Proof.
  intros (Hnd & Hok). split.
  - unfold refs, purge. cbn. apply refs_filter_NoDup. exact Hnd.
  - exact (scheduleOk_purge _ g Hok).
Qed.

Lemma unlock_keepsWF name g : keepsWF g (GameScene_unlockAchievement name g).
Proof.
  unfold GameScene_unlockAchievement. destruct (existsb _ _); [apply keepsWF_refl|].
  apply wf_same; reflexivity.
Qed.

Lemma delayedCall_keepsWF delay cb g : keepsWF g (snd (time_delayedCall delay cb g)).
Proof. apply wf_same; reflexivity. Qed.

Lemma checkLevelCleared_keepsWF g : keepsWF g (Level_checkLevelCleared g).
Proof.
  unfold Level_checkLevelCleared. destruct (shapes (level g)); [|apply keepsWF_refl].
  cbv zeta.
  eapply keepsWF_trans; [|apply delayedCall_keepsWF].
  eapply keepsWF_trans; [|apply updLevel_keepsWF; reflexivity].
  match goal with
  | |- keepsWF _ (if ?c then sound_play ?a ?x else sound_play ?b ?x) =>
      apply (keepsWF_trans _ x); [|destruct c; apply wf_same; reflexivity]
  end.
  match goal with
  | |- keepsWF _ (if ?c then ?x else ?y) =>
      apply (keepsWF_trans _ y);
      [|destruct c; [|apply keepsWF_refl];
        match goal with
        | |- keepsWF _ (if ?c' then _ else _) =>
            destruct c';
            [eapply keepsWF_trans; apply unlock_keepsWF | apply unlock_keepsWF]
        end]
  end.
  eapply keepsWF_trans; [|apply hideInstant_keepsWF].
  eapply keepsWF_trans; [|apply updLevel_keepsWF; reflexivity].
  eapply keepsWF_trans; [|apply stopSceneTween_keepsWF].
  eapply keepsWF_trans; apply stopSceneTween_keepsWF.
Qed.

Lemma Level_update_body_keepsWF delta r only g :
  keepsWF g (snd (Level_update_body delta r (only, g))).
Proof.
  unfold Level_update_body.
  set (g1 := updShape r _ g).
  assert (H1 : keepsWF g g1) by (apply updShape_keepsWF; keeps).
  clearbody g1.
  destruct (findShape r g1) as [shape|]; [|exact H1].
  destruct (sh_dying shape); [exact H1|].
  apply (keepsWF_trans _ g1 _ H1). clear H1.
  cbv zeta.
  set (g2 := if Qgt_bool (sh_y shape) (config_height + 50) then _ else g1).
  assert (H2 : keepsWF g1 g2).
  { unfold g2. destruct (Qgt_bool (sh_y shape) (config_height + 50)); [|apply keepsWF_refl].
    match goal with
    | |- keepsWF _ (if ?c then HealthBar_hideHealthBar ?x else ?x) =>
        apply (keepsWF_trans _ x); [|destruct c; [apply hide_keepsWF | apply keepsWF_refl]]
    end.
    repeat match goal with
    | |- keepsWF _ (if ?c then updLevel ?f ?x else ?x) =>
        apply (keepsWF_trans _ x);
        [|destruct c; [apply updLevel_keepsWF; reflexivity | apply keepsWF_refl]]
    end.
    apply pda_keepsWF. }
  clearbody g2. cbn [snd]. apply (keepsWF_trans _ g2 _ H2).
  destruct (instanceof_Area (sh_cls shape)); [|apply keepsWF_refl].
  destruct (_ && _); [|apply keepsWF_refl].
  eapply keepsWF_trans; [apply show_keepsWF | apply updLevel_keepsWF; reflexivity].
Qed.

Lemma Level_update_keepsWF delta g : keepsWF g (Level_update delta g).
Proof.
  unfold Level_update.
  assert (Hloop : forall rs only g0,
            keepsWF g0 (snd (fold_left (fun acc r => Level_update_body delta r acc)
                               rs (only, g0)))).
  { induction rs as [|r rs IH]; intros only g0; cbn [fold_left]; [apply keepsWF_refl|].
    pose proof (Level_update_body_keepsWF delta r only g0) as Hb.
    destruct (Level_update_body delta r (only, g0)) as [only1 g1]. cbn [snd] in Hb.
    exact (keepsWF_trans _ _ _ Hb (IH only1 g1)). }
  specialize (Hloop (map sh_ref (shapes (level g))) true g).
  destruct (fold_left _ _ (true, g)) as [only g1]. cbn [snd] in Hloop.
  apply (keepsWF_trans _ g1 _ Hloop). clear Hloop.
  set (g2 := if only then _ else g1).
  assert (H2 : keepsWF g1 g2).
  { unfold g2. destruct only; [|apply keepsWF_refl].
    apply (keepsWF_trans _ (updLevel (set_architectureSpared true) g1));
      [apply updLevel_keepsWF; reflexivity|].
    exact (clearShapesNoSound_closed keepsWF keepsWF_hoverClosed _). }
  clearbody g2. apply (keepsWF_trans _ g2 _ H2).
  change (updLevel _ g2) with (purge g2).
  destruct (_ <? _)%nat; [|apply purge_keepsWF].
  eapply keepsWF_trans; [apply purge_keepsWF | apply checkLevelCleared_keepsWF].
Qed.

Lemma takeDamage_keepsWF r g : keepsWF g (ArmoredTriangle_takeDamage r g).
Proof.
  unfold ArmoredTriangle_takeDamage.
  destruct (findShape r g) as [s|]; [|apply keepsWF_refl].
  cbv zeta.
  set (g1 := updShape r _ g).
  assert (H1 : keepsWF g g1) by (apply updShape_keepsWF; keeps).
  clearbody g1.
  destruct (option_map _ (sh_healthPoints s)) as [h|]; [|exact H1].
  apply (keepsWF_trans _ g1 _ H1).
  destruct (h =? 0)%Z.
  - apply (keepsWF_trans _ (set_score (score g1 + 1)%Z g1)); [apply wf_same; reflexivity|].
    unfold forEachShape. apply (fold_closed keepsWF keepsWF_hoverClosed).
    intros r' acc. destruct (Nat.eqb r r'); [apply pda_keepsWF | apply keepsWF_refl].
  - destruct (0 <? h)%Z; [|apply keepsWF_refl]. apply updShape_keepsWF. keeps.
Qed.

Lemma tweenUpdate_keepsWF h p g : keepsWF g (tweenUpdate h p g).
Proof.
  unfold tweenUpdate. destruct (findTween h g) as [t|]; [|apply keepsWF_refl].
  destruct (tw_kind t) as [r0|r0 ? ?|r0 ? ? ? ?|r0 ? ? ? ?|?|[|] ? ? ?| |];
    try apply keepsWF_refl;
    try (apply updShape_keepsWF; keeps);
    apply wf_same; reflexivity.
Qed.

Lemma tween_stop_keepsWF h g : keepsWF g (tween_stop h g).
Proof. apply wf_fewer; try reflexivity. apply tween_stop_incl. Qed.

Lemma tweenComplete_keepsWF h g : keepsWF g (tweenComplete h g).
Proof.
  unfold tweenComplete. destruct (findTween h g) as [t|]; [|apply keepsWF_refl].
  cbv zeta.
  set (g2 := tween_stop h _).
  assert (H2 : keepsWF g g2).
  { unfold g2. eapply keepsWF_trans; [apply tweenUpdate_keepsWF | apply tween_stop_keepsWF]. }
  clearbody g2. apply (keepsWF_trans _ g2 _ H2).
  destruct (tw_kind t) as [r0|r0 ? ?|r0 ? ? ? ?|r0 ? ? ? ?|?|o ? ? [|]| |];
    try apply keepsWF_refl;
    try (apply updShape_keepsWF; keeps).
  - apply (keepsWF_trans _ (Level_clearShapesNoSound g2));
      [exact (clearShapesNoSound_closed keepsWF keepsWF_hoverClosed _)|].
    apply wf_same; reflexivity.
  - apply refill_keepsWF.
Qed.

(** The animations of a script line only schedule timers. *)
Definition schedulesOnly (g g' : Game) : Prop :=
  refs g' = refs g /\ nextRef g' = nextRef g /\ incl (tweens g') (tweens g)
  /\ hb_dyingTween (healthBar g') = hb_dyingTween (healthBar g).

Lemma schedulesOnly_refl g : schedulesOnly g g.
Proof. repeat split; try reflexivity. apply incl_refl. Qed.

Lemma schedulesOnly_trans g1 g2 g3 :
  schedulesOnly g1 g2 -> schedulesOnly g2 g3 -> schedulesOnly g1 g3.
Proof.
  intros (R1 & N1 & T1 & H1) (R2 & N2 & T2 & H2).
  split; [congruence|]. split; [congruence|]. split; [exact (incl_tran T2 T1) | congruence].
Qed.

Lemma forEachC_related {A : Type} (R : Game -> Game -> Prop)
    (body : A -> Game -> Completion Game) (l : list A) :
  (forall g, R g g) -> (forall a b c, R a b -> R b c -> R a c) ->
  (forall a g g', body a g = Normal g' -> R g g') ->
  forall g g', forEachC body l g = Normal g' -> R g g'.
Proof.
  intros Hrefl Htrans Hbody. induction l as [|a l IH]; intros g g' H; cbn in H.
  - injection H as <-. apply Hrefl.
  - destruct (body a g) as [g1| |] eqn:Ha; cbn in H; try discriminate.
    exact (Htrans _ _ _ (Hbody _ _ _ Ha) (IH _ _ H)).
Qed.

Lemma delayedCall_schedulesOnly delay cb g :
  schedulesOnly g (snd (time_delayedCall delay cb g)).
Proof. repeat split; try reflexivity. apply incl_refl. Qed.

Lemma stopSceneTween_schedulesOnly slot g : schedulesOnly g (stopSceneTween slot g).
Proof.
  split; [unfold refs; rewrite stopSceneTween_level; reflexivity|].
  split; [apply stopSceneTween_nextRef|].
  split; [apply stopSceneTween_incl|].
  rewrite stopSceneTween_healthBar. reflexivity.
Qed.

Lemma initiate_schedulesOnly arity mkCb entry g g' :
  initiate arity mkCb entry g = Normal g' -> schedulesOnly g g'.
Proof.
  intros H. unfold initiate in H.
  repeat (break_match_hyp H; try discriminate).
  injection H as <-. repeat split; try reflexivity. apply incl_refl.
Qed.

Lemma animateList_schedulesOnly arity mkCb arr g g' :
  animateList arity mkCb arr g = Normal g' -> schedulesOnly g g'.
Proof.
  unfold animateList. destruct arr; try discriminate.
  apply forEachC_related;
    [apply schedulesOnly_refl | apply schedulesOnly_trans|].
  intros a g0 g0'. apply initiate_schedulesOnly.
Qed.

Lemma animateCircularMovement_schedulesOnly r arr g g' :
  Shape_animateCircularMovement r arr g = Normal g' -> schedulesOnly g g'.
Proof.
  intros H. unfold Shape_animateCircularMovement in H.
  repeat (break_match_hyp H; try discriminate); injection H as <-;
    repeat split; try reflexivity; apply incl_refl.
Qed.

Lemma animateBlackout_schedulesOnly arr g g' :
  GameScene_animateBlackout arr g = Normal g' -> schedulesOnly g g'.
Proof.
  unfold GameScene_animateBlackout. destruct arr; try discriminate.
  apply forEachC_related;
    [apply schedulesOnly_refl | apply schedulesOnly_trans|].
  intros a g0 g0' H. unfold initiateFade in H.
  repeat (break_match_hyp H; try discriminate). injection H as <-.
  change (match fadeTween g0 with
          | Some h => set_fadeTween None (tween_stop h g0)
          | None => g0
          end) with (stopSceneTween Fade g0).
  apply (schedulesOnly_trans _ (stopSceneTween Fade g0));
    [apply stopSceneTween_schedulesOnly | apply delayedCall_schedulesOnly].
Qed.

Lemma schedulesOnly_keepsWF g g' : schedulesOnly g g' -> keepsWF g g'.
Proof. intros (Hr & Hn & Ht & Hh). apply wf_fewer; assumption. Qed.

(** A shape at the next free address joins the list. *)
Lemma append_keepsWF (s : Shape) (g0 g : Game) :
  wellFormed g0 ->
  refs g = refs g0 -> sh_ref s = nextRef g0 -> nextRef g = S (nextRef g0) ->
  incl (tweens g) (tweens g0) ->
  hb_dyingTween (healthBar g) = hb_dyingTween (healthBar g0) ->
  wellFormed (updLevel (fun l => set_shapes (shapes l ++ [s]) l) g).
Proof.
  intros (Hnd & A & B & C) Hr Hs Hn Ht Hh.
  assert (Hrefs : refs (updLevel (fun l => set_shapes (shapes l ++ [s]) l) g)
                  = refs g0 ++ [nextRef g0]).
  { unfold refs. cbn. rewrite map_app. cbn. rewrite Hs. fold (refs g). rewrite Hr.
    reflexivity. }
  split.
  - rewrite Hrefs. apply NoDup_app; [exact Hnd | constructor; [intros []|constructor]|].
    intros x Hx [<-|[]]. exact (Nat.lt_irrefl _ (C _ Hx)).
  - change (nextRef (updLevel _ g)) with (nextRef g). rewrite Hn. split; [|split].
    + intros t r Hin Hk. apply Nat.lt_lt_succ_r. exact (A t r (Ht t Hin) Hk).
    + intros t Hin Hk. change (hb_dyingTween (healthBar g) = Some (tw_handle t)).
      rewrite Hh. exact (B t (Ht t Hin) Hk).
    + intros x Hx. rewrite Hrefs in Hx. apply in_app_or in Hx as [Hx|[<-|[]]].
      * apply Nat.lt_lt_succ_r. exact (C x Hx).
      * apply Nat.lt_succ_diag_r.
Qed.

Lemma spawnShape_keepsWF shapeType x y vx vy av vd sd md mcd g g' :
  Level_spawnShape shapeType x y vx vy av vd sd md mcd g = Normal g' -> keepsWF g g'.
Proof.
  intros H Hwf. unfold Level_spawnShape in H.
  destruct shapeType as [|label| |]; try discriminate.
  destruct (spawnShape_class label) as [c|]; try discriminate.
  destruct (asNums [x; y; vx; vy; av]) as [[|qx [|qy [|qvx [|qvy [|qav [|]]]]]]|];
    try discriminate.
  set (g1 := if instanceof_Triangle c then updLevel (set_trianglesSpared false) g
             else match c with
                  | Square => updLevel (set_squaresSpared false) g
                  | _ => g
                  end) in *.
  assert (H1 : schedulesOnly g g1).
  { unfold g1. destruct c; repeat split; try reflexivity; apply incl_refl. }
  destruct H1 as (R1 & N1 & T1 & B1).
  set (r := nextRef g1) in *.
  set (g2 := set_staticId (S (staticId g1)) (set_nextRef (S r) g1)) in *.
  assert (R2 : refs g2 = refs g1) by reflexivity.
  assert (T2 : tweens g2 = tweens g1) by reflexivity.
  assert (B2 : hb_dyingTween (healthBar g2) = hb_dyingTween (healthBar g1)) by reflexivity.
  assert (N2 : nextRef g2 = S r) by reflexivity.
  clearbody g2.
  destruct (Shape_animateVelocities r vd g2) as [g3| |] eqn:H3; try discriminate.
  apply animateList_schedulesOnly in H3. cbn [bindC] in H.
  destruct (Shape_animateScale r sd g3) as [g4| |] eqn:H4; try discriminate.
  apply animateList_schedulesOnly in H4. cbn [bindC] in H.
  destruct (Shape_animateMovement r md g4) as [g5| |] eqn:H5; try discriminate.
  apply animateList_schedulesOnly in H5. cbn [bindC] in H.
  destruct (Shape_animateCircularMovement r mcd g5) as [g6| |] eqn:H6; try discriminate.
  apply animateCircularMovement_schedulesOnly in H6. cbn [bindC] in H.
  injection H as <-.
  destruct (schedulesOnly_trans _ _ _ H3
              (schedulesOnly_trans _ _ _ H4 (schedulesOnly_trans _ _ _ H5 H6)))
    as (R6 & N6 & T6 & B6).
  apply (append_keepsWF _ g g6 Hwf).
  - rewrite R6, R2. exact R1.
  - destruct (String.prefix "armored_" label); exact N1.
  - rewrite N6, N2. f_equal. exact N1.
  - intros t Ht. apply T1. rewrite <- T2. apply T6. exact Ht.
  - rewrite B6, B2. exact B1.
Qed.

Lemma spawnArchitecture_keepsWF points velocityY g g' :
  Level_spawnArchitecture points velocityY g = Normal g' -> keepsWF g g'.
Proof.
  intros H Hwf. unfold Level_spawnArchitecture in H.
  destruct points as [| | |pts]; try discriminate.
  destruct velocityY as [vy| | |]; try discriminate.
  destruct (asPoints pts) as [[|p ps]|]; try discriminate.
  injection H as <-.
  apply (append_keepsWF _ g _ Hwf); try reflexivity. apply incl_refl.
Qed.

Lemma processLevelData_keepsWF data g g' :
  Level_processLevelData data g = Normal g' -> keepsWF g g'.
Proof.
  intros H. unfold Level_processLevelData in H.
  destruct data as [|d1 [|d2 [|d3 [|d4 [|d5 [|d6 [|d7 [|d8 [|d9 [|d10 [|d11 rest]]]]]]]]]]];
    try discriminate.
  - destruct d1; try discriminate. injection H as <-.
    apply updLevel_keepsWF. reflexivity.
  - destruct d1 as [|s| |]; try (injection H as <-; apply keepsWF_refl).
    destruct (String.eqb s "black").
    + exact (schedulesOnly_keepsWF _ _ (animateBlackout_schedulesOnly _ _ _ H)).
    + injection H as <-. apply keepsWF_refl.
  - exact (spawnArchitecture_keepsWF _ _ _ _ H).
  - exact (spawnShape_keepsWF _ _ _ _ _ _ _ _ _ _ _ _ H).
Qed.

Lemma resetLevelState_keepsWF g : keepsWF g (Level_resetLevelState g).
Proof.
  destruct (resetLevelState_settles (nextRef g) g) as (E & _ & N & _ & K).
  apply wf_keepsSchedule; [exact (evolves_refs _ _ E) | exact N | exact K].
Qed.

Lemma loadCurrentLevel_keepsWF g g' :
  GameScene_loadCurrentLevel g = Normal g' -> keepsWF g g'.
Proof.
  intros H. rewrite loadCurrentLevel_unfold in H.
  destruct (nth_error _ _) as [script|]; [|discriminate H].
  apply (keepsWF_trans _ (swept g)).
  - unfold swept.
    apply (keepsWF_trans _ (set_score 0%Z (time_removeAllEvents g)));
      [apply wf_same; reflexivity|].
    eapply keepsWF_trans; [|apply purge_keepsWF].
    exact (clearShapesNoSound_closed keepsWF keepsWF_hoverClosed _).
  - apply (keepsWF_trans _ (Level_resetLevelState (swept g)));
      [apply resetLevelState_keepsWF|].
    revert H. unfold Level_loadLevel.
    apply forEachC_related; [apply keepsWF_refl | apply keepsWF_trans|].
    intros a g0 g0'. apply processLevelData_keepsWF.
Qed.

Lemma finishIntangible_keepsWF g : keepsWF g (GameScene_finishIntangible g).
Proof.
  unfold GameScene_finishIntangible.
  apply (keepsWF_trans _ (updLevel (set_intangible false) g));
    [apply updLevel_keepsWF; reflexivity|].
  exact (checkAllShapes_closed keepsWF keepsWF_hoverClosed _).
Qed.

Lemma setSlowtimeFactor_keepsWF f g : keepsWF g (GameScene_setSlowtimeFactor f g).
Proof.
  unfold GameScene_setSlowtimeFactor.
  apply (keepsWF_trans _ (set_clockTimeScale f (set_slowtimeFactor f g)));
    [apply wf_same; reflexivity | apply adjustActiveTweens_keepsWF].
Qed.

Lemma finishSlowtime_keepsWF g : keepsWF g (GameScene_finishSlowtime g).
Proof.
  unfold GameScene_finishSlowtime.
  apply (keepsWF_trans _ (updLevel (set_slowtime false) g));
    [apply updLevel_keepsWF; reflexivity | apply setSlowtimeFactor_keepsWF].
Qed.

Lemma stopShapeTween_keepsWF h g : keepsWF g (stopShapeTween h g).
Proof. destruct h; [apply tween_stop_keepsWF | apply keepsWF_refl]. Qed.

Lemma stopShapeTween_nextRef h g : nextRef (stopShapeTween h g) = nextRef g.
Proof. destruct h; reflexivity. Qed.

Ltac added_tween_keepsWF :=
  match goal with
  | |- keepsWF ?g1 (set_nextHandle _
                      (set_tweens (_ ++ [mkTween _ ?kind ?d1 ?d2 _ ?rp ?yoyo]) _)) =>
      apply (tweens_add_keepsWF kind d1 d2 rp yoyo g1)
  end.

Lemma runCallback_keepsWF PI (cosine sine : Q -> Q) h cb g g' :
  runCallback PI cosine sine h cb g = Normal g' -> keepsWF g g'.
Proof.
  intros H Hwf.
  assert (Hbelow : forall r s, findShape r g = Some s -> (r < nextRef g)%nat).
  { intros r s Hs. destruct Hwf as (_ & _ & _ & C). apply C.
    exact (findShape_refs r g s Hs). }
  revert Hwf. change (keepsWF g g').
  destruct cb as [r ? ?|r ? ? ?|r ? ? ? ?|r ? ? ? ? ?|r ? ? ? ? ? ?|? ?| | |[|]];
    cbn [runCallback] in H.
  - destruct (findShape r g) as [s|] eqn:Hs; [|injection H as <-; apply keepsWF_refl].
    destruct (Qeq_bool _ 0); [discriminate H|].
    unfold tweens_add in H. cbv beta iota zeta in H. injection H as <-.
    apply (keepsWF_trans _ (stopShapeTween (sh_growingTween s) g));
      [apply stopShapeTween_keepsWF|].
    eapply keepsWF_trans; [|apply updShape_keepsWF; keeps].
    added_tween_keepsWF; [reflexivity|].
    intros r0 Hr0. injection Hr0 as <-. rewrite stopShapeTween_nextRef.
    exact (Hbelow r s Hs).
  - destruct (findShape r g) as [s|] eqn:Hs; [|injection H as <-; apply keepsWF_refl].
    destruct (Qeq_bool _ 0); [discriminate H|].
    unfold tweens_add in H. cbv beta iota zeta in H. injection H as <-.
    apply (keepsWF_trans _ (stopShapeTween (sh_velocityTween s) g));
      [apply stopShapeTween_keepsWF|].
    eapply keepsWF_trans; [|apply updShape_keepsWF; keeps].
    added_tween_keepsWF; [reflexivity|].
    intros r0 Hr0. injection Hr0 as <-. rewrite stopShapeTween_nextRef.
    exact (Hbelow r s Hs).
  - destruct (findShape r g) as [s|] eqn:Hs; [|injection H as <-; apply keepsWF_refl].
    destruct (Qeq_bool _ 0); [discriminate H|].
    unfold tweens_add in H. cbv beta iota zeta in H. injection H as <-.
    apply (keepsWF_trans _ (stopShapeTween (sh_movementTween s) g));
      [apply stopShapeTween_keepsWF|].
    apply (keepsWF_trans _ (updShape r (fun s0 => set_sh_secondVelocityY 0
                                                   (set_sh_secondVelocityX 0 s0))
                              (stopShapeTween (sh_movementTween s) g)));
      [apply updShape_keepsWF; keeps|].
    eapply keepsWF_trans; [|apply updShape_keepsWF; keeps].
    added_tween_keepsWF; [reflexivity|].
    intros r0 Hr0. injection Hr0 as <-.
    change (r < nextRef (stopShapeTween (sh_movementTween s) g))%nat.
    rewrite stopShapeTween_nextRef. exact (Hbelow r s Hs).
  - injection H as <-. apply wf_same; reflexivity.
  - destruct (_ || _); [discriminate H|]. injection H as <-.
    eapply keepsWF_trans; [|apply updShape_keepsWF; intros s0; destruct (_ && _); reflexivity].
    apply wf_same; reflexivity.
  - unfold tweens_add in H. cbv beta iota zeta in H. injection H as <-.
    match goal with
    | |- keepsWF _ (set_fadeTween _ ?b) =>
        apply (keepsWF_trans _ b); [|apply wf_same; reflexivity]
    end.
    added_tween_keepsWF; [reflexivity | discriminate].
  - injection H as <-. apply finishIntangible_keepsWF.
  - injection H as <-. apply finishSlowtime_keepsWF.
  - discriminate H.
  - exact (loadCurrentLevel_keepsWF g g' H).
Qed.

Lemma timerFire_keepsWF PI (cosine sine : Q -> Q) h g g' :
  timerFire PI cosine sine h g = Normal g' -> keepsWF g g'.
Proof.
  unfold timerFire. intros H.
  destruct (findEvent h g) as [e|]; [|injection H as <-; apply keepsWF_refl].
  destruct (isPendingInsertion g e); [injection H as <-; apply keepsWF_refl|].
  apply (keepsWF_trans _ (if ev_loop e then g else event_remove h g)).
  - destruct (ev_loop e); [apply keepsWF_refl | apply wf_same; reflexivity].
  - exact (runCallback_keepsWF _ _ _ _ _ _ _ H).
Qed.

Lemma on_keydown_S_keepsWF g : keepsWF g (on_keydown_S g).
Proof.
  unfold on_keydown_S. destruct (_ && _); [apply keepsWF_refl|].
  destruct (slowtime (level g)).
  - eapply keepsWF_trans; [|apply finishSlowtime_keepsWF].
    destruct (slowtimeTimerEvent g); [apply wf_same; reflexivity | apply keepsWF_refl].
  - cbv zeta.
    set (g1 := GameScene_setSlowtimeFactor 0.1 g).
    assert (H1 : keepsWF g g1) by apply setSlowtimeFactor_keepsWF.
    clearbody g1. apply (keepsWF_trans _ g1 _ H1).
    apply wf_same; reflexivity.
Qed.

Lemma on_keydown_E_keepsWF g : keepsWF g (on_keydown_E g).
Proof.
  unfold on_keydown_E. destruct (_ && _); [apply keepsWF_refl|].
  destruct (intangible (level g)).
  - cbv zeta. eapply keepsWF_trans; [|apply finishIntangible_keepsWF].
    match goal with
    | |- keepsWF _ (match intangibleTimerEvent ?x with _ => _ end) =>
        apply (keepsWF_trans _ x);
        [|destruct (intangibleTimerEvent x); [apply wf_same; reflexivity | apply keepsWF_refl]]
    end.
    eapply keepsWF_trans; apply stopShapeTween_keepsWF.
  - unfold keepsWF. intros Hwf.
    set (g1 := updLevel (fun l => set_intangible true (set_intangibleActive false l)) g).
    assert (H1 : wellFormed g1) by (apply (updLevel_keepsWF _ g); [reflexivity | exact Hwf]).
    clearbody g1. clear Hwf.
    destruct (tweens_add TwIntangibleEffect 250 0 0 false g1) as [hin g2] eqn:E2.
    assert (H2 : wellFormed g2).
    { replace g2 with (snd (tweens_add TwIntangibleEffect 250 0 0 false g1))
        by (rewrite E2; reflexivity).
      apply tweens_add_keepsWF; [reflexivity | discriminate | exact H1]. }
    clear E2 H1. clear g1.
    set (g3 := set_intangibleEffectTweenIn (Some hin) g2).
    assert (H3 : wellFormed g3) by (apply (wf_same g2); [reflexivity .. | exact H2]).
    clearbody g3. clear H2.
    destruct (tweens_add TwIntangibleEffect 250 750 0 false g3) as [hout g4] eqn:E4.
    assert (H4 : wellFormed g4).
    { replace g4 with (snd (tweens_add TwIntangibleEffect 250 750 0 false g3))
        by (rewrite E4; reflexivity).
      apply tweens_add_keepsWF; [reflexivity | discriminate | exact H3]. }
    clear E4 H3.
    cbv zeta.
    set (g5 := GameScene_adjustActiveTweens (set_intangibleEffectTweenOut (Some hout) g4)).
    assert (H5 : wellFormed g5).
    { apply adjustActiveTweens_keepsWF.
      apply (wf_same g4); [reflexivity .. | exact H4]. }
    clearbody g5. clear H4.
    apply (wf_same g5); [reflexivity .. | exact H5].
Qed.

(** ** The game as a transition system *)

Section Run.

Variable Math_PI : Q.
Variables Math_cos Math_sin : Q -> Q.

(** What the player and Phaser make the scene do. *)
Inductive Input : Type :=
| PointerMove (x y : Q)
| PointerOver (r : nat)
| PointerOut (r : nat)
| PointerDown (r : nat)
| KeyR
| KeyS
| KeyE
| LevelUpdate (delta : Q)
| ClockPreUpdate
| TimerDue (h : nat)
| TweenProgress (h : nat) (p : Q)
| TweenEnd (h : nat).

Definition react (i : Input) (g : Game) : Completion Game :=
  match i with
  | PointerMove x y => Normal (set_pointer (x, y) g)
  | PointerOver r => Normal (on_pointerover r g)
  | PointerOut r => Normal (on_pointerout r g)
  | PointerDown r => Normal (on_pointerdown r g)
  | KeyR => on_keydown_R g
  | KeyS => Normal (on_keydown_S g)
  | KeyE => Normal (on_keydown_E g)
  | LevelUpdate delta => Normal (Level_update delta g)
  | ClockPreUpdate => Normal (Clock_preUpdate g)
  | TimerDue h => timerFire Math_PI Math_cos Math_sin h g
  | TweenProgress h p => Normal (tweenUpdate h p g)
  | TweenEnd h => Normal (tweenComplete h g)
  end.

(** The states a session reaches from the start of the scene; a handler
    that throws ends it. *)
Inductive reachable (levels : list Script) (D : Q) : Game -> Prop :=
| reach_start : reachable levels D (Game_new levels D)
| reach_step i g g' :
    reachable levels D g -> react i g = Normal g' -> reachable levels D g'.

Lemma react_keepsWF i g g' : react i g = Normal g' -> keepsWF g g'.
Proof.
  destruct i; cbn [react]; intros H; try (injection H as <-).
  - apply wf_same; reflexivity.
  - unfold on_pointerover. destruct (findShape r g); [|apply keepsWF_refl].
    exact (handleShapeInteraction_closed keepsWF keepsWF_hoverClosed _ _ _).
  - unfold on_pointerout. destruct (findShape r g); [|apply keepsWF_refl].
    destruct (String.eqb _ _); [apply decrease_keepsWF | apply keepsWF_refl].
  - unfold on_pointerdown. destruct (findShape r g); [|apply keepsWF_refl].
    destruct (String.prefix _ _); [apply takeDamage_keepsWF | apply keepsWF_refl].
  - unfold on_keydown_R in H.
    apply (keepsWF_trans _ (time_removeAllEvents g)); [apply wf_same; reflexivity|].
    exact (loadCurrentLevel_keepsWF _ _ H).
  - apply on_keydown_S_keepsWF.
  - apply on_keydown_E_keepsWF.
  - apply Level_update_keepsWF.
  - apply wf_same; reflexivity.
  - exact (timerFire_keepsWF _ _ _ _ _ _ H).
  - apply tweenUpdate_keepsWF.
  - apply tweenComplete_keepsWF.
Qed.


End Run.

